(** * A Sudoku board with constraint propagation and its two search drivers

    Shallow embedding of [a5.py]: the helper [remove_if_exists], the class
    [Board] ([__init__], [__str__], [print_pretty], [subgrid_coordinates],
    [find_most_constrained_cell], [failure_test], [goal_test], [update]),
    the drivers [DFS] and [BFS] and the harness [test_dfs_or_bfs].

    Python integers are [Z]; list indices and lengths are [nat] (every index
    the program uses comes from [range] or from a previous scan, so Python's
    negative-index wrap-around never occurs).  A grid cell is either an [int]
    or a [list] of ints, the two cases told apart by [isinstance(_, list)].
    An exception aborts the whole call, so fallible operations live in a
    small error monad. *)

From Stdlib Require Import ZArith Lia ZifyNat Ascii.
From stdpp Require Import base tactics option list numbers sorting gmap strings pretty.

Open Scope Z_scope.

(* Let [lia] reason about division and remainder by constants. *)
Ltac Zify.zify_post_hook ::= Z.div_mod_to_equations.

(** ** Exceptions *)

Inductive exn := IndexError | TypeError.

Inductive result (A : Type) :=
  | Ok (a : A)
  | Raise (e : exn).
Arguments Ok {A} a.
Arguments Raise {A} e.

#[global] Instance result_ret : MRet result := λ A a, Ok a.
#[global] Instance result_bind : MBind result := λ A B f m,
  match m with Ok a => f a | Raise e => Raise e end.

(** [for x in xs: body], threading the mutated state. *)
Fixpoint for_each {A S : Type} (xs : list A) (body : A → S → result S) (s : S)
  : result S :=
  match xs with
  | [] => Ok s
  | x :: t => s' ← body x s; for_each t body s'
  end.

(** [range(n)] and [range(a, b)]. *)
Definition range (n : nat) : list nat := seq 0 n.
Definition range_Z (a b : Z) : list Z := (λ i, a + Z.of_nat i) <$> seq 0 (Z.to_nat (b - a)).

(** [l[i]] and [l[i] = x]: out of range raises. *)
Definition getitem {A} (l : list A) (i : nat) : result A :=
  match l !! i with Some x => Ok x | None => Raise IndexError end.
Definition setitem {A} (l : list A) (i : nat) (x : A) : result (list A) :=
  if decide (i < length l)%nat then Ok (<[i:=x]> l) else Raise IndexError.

(** ** Cells *)

Inductive cell :=
  | Assigned (v : Z)            (* an int *)
  | Candidates (l : list Z).    (* a list *)

#[global] Instance cell_eq_dec : EqDecision cell.
Proof. solve_decision. Defined.

(** [elem in lst]. *)
Definition contains (elem : Z) (lst : list Z) : bool := existsb (Z.eqb elem) lst.

(** [lst.remove(elem)]: drops the first occurrence.  (Python raises
    [ValueError] when there is none; the one call site tests [elem in lst]
    first, and here the list is then returned as it is.) *)
Fixpoint list_remove (elem : Z) (lst : list Z) : list Z :=
  match lst with
  | [] => []
  | y :: t => if Z.eqb y elem then t else y :: list_remove elem t
  end.

Definition remove_if_exists (lst : cell) (elem : Z) : cell :=
  match lst with
  | Candidates l =>
      if contains elem l then Candidates (list_remove elem l) else Candidates l
  | Assigned v => Assigned v
  end.

(** ** Board *)

Record Board := mkBoard {
  num_nums_placed : Z;
  rows : list (list cell)
}.

#[global] Instance Board_eq_dec : EqDecision Board.
Proof. solve_decision. Defined.

(** [self.size]: set to 9 by [__init__] and never assigned again. *)
Definition size : nat := 9.

Definition Board_init : Board :=
  mkBoard 0 ((λ _r, (λ _c, Candidates (range_Z 1 10)) <$> range size) <$> range size).

(** [self.rows[r][c]] *)
Definition get_cell (b : Board) (r c : nat) : result cell :=
  row ← getitem (rows b) r; getitem row c.

(** [self.rows[r][c] = x] *)
Definition set_cell (b : Board) (r c : nat) (x : cell) : result Board :=
  row ← getitem (rows b) r;
  row' ← setitem row c x;
  Ok (mkBoard (num_nums_placed b) (<[r:=row']> (rows b))).

Definition subgrid_coordinates (row col : nat) : list (nat * nat) :=
  let top_r := ((row / 3) * 3)%nat in
  let left_c := ((col / 3) * 3)%nat in
  dr ← range 3; dc ← range 3; [((top_r + dr)%nat, (left_c + dc)%nat)].

(** One step of the double scan of [find_most_constrained_cell]; the loop
    state is [(best_len, best_r, best_c)]. *)
Definition scan_cell (b : Board) (r c : nat) (best : nat * nat * nat)
  : result (nat * nat * nat) :=
  cell ← get_cell b r c;
  match cell with
  | Candidates l =>
      let ln := length l in
      if (ln <? best.1.1)%nat then Ok (ln, r, c) else Ok best
  | Assigned _ => Ok best
  end.

Definition find_most_constrained_cell (b : Board) : result (nat * nat) :=
  best ← for_each (range size)
           (λ r, for_each (range size) (λ c, scan_cell b r c)) (10%nat, 0%nat, 0%nat);
  Ok (best.1.2, best.2).

(** [cell == []] *)
Definition is_empty_list (x : cell) : bool :=
  match x with Candidates [] => true | _ => false end.

Definition failure_test (b : Board) : bool :=
  existsb (λ row, existsb is_empty_list row) (rows b).

Definition goal_test (b : Board) : bool :=
  num_nums_placed b =? Z.of_nat (size * size).

(** [remove_if_exists(self.rows[r][c], assignment)]: the list object held by
    the cell is changed in place. *)
Definition eliminate (assignment : Z) (r c : nat) (b : Board) : result Board :=
  x ← get_cell b r c; set_cell b r c (remove_if_exists x assignment).

Definition update (row column : nat) (assignment : Z) (b : Board) : result Board :=
  b ← set_cell b row column (Assigned assignment);
  let b := mkBoard (num_nums_placed b + 1) (rows b) in
  b ← for_each (range size) (λ r, eliminate assignment r column) b;
  b ← for_each (range size) (λ c, eliminate assignment row c) b;
  for_each (subgrid_coordinates row column) (λ rc, eliminate assignment rc.1 rc.2) b.

(** [copy.deepcopy(candidate)].  Boards are values here, so the copy is the
    board itself; that the copy shares no storage with the original is the
    subject of the store model in [Module Heap]. *)
Definition deepcopy (b : Board) : Board := b.

(** ** Frontiers *)

(** Modelled from the spec: the module [stack_and_queue] with the classes
    [Stack] and [Queue] ([push], [pop], [is_empty]) is imported by [a5.py]
    but is not among the sources.  The spec describes a frontier as a
    container of boards from which the stack removes the most recently
    pushed entry and the queue the earliest pushed one. *)
Class Frontier (F : Type) := {
  new : F;
  push : Board → F → F;
  pop : F → option (Board * F);
  is_empty : F → bool;
}.

Inductive Stack := mkStack (items : list Board).
Inductive Queue := mkQueue (items : list Board).

#[global] Instance Stack_frontier : Frontier Stack := {|
  new := mkStack [];
  push x s := let 'mkStack l := s in mkStack (x :: l);
  pop s := match s with mkStack (x :: l) => Some (x, mkStack l) | mkStack [] => None end;
  is_empty s := match s with mkStack [] => true | _ => false end;
|}.

#[global] Instance Queue_frontier : Frontier Queue := {|
  new := mkQueue [];
  push x q := let 'mkQueue l := q in mkQueue (l ++ [x]);
  pop q := match q with mkQueue (x :: l) => Some (x, mkQueue l) | mkQueue [] => None end;
  is_empty q := match q with mkQueue [] => true | _ => false end;
|}.

(** ** Search drivers *)

(** What a call of [DFS] or [BFS] does: it returns a board, returns [None],
    or an exception escapes. *)
Inductive outcome :=
  | Returned (r : option Board)
  | Raised (e : exn).

Section driver.
Context {F : Type} `{Frontier F}.

(** The body of [if not candidate.failure_test():]. Iterating over an
    [int] raises [TypeError]. *)
Definition branch (candidate : Board) (frontier : F) : result F :=
  rc ← find_most_constrained_cell candidate;
  choices ← get_cell candidate rc.1 rc.2;
  match choices with
  | Candidates l =>
      for_each l (λ v frontier,
        new_state ← update rc.1 rc.2 v (deepcopy candidate);
        Ok (push new_state frontier)) frontier
  | Assigned _ => Raise TypeError
  end.

(** The [while] loop, [fuel] bounding the number of iterations; [None]
    means the bound was reached. *)
Fixpoint search_loop (fuel : nat) (frontier : F) : option outcome :=
  match fuel with
  | O => None
  | S fuel =>
      if is_empty frontier then Some (Returned None)
      else match pop frontier with
           | None => Some (Raised IndexError)
           | Some (candidate, frontier) =>
               if goal_test candidate then Some (Returned (Some candidate))
               else if negb (failure_test candidate) then
                 match branch candidate frontier with
                 | Ok frontier => search_loop fuel frontier
                 | Raise e => Some (Raised e)
                 end
               else search_loop fuel frontier
           end
  end.

Definition search (fuel : nat) (state : Board) : option outcome :=
  search_loop fuel (push state new).
End driver.

Definition DFS (fuel : nat) (state : Board) : option outcome :=
  search (F := Stack) fuel state.
Definition BFS (fuel : nat) (state : Board) : option outcome :=
  search (F := Queue) fuel state.

(** The test harness seeds a puzzle by calling [update] with each move
    of a list, in order, on a new board. *)
Definition play (moves : list (nat * nat * Z)) (b : Board) : result Board :=
  for_each moves (λ mv, update mv.1.1 mv.1.2 mv.2) b.

Definition mv (r c : nat) (v : Z) : nat * nat * Z := (r, c, v).

Definition first_moves : list (nat * nat * Z) :=
  [mv 0 1 7; mv 0 7 1; mv 1 2 9; mv 1 3 7; mv 1 5 4; mv 1 6 2; mv 2 2 8;
   mv 2 3 9; mv 2 6 3; mv 3 1 4; mv 3 2 3; mv 3 4 6; mv 4 1 9; mv 4 3 1;
   mv 4 5 8; mv 4 7 7; mv 5 4 2; mv 5 6 1; mv 5 7 5; mv 6 2 4; mv 6 5 5;
   mv 6 6 7; mv 7 2 7; mv 7 3 4; mv 7 5 1; mv 7 6 9; mv 8 1 3; mv 8 7 8].

Definition second_moves : list (nat * nat * Z) :=
  [mv 0 1 2; mv 0 3 3; mv 0 5 5; mv 0 7 4; mv 1 6 9; mv 2 1 7; mv 2 4 4;
   mv 2 7 8; mv 3 0 1; mv 3 2 7; mv 3 5 9; mv 3 8 2; mv 4 1 9; mv 4 4 3;
   mv 4 7 6; mv 5 0 6; mv 5 3 7; mv 5 6 5; mv 5 8 8; mv 6 1 1; mv 6 4 9;
   mv 6 7 2; mv 7 2 6; mv 8 1 4; mv 8 3 8; mv 8 5 7; mv 8 7 5].

(** * Properties *)

(** ** Reading a board *)

#[global] Instance result_fmap : FMap result := λ A B f m,
  match m with Ok a => Ok (f a) | Raise e => Raise e end.

(** The cell at [(r, c)] when both indices are in range. *)
Definition cell_at (b : Board) (r c : nat) : option cell :=
  rows b !! r ≫= (.!! c).

(** The lengths of the rows. *)
Definition dims (b : Board) : list nat := length <$> rows b.

(** A 9 x 9 grid. *)
Definition shape9 (b : Board) : Prop := dims b = replicate size size.

Lemma get_cell_cell_at b r c :
  get_cell b r c = match cell_at b r c with Some x => Ok x | None => Raise IndexError end.
Proof.
  unfold get_cell, cell_at, getitem.
  destruct (rows b !! r) as [row|]; simpl; [|done].
  by destruct (row !! c).
Qed.

Lemma get_cell_Ok b r c x : get_cell b r c = Ok x ↔ cell_at b r c = Some x.
Proof. rewrite get_cell_cell_at. destruct (cell_at b r c); naive_solver. Qed.

Lemma dims_lookup b r : dims b !! r = length <$> rows b !! r.
Proof. unfold dims. by rewrite list_lookup_fmap. Qed.

Lemma cell_at_is_Some b r c :
  is_Some (cell_at b r c) ↔ ∃ n, dims b !! r = Some n ∧ (c < n)%nat.
Proof.
  unfold cell_at. rewrite dims_lookup.
  destruct (rows b !! r) as [row|]; simpl.
  - rewrite lookup_lt_is_Some. naive_solver.
  - split; [by intros [? ?]|naive_solver].
Qed.

Lemma shape9_lookup b r : shape9 b → dims b !! r = if decide (r < 9)%nat then Some 9%nat else None.
Proof.
  intros ->. case_decide.
  - by apply lookup_replicate_2.
  - apply lookup_replicate_None. unfold size. lia.
Qed.

Lemma shape9_cell_at b r c :
  shape9 b → is_Some (cell_at b r c) ↔ (r < 9)%nat ∧ (c < 9)%nat.
Proof.
  intros Hs. rewrite cell_at_is_Some, (shape9_lookup _ _ Hs).
  case_decide; naive_solver lia.
Qed.

Lemma shape9_dims b b' : dims b' = dims b → shape9 b → shape9 b'.
Proof. unfold shape9. congruence. Qed.

Lemma set_cell_spec b r c y :
  is_Some (cell_at b r c) →
  ∃ b', set_cell b r c y = Ok b'
    ∧ num_nums_placed b' = num_nums_placed b
    ∧ dims b' = dims b
    ∧ ∀ r' c', cell_at b' r' c' =
        if decide (r' = r ∧ c' = c) then Some y else cell_at b r' c'.
Proof.
  unfold cell_at, set_cell, getitem, setitem. intros [x Hx].
  destruct (rows b !! r) as [row|] eqn:Hrow; simpl in *; [|done].
  apply lookup_lt_Some in Hx as Hc. rewrite decide_True by done. simpl.
  eexists. split; [done|]. simpl. split; [done|]. split.
  - unfold dims. simpl. rewrite list_fmap_insert, length_insert.
    apply list_insert_id. by rewrite list_lookup_fmap, Hrow.
  - intros r' c'. apply lookup_lt_Some in Hrow as Hr.
    destruct (decide (r' = r)) as [->|Hne].
    + rewrite list_lookup_insert_eq by done. simpl.
      destruct (decide (c' = c)) as [->|Hnc].
      * rewrite decide_True by done. by apply list_lookup_insert_eq.
      * rewrite decide_False by naive_solver.
        by rewrite list_lookup_insert_ne, Hrow.
    + rewrite decide_False by naive_solver.
      by rewrite list_lookup_insert_ne.
Qed.

Lemma set_cell_Raise b r c y :
  cell_at b r c = None → set_cell b r c y = Raise IndexError.
Proof.
  unfold cell_at, set_cell, getitem, setitem.
  destruct (rows b !! r) as [row|]; simpl; [|done].
  intros Hc%lookup_ge_None. rewrite decide_False by lia. done.
Qed.

(** ** Removing a digit from a cell *)

Lemma contains_elem_of v l : contains v l = true ↔ v ∈ l.
Proof.
  unfold contains. rewrite existsb_exists. setoid_rewrite <- list_elem_of_In.
  split.
  - intros (x & Hx & ->%Z.eqb_eq). done.
  - intros Hv. exists v. by rewrite Z.eqb_refl.
Qed.

Lemma list_remove_absent v l : v ∉ l → list_remove v l = l.
Proof.
  induction l as [|y l IH]; simpl; [done|].
  rewrite not_elem_of_cons. intros [Hne Hl].
  destruct (Z.eqb_spec y v); [congruence|]. by rewrite IH.
Qed.

Lemma remove_if_exists_Candidates l v :
  remove_if_exists (Candidates l) v = Candidates (list_remove v l).
Proof.
  simpl. destruct (contains v l) eqn:Hc; [done|].
  rewrite list_remove_absent; [done|].
  rewrite <- contains_elem_of. congruence.
Qed.

Lemma list_remove_sublist v l : list_remove v l `sublist_of` l.
Proof.
  induction l as [|y l IH]; simpl; [done|].
  destruct (Z.eqb y v).
  - by apply sublist_cons.
  - by apply sublist_skip.
Qed.

Lemma list_remove_NoDup v l : NoDup l → v ∉ list_remove v l.
Proof.
  induction 1 as [|y l Hy Hl IH]; simpl; [apply not_elem_of_nil|].
  destruct (Z.eqb_spec y v) as [->|Hne]; [done|].
  rewrite not_elem_of_cons. done.
Qed.

Lemma list_remove_other v x l : x ≠ v → x ∈ l → x ∈ list_remove v l.
Proof.
  intros Hne. induction l as [|y l IH]; simpl; [done|].
  rewrite elem_of_cons. intros [<-|Hx].
  - destruct (Z.eqb_spec x v); [done|]. apply list_elem_of_here.
  - destruct (Z.eqb_spec y v); [done|]. apply list_elem_of_further. auto.
Qed.

Lemma list_remove_length v l : v ∈ l → S (length (list_remove v l)) = length l.
Proof.
  induction l as [|y l IH]; simpl; [by intros ?%not_elem_of_nil|].
  rewrite elem_of_cons. destruct (Z.eqb_spec y v) as [->|Hne]; [done|].
  intros [?|Hv]; [congruence|]. simpl. by rewrite IH.
Qed.

(** [remove_if_exists] on a cell, conditionally. *)
Definition strip_if (P : Prop) `{Decision P} (v : Z) (x : cell) : cell :=
  if decide P then remove_if_exists x v else x.

Lemma strip_if_Assigned P `{Decision P} v w : strip_if P v (Assigned w) = Assigned w.
Proof. unfold strip_if. by case_decide. Qed.

Lemma strip_if_Candidates P `{Decision P} v l :
  strip_if P v (Candidates l) = Candidates (if decide P then list_remove v l else l).
Proof. unfold strip_if. case_decide; [apply remove_if_exists_Candidates|done]. Qed.

(** ** The effect of [update] on every cell *)

Lemma eliminate_spec v r c b :
  is_Some (cell_at b r c) →
  ∃ b', eliminate v r c b = Ok b'
    ∧ num_nums_placed b' = num_nums_placed b
    ∧ dims b' = dims b
    ∧ ∀ r' c', cell_at b' r' c' = strip_if (r' = r ∧ c' = c) v <$> cell_at b r' c'.
Proof.
  intros [x Hx]. unfold eliminate.
  rewrite (proj2 (get_cell_Ok _ _ _ _) Hx). simpl.
  destruct (set_cell_spec b r c (remove_if_exists x v)) as (b' & -> & Hn & Hd & Hc); [by eexists|].
  exists b'. repeat split; try done.
  intros r' c'. rewrite Hc. case_decide as Hrc.
  - destruct Hrc as [-> ->]. rewrite Hx. simpl. unfold strip_if.
    by rewrite decide_True.
  - destruct (cell_at b r' c'); [simpl|done]. unfold strip_if.
    by rewrite decide_False.
Qed.

(** A pass of [eliminate] over a duplicate-free list of coordinates. *)
Lemma eliminate_pass v (ps : list (nat * nat)) b :
  NoDup ps →
  Forall (λ p, is_Some (cell_at b p.1 p.2)) ps →
  ∃ b', for_each ps (λ p, eliminate v p.1 p.2) b = Ok b'
    ∧ num_nums_placed b' = num_nums_placed b
    ∧ dims b' = dims b
    ∧ ∀ r' c', cell_at b' r' c' = strip_if ((r', c') ∈ ps) v <$> cell_at b r' c'.
Proof.
  intros Hnd. revert b. induction Hnd as [|[r c] ps Hp Hnd IH]; intros b Hin.
  - exists b. repeat split; try done. intros r' c'.
    by destruct (cell_at b r' c').
  - apply Forall_cons in Hin as [Hrc Hin]. simpl in Hrc.
    destruct (eliminate_spec v r c b Hrc) as (b1 & Hb1 & Hn1 & Hd1 & Hc1).
    destruct (IH b1) as (b2 & Hb2 & Hn2 & Hd2 & Hc2).
    { eapply Forall_impl; [exact Hin|]. intros [r' c'] [x Hx]. simpl in *.
      rewrite Hc1, Hx. by eexists. }
    exists b2. simpl. rewrite Hb1. simpl. repeat split; try congruence.
    intros r' c'. rewrite Hc2, Hc1. destruct (cell_at b r' c') as [x|]; [|done].
    simpl. f_equal. unfold strip_if.
    destruct (decide (r' = r ∧ c' = c)) as [[-> ->]|Hne].
    + rewrite (decide_False (P := (r, c) ∈ ps)) by done.
      rewrite decide_True by apply list_elem_of_here. done.
    + destruct (decide ((r', c') ∈ ps)).
      * rewrite decide_True by (by apply list_elem_of_further). done.
      * rewrite decide_False; [done|]. rewrite elem_of_cons. naive_solver.
Qed.

Lemma for_each_fmap {A B S} (f : A → B) (xs : list A) (body : B → S → result S) s :
  for_each (f <$> xs) body s = for_each xs (λ x, body (f x)) s.
Proof.
  revert s. induction xs as [|x xs IH]; intros s; simpl; [done|].
  destruct (body (f x) s); simpl; [apply IH|done].
Qed.

Lemma elem_of_range n i : i ∈ range n ↔ (i < n)%nat.
Proof. unfold range. rewrite elem_of_seq. lia. Qed.

Lemma NoDup_range n : NoDup (range n).
Proof. apply NoDup_seq. Qed.

(** Two cells in the same 3 x 3 block. *)
Definition same_box (r c r' c' : nat) : Prop :=
  (r' / 3 = r / 3)%nat ∧ (c' / 3 = c / 3)%nat.

#[global] Instance same_box_dec r c r' c' : Decision (same_box r c r' c').
Proof. unfold same_box. apply _. Defined.

Lemma subgrid_coordinates_eq r c :
  let t := (r / 3 * 3)%nat in
  let l := (c / 3 * 3)%nat in
  subgrid_coordinates r c =
    [(t + 0, l + 0); (t + 0, l + 1); (t + 0, l + 2);
     (t + 1, l + 0); (t + 1, l + 1); (t + 1, l + 2);
     (t + 2, l + 0); (t + 2, l + 1); (t + 2, l + 2)]%nat.
Proof. reflexivity. Qed.

Lemma elem_of_subgrid_coordinates r c r' c' :
  (r', c') ∈ subgrid_coordinates r c ↔ same_box r c r' c'.
Proof.
  rewrite subgrid_coordinates_eq. cbv zeta. unfold same_box.
  rewrite !elem_of_cons, elem_of_nil.
  split.
  - intros Hin. decompose [or] Hin; simplify_eq; try done; lia.
  - intros [Hr Hc].
    assert (r' = r / 3 * 3 + 0 ∨ r' = r / 3 * 3 + 1 ∨ r' = r / 3 * 3 + 2)%nat as Hr' by lia.
    assert (c' = c / 3 * 3 + 0 ∨ c' = c / 3 * 3 + 1 ∨ c' = c / 3 * 3 + 2)%nat as Hc' by lia.
    destruct Hr' as [->|[->| ->]], Hc' as [->|[->| ->]]; tauto.
Qed.

Lemma NoDup_subgrid_coordinates r c : NoDup (subgrid_coordinates r c).
Proof.
  rewrite subgrid_coordinates_eq. cbv zeta.
  repeat (apply NoDup_cons; split;
    [rewrite ?elem_of_cons, elem_of_nil; intros Hin; decompose [or] Hin; simplify_eq; lia|]).
  apply NoDup_nil_2.
Qed.

Lemma strip_if_iff P Q `{Decision P, Decision Q} v x :
  (P ↔ Q) → strip_if P v x = strip_if Q v x.
Proof. intros HPQ. unfold strip_if. do 2 case_decide; naive_solver. Qed.

(** What [update row column assignment] leaves in the cell at [(r', c')]
    that held [x]: the three passes each call [remove_if_exists] on the
    cells they visit. *)
Definition update_cell (row column : nat) (assignment : Z) (r' c' : nat) (x : cell) : cell :=
  strip_if (same_box row column r' c') assignment
    (strip_if (r' = row) assignment
       (strip_if (c' = column) assignment
          (if decide (r' = row ∧ c' = column) then Assigned assignment else x))).

Lemma eliminate_pass_shape9 v (ps : list (nat * nat)) b :
  shape9 b → NoDup ps → Forall (λ p, (p.1 < 9)%nat ∧ (p.2 < 9)%nat) ps →
  ∃ b', for_each ps (λ p, eliminate v p.1 p.2) b = Ok b'
    ∧ num_nums_placed b' = num_nums_placed b
    ∧ shape9 b'
    ∧ ∀ r' c', cell_at b' r' c' = strip_if ((r', c') ∈ ps) v <$> cell_at b r' c'.
Proof.
  intros Hs Hnd Hin.
  destruct (eliminate_pass v ps b Hnd) as (b' & Hb' & Hn & Hd & Hc).
  { eapply Forall_impl; [exact Hin|]. intros p Hp. by apply shape9_cell_at. }
  exists b'. eauto using shape9_dims.
Qed.

Lemma update_spec row column assignment b :
  shape9 b → (row < 9)%nat → (column < 9)%nat →
  ∃ b', update row column assignment b = Ok b'
    ∧ num_nums_placed b' = num_nums_placed b + 1
    ∧ shape9 b'
    ∧ ∀ r' c', cell_at b' r' c' =
        update_cell row column assignment r' c' <$> cell_at b r' c'.
Proof.
  intros Hs Hr Hc. unfold update.
  destruct (set_cell_spec b row column (Assigned assignment))
    as (b0 & -> & Hn0 & Hd0 & Hc0); [by apply shape9_cell_at|].
  cbn [mbind result_bind].
  set (b1 := mkBoard (num_nums_placed b0 + 1) (rows b0)).
  assert (shape9 b1) as Hs1 by (by apply (shape9_dims b)).
  destruct (eliminate_pass_shape9 assignment ((λ r, (r, column)) <$> range size) b1)
    as (b2 & Hb2 & Hn2 & Hs2 & Hc2); [done| | |].
  { apply NoDup_fmap_2; [intros ?? [=]; done|apply NoDup_range]. }
  { apply Forall_fmap, Forall_forall. intros r ?%elem_of_range. done. }
  rewrite for_each_fmap in Hb2.
  change (for_each (range size) (λ r, eliminate assignment r column) b1 = Ok b2) in Hb2.
  rewrite Hb2. cbn [mbind result_bind].
  destruct (eliminate_pass_shape9 assignment ((λ c, (row, c)) <$> range size) b2)
    as (b3 & Hb3 & Hn3 & Hs3 & Hc3); [done| | |].
  { apply NoDup_fmap_2; [intros ?? [=]; done|apply NoDup_range]. }
  { apply Forall_fmap, Forall_forall. intros r ?%elem_of_range. done. }
  rewrite for_each_fmap in Hb3.
  change (for_each (range size) (λ c, eliminate assignment row c) b2 = Ok b3) in Hb3.
  rewrite Hb3. cbn [mbind result_bind].
  destruct (eliminate_pass_shape9 assignment (subgrid_coordinates row column) b3)
    as (b4 & Hb4 & Hn4 & Hs4 & Hc4); [done|apply NoDup_subgrid_coordinates| |].
  { apply Forall_forall. intros [r' c'] [??]%elem_of_subgrid_coordinates.
    simpl. lia. }
  exists b4. split; [done|]. split; [simpl in *; lia|]. split; [done|].
  intros r' c'. rewrite Hc4, Hc3, Hc2.
  change (cell_at b1 r' c') with (cell_at b0 r' c'). rewrite Hc0.
  destruct (cell_at b r' c') as [x|] eqn:Hx.
  - assert ((r' < 9)%nat ∧ (c' < 9)%nat) as [Hr' Hc'].
    { apply (shape9_cell_at b); [done|by eexists]. }
    unfold update_cell.
    destruct (decide (r' = row ∧ c' = column)) as [Heq|Hne];
      cbn [fmap option_fmap option_map]; f_equal.
    all: rewrite (strip_if_iff ((r', c') ∈ subgrid_coordinates row column)
               (same_box row column r' c')) by apply elem_of_subgrid_coordinates.
    all: rewrite (strip_if_iff ((r', c') ∈ (λ c, (row, c)) <$> range size) (r' = row))
      by (rewrite list_elem_of_fmap; setoid_rewrite elem_of_range; naive_solver).
    all: rewrite (strip_if_iff ((r', c') ∈ (λ r, (r, column)) <$> range size) (c' = column))
      by (rewrite list_elem_of_fmap; setoid_rewrite elem_of_range; naive_solver).
    all: done.
  - rewrite decide_False; [done|]. intros [-> ->].
    assert (is_Some (cell_at b row column)) as [? ?] by (by apply shape9_cell_at).
    congruence.
Qed.

Lemma update_Ok_range row column assignment b b' :
  shape9 b → update row column assignment b = Ok b' → (row < 9)%nat ∧ (column < 9)%nat.
Proof.
  intros Hs Hu. apply (shape9_cell_at b); [done|].
  destruct (cell_at b row column) eqn:Hx; [by eexists|].
  unfold update in Hu. by rewrite set_cell_Raise in Hu.
Qed.

Lemma update_cell_target row column v x : update_cell row column v row column x = Assigned v.
Proof.
  unfold update_cell. rewrite decide_True by done. by rewrite !strip_if_Assigned.
Qed.

Lemma update_cell_Assigned row column v r' c' w :
  (r', c') ≠ (row, column) → update_cell row column v r' c' (Assigned w) = Assigned w.
Proof.
  intros Hne. unfold update_cell. rewrite decide_False by naive_solver.
  by rewrite !strip_if_Assigned.
Qed.

(** The list left in a candidate cell other than the target. *)
Definition update_list (row column : nat) (v : Z) (r' c' : nat) (l : list Z) : list Z :=
  let l1 := if decide (c' = column) then list_remove v l else l in
  let l2 := if decide (r' = row) then list_remove v l1 else l1 in
  if decide (same_box row column r' c') then list_remove v l2 else l2.

Lemma update_cell_Candidates row column v r' c' l :
  (r', c') ≠ (row, column) →
  update_cell row column v r' c' (Candidates l) = Candidates (update_list row column v r' c' l).
Proof.
  intros Hne. unfold update_cell, update_list. rewrite decide_False by naive_solver.
  by rewrite !strip_if_Candidates.
Qed.

Lemma update_cell_inv row column v r' c' x l' :
  update_cell row column v r' c' x = Candidates l' →
  (r', c') ≠ (row, column) ∧ ∃ l, x = Candidates l ∧ l' = update_list row column v r' c' l.
Proof.
  intros Hu. destruct (decide ((r', c') = (row, column))) as [[= -> ->]|Hne].
  - by rewrite update_cell_target in Hu.
  - split; [done|]. destruct x as [w|l].
    + by rewrite update_cell_Assigned in Hu.
    + rewrite update_cell_Candidates in Hu by done. exists l. split; congruence.
Qed.

Lemma update_list_sublist row column v r' c' l :
  update_list row column v r' c' l `sublist_of` l.
Proof.
  unfold update_list. repeat case_decide;
    repeat (etrans; [apply list_remove_sublist|]); done.
Qed.

Lemma update_list_peer row column v r' c' l :
  NoDup l → r' = row ∨ c' = column ∨ same_box row column r' c' →
  v ∉ update_list row column v r' c' l.
Proof.
  intros Hnd Hpeer.
  assert (∀ k, k `sublist_of` l → v ∉ list_remove v k) as Hrm.
  { intros k Hk. apply list_remove_NoDup. by eapply sublist_NoDup. }
  unfold update_list.
  destruct (decide (c' = column)), (decide (r' = row)),
    (decide (same_box row column r' c')); try tauto;
    apply Hrm; repeat (etrans; [apply list_remove_sublist|]); done.
Qed.

Lemma update_list_other row column v r' c' l x :
  x ≠ v → x ∈ l → x ∈ update_list row column v r' c' l.
Proof.
  intros Hne Hx. unfold update_list.
  repeat case_decide; eauto using list_remove_other.
Qed.

(** ** Boards of the data model *)

(** A candidate cell holds a set of digits, kept as a list without
    repetition. *)
Definition candidate_set (l : list Z) : Prop :=
  NoDup l ∧ ∀ v, v ∈ l → 1 ≤ v ≤ 9.

(** The grid is 9 x 9 and every candidate cell holds a set of digits. *)
Definition well_formed (b : Board) : Prop :=
  shape9 b ∧ ∀ r c l, cell_at b r c = Some (Candidates l) → candidate_set l.

(** The cell at [(r, c)] is in the row, the column or the block of
    [(row, column)]. *)
Definition shares_unit (row column r c : nat) : Prop :=
  r = row ∨ c = column ∨ same_box row column r c.

Lemma candidate_set_sublist l k : candidate_set l → k `sublist_of` l → candidate_set k.
Proof.
  intros [Hnd Hr] Hk. split; [by eapply sublist_NoDup|].
  intros v Hv. apply Hr. by eapply elem_of_sublist.
Qed.

Lemma candidate_set_length l : candidate_set l → (length l ≤ 9)%nat.
Proof.
  intros [Hnd Hr].
  change 9%nat with (length (range_Z 1 10)).
  apply submseteq_length, NoDup_submseteq; [done|].
  intros v Hv%Hr. unfold range_Z. simpl.
  assert (v = 1 ∨ v = 2 ∨ v = 3 ∨ v = 4 ∨ v = 5 ∨ v = 6 ∨ v = 7 ∨ v = 8 ∨ v = 9)
    as Hcases by lia.
  rewrite !elem_of_cons. naive_solver.
Qed.

Lemma Board_init_cell_at r c :
  (r < 9)%nat → (c < 9)%nat → cell_at Board_init r c = Some (Candidates (range_Z 1 10)).
Proof.
  intros Hr Hc. unfold cell_at, Board_init, range. cbn [rows].
  rewrite list_lookup_fmap, (lookup_seq_lt _ _ r) by done.
  cbn [fmap option_fmap option_map mbind option_bind].
  by rewrite list_lookup_fmap, (lookup_seq_lt _ _ c) by done.
Qed.

Lemma Board_init_shape9 : shape9 Board_init.
Proof. reflexivity. Qed.

Lemma Board_init_cells r c x :
  cell_at Board_init r c = Some x → x = Candidates (range_Z 1 10).
Proof.
  intros Hx. assert ((r < 9)%nat ∧ (c < 9)%nat) as [Hr Hc].
  { apply (shape9_cell_at Board_init); [apply Board_init_shape9|by eexists]. }
  rewrite Board_init_cell_at in Hx by done. congruence.
Qed.

(** [update] keeps every property of candidate lists that sublists inherit. *)
Lemma update_candidates (P : list Z → Prop) row column v b b' :
  (∀ l k, P l → k `sublist_of` l → P k) →
  shape9 b →
  (∀ r c l, cell_at b r c = Some (Candidates l) → P l) →
  update row column v b = Ok b' →
  shape9 b' ∧ ∀ r c l, cell_at b' r c = Some (Candidates l) → P l.
Proof.
  intros HP Hs Hb Hu. destruct (update_Ok_range _ _ _ _ _ Hs Hu) as [Hr Hc].
  destruct (update_spec row column v b Hs Hr Hc) as (b2 & Hu2 & _ & Hs2 & Hc2).
  assert (b2 = b') as -> by congruence. split; [done|].
  intros r c l. rewrite Hc2. destruct (cell_at b r c) as [x|] eqn:Hx; [|done].
  intros [= (_ & l0 & -> & ->)%update_cell_inv].
  eapply HP; [by eapply Hb|apply update_list_sublist].
Qed.

Lemma update_well_formed row column v b b' :
  well_formed b → update row column v b = Ok b' → well_formed b'.
Proof.
  intros [Hs Hc] Hu.
  by apply (update_candidates candidate_set row column v b b' candidate_set_sublist).
Qed.

Lemma Board_init_well_formed : well_formed Board_init.
Proof.
  split; [apply Board_init_shape9|]. intros r c l [= ->]%Board_init_cells.
  split.
  - unfold range_Z. simpl. repeat (apply NoDup_cons; split;
      [rewrite ?elem_of_cons, elem_of_nil; lia|]). apply NoDup_nil_2.
  - unfold range_Z. simpl. intros v. rewrite !elem_of_cons, elem_of_nil. lia.
Qed.

Lemma play_invariant (P : Board → Prop) moves b b' :
  (∀ r c v b b', P b → update r c v b = Ok b' → P b') →
  P b → play moves b = Ok b' → P b'.
Proof.
  intros Hstep. unfold play. revert b. induction moves as [|[[r c] v] moves IH];
    intros b Hb Hplay; simpl in Hplay.
  - congruence.
  - destruct (update r c v b) as [b1|] eqn:Hu; [|done]. eauto.
Qed.

Lemma play_well_formed moves b b' :
  well_formed b → play moves b = Ok b' → well_formed b'.
Proof. apply (play_invariant well_formed). intros. by eapply update_well_formed. Qed.

(** The seeded board of the first test puzzle. *)
Definition first_board : Board :=
  Eval vm_compute in
    match play first_moves Board_init with Ok b => b | Raise _ => Board_init end.

Lemma first_board_play : play first_moves Board_init = Ok first_board.
Proof. vm_compute. reflexivity. Qed.

Lemma first_board_well_formed : well_formed first_board.
Proof. exact (play_well_formed _ _ _ Board_init_well_formed first_board_play). Qed.

(** ** Claims about [update] *)

(** C1: on a board of the data model, [update row column assignment]
    with [row] and [column] below 9 returns normally, and afterwards no
    candidate list in the row, the column or the 3 x 3 block of the target
    holds [assignment] (whatever the digit, so in particular for 1..9),
    while every cell other than the target that held an assigned digit
    still holds it. *)
Theorem update_clears_peers b row column assignment :
  well_formed b → (row < 9)%nat → (column < 9)%nat →
  ∃ b', update row column assignment b = Ok b'
    ∧ (∀ r c l, shares_unit row column r c →
         get_cell b' r c = Ok (Candidates l) → assignment ∉ l)
    ∧ (∀ r c w, (r, c) ≠ (row, column) →
         get_cell b r c = Ok (Assigned w) → get_cell b' r c = Ok (Assigned w)).
Proof.
  intros [Hs Hwf] Hr Hc.
  destruct (update_spec row column assignment b Hs Hr Hc) as (b' & Hu & _ & _ & Hcell).
  exists b'. split; [done|]. split.
  - intros r c l Hpeer. rewrite get_cell_Ok, Hcell.
    destruct (cell_at b r c) as [x|] eqn:Hx; [|done].
    intros [= (_ & l0 & -> & ->)%update_cell_inv].
    apply update_list_peer; [|done]. by apply (Hwf r c).
  - intros r c w Hne. rewrite !get_cell_Ok, Hcell. intros ->. simpl.
    by rewrite update_cell_Assigned.
Qed.

Lemma update_clears_peers_witness :
  ∃ b', update 4 4 5 first_board = Ok b'
    ∧ (∀ r c l, shares_unit 4 4 r c →
         get_cell b' r c = Ok (Candidates l) → 5 ∉ l)
    ∧ (∀ r c w, (r, c) ≠ (4%nat, 4%nat) →
         get_cell first_board r c = Ok (Assigned w) → get_cell b' r c = Ok (Assigned w)).
Proof.
  apply (update_clears_peers first_board 4 4 5); [apply first_board_well_formed|lia|lia].
Defined.

(** [list.remove] drops one occurrence only: on a list that repeats the
    digit (not a set, so outside the data model) a copy survives in a cell
    that a single pass visits. *)
Remark update_repeated_digit :
  ∃ b b', set_cell Board_init 0 8 (Candidates [5; 5]) = Ok b
    ∧ update 0 0 5 b = Ok b' ∧ get_cell b' 0 8 = Ok (Candidates [5]).
Proof.
  eexists _, _. split; [vm_compute; reflexivity|].
  split; vm_compute; reflexivity.
Qed.

Lemma play_app moves1 moves2 b :
  play (moves1 ++ moves2) b = b' ← play moves1 b; play moves2 b'.
Proof.
  unfold play. revert b. induction moves1 as [|m moves1 IH]; intros b; simpl; [done|].
  destruct (update _ _ _ b); simpl; [apply IH|done].
Qed.

(** The coordinates of a move are on the grid. *)
Definition on_grid (m : nat * nat * Z) : Prop := (m.1.1 < 9)%nat ∧ (m.1.2 < 9)%nat.

Lemma play_counts moves b :
  shape9 b → Forall on_grid moves →
  ∃ b', play moves b = Ok b' ∧ shape9 b'
    ∧ num_nums_placed b' = num_nums_placed b + Z.of_nat (length moves).
Proof.
  intros Hs Hm. revert b Hs. induction Hm as [|[[r c] v] moves [Hr Hc] Hm IH]; intros b Hs.
  - exists b. simpl. split; [done|]. split; [done|lia].
  - destruct (update_spec r c v b Hs Hr Hc) as (b1 & Hu & Hn & Hs1 & _).
    destruct (IH b1 Hs1) as (b' & Hp & Hs' & Hn').
    exists b'. unfold play in *. simpl. rewrite Hu. simpl.
    split; [done|]. split; [done|]. cbn [length]. lia.
Qed.

(** C5: from a new board, any sequence of [update] calls at grid
    coordinates (pairwise distinct or not) returns normally with
    [num_nums_placed] equal to the number of calls; this holds after every
    prefix of the sequence, so each call adds exactly 1. *)
Theorem num_nums_placed_counts_updates (moves : list (nat * nat * Z)) :
  Forall on_grid moves →
  ∀ k, (k ≤ length moves)%nat →
    ∃ b, play (take k moves) Board_init = Ok b ∧ num_nums_placed b = Z.of_nat k.
Proof.
  intros Hm k Hk.
  destruct (play_counts (take k moves) Board_init Board_init_shape9)
    as (b & Hp & _ & Hn); [by apply Forall_take|].
  exists b. split; [done|]. rewrite Hn, length_take. simpl. lia.
Qed.

Lemma num_nums_placed_counts_updates_witness :
  ∃ b, play (take 28 first_moves) Board_init = Ok b ∧ num_nums_placed b = 28.
Proof.
  apply (num_nums_placed_counts_updates first_moves).
  - unfold first_moves, on_grid, mv. repeat (apply Forall_cons; split; [simpl; lia|]).
    apply Forall_nil_2.
  - simpl. lia.
Defined.

(** ** Claims about the tests *)

(** C6: [failure_test] answers [True] exactly when some cell of the grid
    is the empty list. *)
Theorem failure_test_iff_empty_candidates b :
  failure_test b = true ↔ ∃ r c, get_cell b r c = Ok (Candidates []).
Proof.
  unfold failure_test. rewrite existsb_exists. setoid_rewrite existsb_exists.
  setoid_rewrite get_cell_Ok. unfold cell_at.
  setoid_rewrite <- list_elem_of_In. split.
  - intros (row & [r Hr]%list_elem_of_lookup_1 & x & [c Hc]%list_elem_of_lookup_1 & Hx).
    exists r, c. rewrite Hr. simpl. rewrite Hc.
    by destruct x as [|[|]].
  - intros (r & c & Hrc). destruct (rows b !! r) as [row|] eqn:Hr; [|done].
    simpl in Hrc. exists row. split; [by eapply list_elem_of_lookup_2|].
    exists (Candidates []). split; [by eapply list_elem_of_lookup_2|done].
Qed.

(** C7: [goal_test] answers [True] exactly when the counter is 81; the
    grid is not looked at, so any grid at all (for instance the new board's,
    on which nothing is assigned) tests as solved once the counter says 81. *)
Theorem goal_test_iff_counter :
  (∀ b, goal_test b = true ↔ num_nums_placed b = 81)
  ∧ (∀ grid, goal_test (mkBoard 81 grid) = true)
  ∧ (goal_test (mkBoard 81 (rows Board_init)) = true
     ∧ ∀ r c w, get_cell (mkBoard 81 (rows Board_init)) r c ≠ Ok (Assigned w)).
Proof.
  split; [|split; [|split]].
  - intros b. unfold goal_test. rewrite Z.eqb_eq. done.
  - done.
  - done.
  - intros r c w. rewrite get_cell_Ok.
    change (cell_at (mkBoard 81 (rows Board_init)) r c) with (cell_at Board_init r c).
    by intros ?%Board_init_cells.
Qed.

(** ** The scan of [find_most_constrained_cell] *)

Lemma for_each_app {A S} (xs ys : list A) (body : A → S → result S) s :
  for_each (xs ++ ys) body s = s' ← for_each xs body s; for_each ys body s'.
Proof.
  revert s. induction xs as [|x xs IH]; intros s; simpl; [done|].
  destruct (body x s); simpl; [apply IH|done].
Qed.

Lemma for_each_nested {A B S} (xs : list A) (ys : list B) (f : A → B → S → result S) s :
  for_each xs (λ x, for_each ys (f x)) s =
  for_each (x ← xs; (λ y, (x, y)) <$> ys) (λ p, f p.1 p.2) s.
Proof.
  revert s. induction xs as [|x xs IH]; intros s; simpl; [done|].
  rewrite for_each_app, for_each_fmap. simpl.
  destruct (for_each ys (f x) s); simpl; [apply IH|done].
Qed.

(** The 81 coordinates in the order of the double loop: rows, then columns. *)
Definition cells : list (nat * nat) := r ← range size; (λ c, (r, c)) <$> range size.

Lemma cells_lookup_inv i p :
  cells !! i = Some p → (p.1 < 9)%nat ∧ (p.2 < 9)%nat ∧ i = (9 * p.1 + p.2)%nat.
Proof.
  let cs := eval vm_compute in cells in change cells with cs.
  do 81 (destruct i as [|i]; [intros [= <-]; simpl; lia|]). done.
Qed.

Lemma cells_lookup r c :
  (r < 9)%nat → (c < 9)%nat → cells !! (9 * r + c)%nat = Some (r, c).
Proof.
  intros Hr Hc.
  do 9 (destruct r as [|r]; [do 9 (destruct c as [|c]; [reflexivity|]); lia|]). lia.
Qed.

Lemma find_most_constrained_cell_cells b :
  find_most_constrained_cell b =
    best ← for_each cells (λ p, scan_cell b p.1 p.2) (10%nat, 0%nat, 0%nat);
    Ok (best.1.2, best.2).
Proof. unfold find_most_constrained_cell. by rewrite for_each_nested. Qed.

Lemma scan_cell_step b r c x st :
  cell_at b r c = Some x →
  scan_cell b r c st =
    Ok match x with
       | Candidates l => if (length l <? st.1.1)%nat then (length l, r, c) else st
       | Assigned _ => st
       end.
Proof.
  intros Hx. unfold scan_cell. rewrite (proj2 (get_cell_Ok _ _ _ _) Hx).
  cbn [mbind result_bind]. destruct x as [w|l]; [done|]. by case_match.
Qed.

(** The invariant of the scan over a list of coordinates [ps] started with
    [st]: either nothing beats the initial bound and the state is
    unchanged, or the state names the first cell of least length. *)
Lemma scan_spec b (ps : list (nat * nat)) (st : nat * nat * nat) :
  Forall (λ p, is_Some (cell_at b p.1 p.2)) ps →
  ∃ st', for_each ps (λ p, scan_cell b p.1 p.2) st = Ok st'
    ∧ ((st' = st
        ∧ ∀ j p l, ps !! j = Some p → cell_at b p.1 p.2 = Some (Candidates l) →
            (st.1.1 ≤ length l)%nat)
       ∨ (∃ i l, ps !! i = Some (st'.1.2, st'.2)
            ∧ cell_at b st'.1.2 st'.2 = Some (Candidates l)
            ∧ length l = st'.1.1 ∧ (st'.1.1 < st.1.1)%nat
            ∧ ∀ j p l', ps !! j = Some p → cell_at b p.1 p.2 = Some (Candidates l') →
                (st'.1.1 ≤ length l')%nat ∧ ((j < i)%nat → (st'.1.1 < length l')%nat))).
Proof.
  intros Hin. revert st. induction Hin as [|[r c] ps [x Hx] Hin IH]; intros st.
  { exists st. split; [done|]. left. split; [done|]. intros j p l. by rewrite lookup_nil. }
  simpl in Hx. cbn [for_each fst snd].
  rewrite (scan_cell_step b r c x st Hx). cbn [mbind result_bind].
  set (st1 := match x with Assigned _ => st | Candidates _ => _ end).
  assert ((st1 = st ∧ ∀ l, x = Candidates l → (st.1.1 ≤ length l)%nat)
          ∨ (∃ l, x = Candidates l ∧ st1 = (length l, r, c) ∧ (length l < st.1.1)%nat))
    as Hst1.
  { subst st1. destruct x as [w|l]; [left; naive_solver|].
    destruct (Nat.ltb_spec (length l) st.1.1).
    - right. by exists l.
    - left. split; [done|]. by intros ? [= <-]. }
  clearbody st1.
  destruct (IH st1) as (st' & -> & Hst'). exists st'. split; [done|].
  destruct Hst' as [[-> Hall]|(i & l & Hi & Hl & Hlen & Hlt & Hall)].
  - (* the rest of the scan keeps the state *)
    destruct Hst1 as [[-> Hhead]|(l & -> & -> & Hlt)].
    + left. split; [done|].
      intros [|j] p l' Hj Hp; simpl in Hj; simplify_eq; simpl in Hp.
      * apply Hhead. congruence.
      * by eapply Hall.
    + right. exists 0%nat, l. simpl. do 4 (split; [done|]).
      intros [|j] p l' Hj Hp; simpl in Hj; simplify_eq; simpl in Hp.
      * rewrite Hx in Hp. simplify_eq. lia.
      * split; [by eapply (Hall j p l')|lia].
  - (* the rest of the scan finds a shorter list *)
    right. exists (S i), l. do 3 (split; [done|]).
    destruct Hst1 as [[-> Hhead]|(l1 & -> & -> & Hlt1)]; simpl in *.
    + split; [done|].
      intros [|j] p l' Hj Hp; simpl in Hj; simplify_eq; simpl in Hp.
      * assert (st.1.1 ≤ length l')%nat by (apply Hhead; congruence). lia.
      * destruct (Hall j p l' Hj Hp) as [? Hbefore]. split; [done|].
        intros ?. apply Hbefore. lia.
    + split; [lia|].
      intros [|j] p l' Hj Hp; simpl in Hj; simplify_eq; simpl in Hp.
      * rewrite Hx in Hp. simplify_eq. lia.
      * destruct (Hall j p l' Hj Hp) as [? Hbefore]. split; [done|].
        intros ?. apply Hbefore. lia.
Qed.

Lemma cells_on_grid b : shape9 b → Forall (λ p, is_Some (cell_at b p.1 p.2)) cells.
Proof.
  intros Hs. apply Forall_forall. intros p [i Hi%cells_lookup_inv]%list_elem_of_lookup_1.
  apply shape9_cell_at; [done|lia].
Qed.

(** The cell the scan selects. *)
Lemma find_most_constrained_cell_spec b :
  well_formed b →
  ∃ r c, find_most_constrained_cell b = Ok (r, c)
    ∧ ((∃ r0 c0 l0, get_cell b r0 c0 = Ok (Candidates l0)) →
        ∃ l, get_cell b r c = Ok (Candidates l)
          ∧ ∀ r' c' l', get_cell b r' c' = Ok (Candidates l') →
              (length l ≤ length l')%nat
              ∧ (length l' = length l → (r < r')%nat ∨ (r = r' ∧ (c ≤ c')%nat)))
    ∧ ((∀ r0 c0 l0, get_cell b r0 c0 ≠ Ok (Candidates l0)) → (r, c) = (0%nat, 0%nat)).
Proof.
  intros [Hs Hwf]. rewrite find_most_constrained_cell_cells.
  destruct (scan_spec b cells (10%nat, 0%nat, 0%nat) (cells_on_grid b Hs))
    as ([[bl br] bc] & -> & Hscan).
  exists br, bc. split; [done|]. simpl in Hscan.
  assert (∀ r' c' l', cell_at b r' c' = Some (Candidates l') →
            cells !! (9 * r' + c')%nat = Some (r', c')) as Hidx.
  { intros r' c' l' Hc. apply cells_lookup; apply (shape9_cell_at b r' c' Hs); by eexists. }
  setoid_rewrite get_cell_Ok.
  destruct Hscan as [[[= -> -> ->] Hall]|(i & l & Hi & Hl & Hlen & Hlt & Hall)].
  - split; [|done]. intros (r0 & c0 & l0 & Hc0). exfalso.
    pose proof (candidate_set_length l0 (Hwf _ _ _ Hc0)).
    specialize (Hall _ (r0, c0) l0 (Hidx _ _ _ Hc0) Hc0). lia.
  - split; [|intros Hnone; by destruct (Hnone br bc l)].
    intros _. exists l. split; [done|]. intros r' c' l' Hc'.
    destruct (Hall _ (r', c') l' (Hidx _ _ _ Hc') Hc') as [Hle Hfirst].
    split; [lia|]. intros Heq.
    apply cells_lookup_inv in Hi as (? & ? & ->). simpl in *.
    assert ((r' < 9)%nat ∧ (c' < 9)%nat) as [??].
    { apply (shape9_cell_at b r' c' Hs). by eexists. }
    destruct (decide (9 * r' + c' < 9 * br + bc)%nat) as [Hlt'|]; [|lia].
    specialize (Hfirst Hlt'). lia.
Qed.


(** C2: on a board of the data model the scan returns normally.  If the
    board has a candidate list, the cell returned holds one, no candidate
    list on the board is shorter, and any other of the same length comes
    later in the row-by-row order; if the board has none, the answer is
    [(0, 0)]. *)
Theorem find_most_constrained_cell_first_minimum b :
  well_formed b →
  ∃ r c, find_most_constrained_cell b = Ok (r, c)
    ∧ ((∃ r0 c0 l0, get_cell b r0 c0 = Ok (Candidates l0)) →
        ∃ l, get_cell b r c = Ok (Candidates l)
          ∧ ∀ r' c' l', get_cell b r' c' = Ok (Candidates l') →
              (length l ≤ length l')%nat
              ∧ (length l' = length l → (r < r')%nat ∨ (r = r' ∧ (c ≤ c')%nat)))
    ∧ ((∀ r0 c0 l0, get_cell b r0 c0 ≠ Ok (Candidates l0)) → (r, c) = (0%nat, 0%nat)).
Proof. apply find_most_constrained_cell_spec. Qed.

Lemma find_most_constrained_cell_first_minimum_witness :
  ∃ r c, find_most_constrained_cell first_board = Ok (r, c)
    ∧ ((∃ r0 c0 l0, get_cell first_board r0 c0 = Ok (Candidates l0)) →
        ∃ l, get_cell first_board r c = Ok (Candidates l)
          ∧ ∀ r' c' l', get_cell first_board r' c' = Ok (Candidates l') →
              (length l ≤ length l')%nat
              ∧ (length l' = length l → (r < r')%nat ∨ (r = r' ∧ (c ≤ c')%nat)))
    ∧ ((∀ r0 c0 l0, get_cell first_board r0 c0 ≠ Ok (Candidates l0)) → (r, c) = (0%nat, 0%nat)).
Proof.
  apply (find_most_constrained_cell_first_minimum first_board), first_board_well_formed.
Defined.

(** The bound 10 the scan starts from is what makes this work: a list of
    ten or more entries (not a set of digits) is never selected. *)
Remark find_most_constrained_cell_long_list :
  ∃ b b', set_cell Board_init 0 0 (Assigned 1) = Ok b
    ∧ for_each cells (λ p b,
        if decide (p = (0%nat, 0%nat)) then Ok b
        else set_cell b p.1 p.2 (Candidates (range_Z 0 10))) b = Ok b'
    ∧ find_most_constrained_cell b' = Ok (0%nat, 0%nat)
    ∧ get_cell b' 0 0 = Ok (Assigned 1).
Proof.
  eexists _, _. split; [vm_compute; reflexivity|].
  split; [vm_compute; reflexivity|]. split; vm_compute; reflexivity.
Qed.

(** ** Candidate lists stay ascending *)

Lemma sublist_StronglySorted {A} (R : relation A) (k l : list A) :
  k `sublist_of` l → StronglySorted R l → StronglySorted R k.
Proof.
  induction 1 as [|x k l Hkl IH|x k l Hkl IH]; rewrite ?StronglySorted_cons.
  - done.
  - intros [Hx Hl]. split; [|auto].
    eapply Forall_impl; [|done]. apply Forall_forall. intros y Hy.
    eapply Forall_forall in Hx; [done|]. by eapply elem_of_sublist.
  - intros [_ Hl]. auto.
Qed.

Lemma range_1_10_sorted : StronglySorted Z.lt (range_Z 1 10).
Proof.
  unfold range_Z. simpl.
  repeat (apply SSorted_cons; [|repeat (apply Forall_cons; split; [lia|]); apply Forall_nil_2]).
  apply SSorted_nil.
Qed.

(** What can be reached from a new board by [update] calls. *)
Definition reachable (b : Board) : Prop := ∃ moves, play moves Board_init = Ok b.

Lemma reachable_shape9 b : reachable b → shape9 b.
Proof.
  intros [moves Hp].
  by apply (play_well_formed moves Board_init b Board_init_well_formed).
Qed.

Lemma reachable_sublist b r c l :
  reachable b → cell_at b r c = Some (Candidates l) → l `sublist_of` range_Z 1 10.
Proof.
  intros [moves Hp].
  assert (shape9 b ∧ ∀ r c l, cell_at b r c = Some (Candidates l) →
            l `sublist_of` range_Z 1 10) as [_ Hb]; [|apply Hb].
  apply (play_invariant (λ b, shape9 b ∧ ∀ r c l,
           cell_at b r c = Some (Candidates l) → l `sublist_of` range_Z 1 10)
           moves Board_init b); [| |done].
  - intros r0 c0 v b0 b1 [Hs Hc] Hu.
    apply (update_candidates (λ l, l `sublist_of` range_Z 1 10) r0 c0 v b0 b1); try done.
    intros l0 k Hl0 Hk. by etrans.
  - split; [apply Board_init_shape9|]. by intros r0 c0 l0 [= ->]%Board_init_cells.
Qed.

Lemma reachable_update b row column v b' :
  reachable b → update row column v b = Ok b' → reachable b'.
Proof.
  intros [moves Hp] Hu. exists (moves ++ [(row, column, v)]).
  rewrite play_app, Hp. simpl. unfold play. simpl. by rewrite Hu.
Qed.

(** The frontier after the [for v in choices] loop. *)
Lemma branch_pushes {F} `{Frontier F} (candidate : Board) (frontier : F) rc l :
  shape9 candidate →
  find_most_constrained_cell candidate = Ok rc →
  get_cell candidate rc.1 rc.2 = Ok (Candidates l) →
  ∃ children,
    Forall2 (λ v child, update rc.1 rc.2 v candidate = Ok child) l children
    ∧ branch candidate frontier =
        Ok (foldl (λ frontier child, push child frontier) frontier children).
Proof.
  intros Hs Hf Hc. unfold branch. rewrite Hf. cbn [mbind result_bind]. rewrite Hc.
  cbn [mbind result_bind]. unfold deepcopy.
  assert ((rc.1 < 9)%nat ∧ (rc.2 < 9)%nat) as [Hr Hcol].
  { apply (shape9_cell_at candidate); [done|]. apply get_cell_Ok in Hc. by eexists. }
  clear Hc Hf. revert frontier. induction l as [|v l IH]; intros frontier.
  - exists []. split; [constructor|done].
  - destruct (update_spec rc.1 rc.2 v candidate Hs Hr Hcol) as (child & Hu & _).
    destruct (IH (push child frontier)) as (children & Hall & Hbr).
    exists (child :: children). split; [by constructor|].
    simpl. rewrite Hu. simpl. exact Hbr.
Qed.

(** C10: on every board reached from a new one by [update] calls, each
    candidate list is a sublist of [1..9], so strictly ascending and without
    repetition; and the driver, which walks the chosen list in order,
    pushes one child per digit of that ascending list, in that order. *)
Theorem candidate_lists_ascending (moves : list (nat * nat * Z)) (b : Board) :
  play moves Board_init = Ok b →
  (∀ r c l, get_cell b r c = Ok (Candidates l) →
     l `sublist_of` range_Z 1 10 ∧ StronglySorted Z.lt l ∧ NoDup l)
  ∧ (∀ F (HF : Frontier F) (frontier : F) rc l,
       find_most_constrained_cell b = Ok rc →
       get_cell b rc.1 rc.2 = Ok (Candidates l) →
       StronglySorted Z.lt l
       ∧ ∃ children,
           Forall2 (λ v child, update rc.1 rc.2 v b = Ok child) l children
           ∧ branch b frontier =
               Ok (foldl (λ frontier child, push child frontier) frontier children)).
Proof.
  intros Hp. assert (reachable b) as Hreach by (by exists moves).
  assert (∀ r c l, get_cell b r c = Ok (Candidates l) →
            l `sublist_of` range_Z 1 10 ∧ StronglySorted Z.lt l ∧ NoDup l) as Hlists.
  { intros r c l Hl%get_cell_Ok.
    pose proof (reachable_sublist b r c l Hreach Hl) as Hsub.
    split; [done|]. split.
    - eapply sublist_StronglySorted; [exact Hsub|apply range_1_10_sorted].
    - apply (sublist_NoDup l (range_Z 1 10)); [|exact Hsub].
      apply Board_init_well_formed with 0%nat 0%nat. apply Board_init_cell_at; lia. }
  split; [done|]. intros F HF frontier rc l Hf Hc. split; [by eapply Hlists|].
  by apply branch_pushes; [apply reachable_shape9|..].
Qed.

Lemma candidate_lists_ascending_witness :
  (∀ r c l, get_cell first_board r c = Ok (Candidates l) →
     l `sublist_of` range_Z 1 10 ∧ StronglySorted Z.lt l ∧ NoDup l)
  ∧ (∀ F (HF : Frontier F) (frontier : F) rc l,
       find_most_constrained_cell first_board = Ok rc →
       get_cell first_board rc.1 rc.2 = Ok (Candidates l) →
       StronglySorted Z.lt l
       ∧ ∃ children,
           Forall2 (λ v child, update rc.1 rc.2 v first_board = Ok child) l children
           ∧ branch first_board frontier =
               Ok (foldl (λ frontier child, push child frontier) frontier children)).
Proof.
  apply (candidate_lists_ascending first_moves first_board). vm_compute. reflexivity.
Defined.

(** ** The loop of the drivers, one iteration at a time *)

Section loop.
Context {F : Type} `{Frontier F}.

(** One pass through the body of the [while] loop that goes back to its
    head: the frontier is not empty, the board popped does not pass
    [goal_test], and it is dropped or replaced by its children. *)
Inductive iteration : F → F → Prop :=
  | iteration_prune frontier candidate rest :
      is_empty frontier = false →
      pop frontier = Some (candidate, rest) →
      goal_test candidate = false →
      failure_test candidate = true →
      iteration frontier rest
  | iteration_branch frontier candidate rest frontier' :
      is_empty frontier = false →
      pop frontier = Some (candidate, rest) →
      goal_test candidate = false →
      failure_test candidate = false →
      branch candidate rest = Ok frontier' →
      iteration frontier frontier'.

(** The frontier empties without a board that passes [goal_test] ever
    being popped. *)
Definition exhausts (frontier : F) : Prop :=
  ∃ frontier', rtc iteration frontier frontier' ∧ is_empty frontier' = true.

Lemma search_loop_None_exhausts fuel frontier :
  search_loop fuel frontier = Some (Returned None) → exhausts frontier.
Proof.
  revert frontier. induction fuel as [|fuel IH]; intros frontier; simpl; [done|].
  destruct (is_empty frontier) eqn:He.
  { intros _. exists frontier. split; [apply rtc_refl|done]. }
  destruct (pop frontier) as [[candidate rest]|] eqn:Hpop; [|done].
  destruct (goal_test candidate) eqn:Hg; [done|].
  destruct (failure_test candidate) eqn:Hf; simpl.
  - intros (last & Hrtc & Hlast)%IH. exists last. split; [|done].
    eapply rtc_l; [|done]. by eapply iteration_prune.
  - destruct (branch candidate rest) as [frontier'|] eqn:Hb; [|done].
    intros (last & Hrtc & Hlast)%IH. exists last. split; [|done].
    eapply rtc_l; [|done]. by eapply iteration_branch.
Qed.

Lemma search_loop_iteration fuel frontier frontier' :
  iteration frontier frontier' →
  search_loop (S fuel) frontier = search_loop fuel frontier'.
Proof.
  intros [? candidate rest He Hpop Hg Hf|? candidate rest ? He Hpop Hg Hf Hb];
    simpl; rewrite He, Hpop, Hg, Hf; simpl; [done|by rewrite Hb].
Qed.

Lemma exhausts_search_loop frontier :
  exhausts frontier → ∃ fuel, search_loop fuel frontier = Some (Returned None).
Proof.
  intros (last & Hrtc & Hlast).
  induction Hrtc as [frontier|frontier frontier1 last Hit _ IH].
  - exists 1%nat. simpl. by rewrite Hlast.
  - destruct (IH Hlast) as [fuel Hfuel]. exists (S fuel).
    by rewrite (search_loop_iteration _ _ _ Hit).
Qed.

Lemma exhausts_only_None frontier fuel :
  exhausts frontier →
  search_loop fuel frontier = None ∨ search_loop fuel frontier = Some (Returned None).
Proof.
  intros (last & Hrtc & Hlast). revert fuel.
  induction Hrtc as [frontier|frontier frontier1 last Hit _ IH]; intros [|fuel];
    [by left|right|by left|].
  - simpl. by rewrite Hlast.
  - rewrite (search_loop_iteration _ _ _ Hit). by apply IH.
Qed.

Lemma search_loop_returns_goal fuel frontier r :
  search_loop fuel frontier = Some (Returned (Some r)) → goal_test r = true.
Proof.
  revert frontier. induction fuel as [|fuel IH]; intros frontier; simpl; [done|].
  destruct (is_empty frontier); [done|].
  destruct (pop frontier) as [[candidate rest]|]; [|done].
  destruct (goal_test candidate) eqn:Hg; [congruence|].
  destruct (failure_test candidate); simpl; [by apply IH|].
  destruct (branch candidate rest); [by apply IH|done].
Qed.
End loop.

(** C3: [DFS], and [BFS] alike, returns [None] (for some bound on the
    number of iterations) exactly when the loop runs its frontier empty
    without popping a board that passes [goal_test]; and when the frontier
    runs empty in this way no exception is raised and no board is returned,
    whatever the bound: the only outcome is the returned [None]. *)
Theorem search_None_iff_exhausted (state : Board) :
  ((∃ fuel, DFS fuel state = Some (Returned None)) ↔ exhausts (push state (new : Stack)))
  ∧ ((∃ fuel, BFS fuel state = Some (Returned None)) ↔ exhausts (push state (new : Queue)))
  ∧ (exhausts (push state (new : Stack)) →
       ∀ fuel, DFS fuel state = None ∨ DFS fuel state = Some (Returned None))
  ∧ (exhausts (push state (new : Queue)) →
       ∀ fuel, BFS fuel state = None ∨ BFS fuel state = Some (Returned None)).
Proof.
  unfold DFS, BFS, search. repeat split.
  - intros [fuel Hfuel]. by eapply search_loop_None_exhausts.
  - apply exhausts_search_loop.
  - intros [fuel Hfuel]. by eapply search_loop_None_exhausts.
  - apply exhausts_search_loop.
  - intros Hex fuel. by apply exhausts_only_None.
  - intros Hex fuel. by apply exhausts_only_None.
Qed.

(** A board on which nothing can be placed at [(0, 0)]: the search from
    it runs the frontier empty. *)
Definition dead_end : Board :=
  Eval vm_compute in
    match set_cell Board_init 0 0 (Candidates []) with Ok b => b | Raise _ => Board_init end.

Lemma search_None_iff_exhausted_witness :
  exhausts (push dead_end (new : Stack)) ∧ exhausts (push dead_end (new : Queue)).
Proof.
  split.
  - apply (proj1 (search_None_iff_exhausted dead_end)). exists 2%nat.
    vm_compute. reflexivity.
  - apply (proj1 (proj2 (search_None_iff_exhausted dead_end))). exists 2%nat.
    vm_compute. reflexivity.
Defined.

(** The first test puzzle and what [DFS] returns on it. *)
Definition first_solution : Board :=
  Eval vm_compute in
    match DFS 100 first_board with Some (Returned (Some r)) => r | _ => first_board end.

(** C9: a board returned by [DFS] or by [BFS] passes [goal_test], for
    every input board and every bound on the number of iterations. *)
Theorem search_returns_only_goals (fuel : nat) (state r : Board) :
  DFS fuel state = Some (Returned (Some r)) ∨ BFS fuel state = Some (Returned (Some r)) →
  goal_test r = true.
Proof.
  unfold DFS, BFS, search. intros [Hr|Hr]; exact (search_loop_returns_goal _ _ _ Hr).
Qed.

Lemma search_returns_only_goals_witness :
  DFS 100 first_board = Some (Returned (Some first_solution))
  ∧ goal_test first_solution = true.
Proof.
  assert (DFS 100 first_board = Some (Returned (Some first_solution))) as Hrun.
  { vm_compute. reflexivity. }
  split; [exact Hrun|].
  apply (search_returns_only_goals 100 first_board first_solution). left. exact Hrun.
Defined.

(** * Further properties of the board operations *)

(** ** Boards are determined by their cells *)

Lemma rows_ext (g1 g2 : list (list cell)) :
  length <$> g1 = length <$> g2 →
  (∀ r c, g1 !! r ≫= (.!! c) = g2 !! r ≫= (.!! c)) →
  g1 = g2.
Proof.
  intros Hd Hc. apply list_eq. intros r.
  assert (length <$> g1 !! r = length <$> g2 !! r) as Hlen.
  { by rewrite <- !list_lookup_fmap, Hd. }
  specialize (Hc r).
  destruct (g1 !! r) as [row1|], (g2 !! r) as [row2|]; simplify_eq/=; [|done].
  f_equal. apply list_eq. intros c. apply Hc.
Qed.

Lemma Board_ext b1 b2 :
  num_nums_placed b1 = num_nums_placed b2 →
  dims b1 = dims b2 →
  (∀ r c, cell_at b1 r c = cell_at b2 r c) →
  b1 = b2.
Proof.
  destruct b1 as [n1 g1], b2 as [n2 g2]. unfold dims, cell_at. simpl.
  intros -> Hd Hc. f_equal. by apply rows_ext.
Qed.

(** ** Open cells *)

Definition is_candidates (x : option cell) : bool :=
  match x with Some (Candidates _) => true | _ => false end.

(** The coordinates that still hold a candidate list, in scan order. *)
Definition open_cells (b : Board) : list (nat * nat) :=
  filter (λ p, is_candidates (cell_at b p.1 p.2)) cells.

Lemma NoDup_cells : NoDup cells.
Proof.
  apply NoDup_alt. intros i j p Hi%cells_lookup_inv Hj%cells_lookup_inv. lia.
Qed.

Lemma elem_of_cells r c : (r, c) ∈ cells ↔ (r < 9)%nat ∧ (c < 9)%nat.
Proof.
  split.
  - intros [i Hi%cells_lookup_inv]%list_elem_of_lookup_1. simpl in Hi. lia.
  - intros [Hr Hc]. eapply list_elem_of_lookup_2. by apply cells_lookup.
Qed.

Lemma elem_of_open_cells b r c :
  shape9 b → (r, c) ∈ open_cells b ↔ ∃ l, cell_at b r c = Some (Candidates l).
Proof.
  intros Hs. unfold open_cells. rewrite list_elem_of_filter, elem_of_cells. simpl. split.
  - intros [Hc _]. destruct (cell_at b r c) as [[|l]|]; try done. by exists l.
  - intros [l Hl]. rewrite Hl. split; [done|].
    apply (shape9_cell_at b r c Hs). by eexists.
Qed.

Lemma filter_ext_elem_of {A} (P Q : A → Prop)
    `{∀ x, Decision (P x), ∀ x, Decision (Q x)} (l : list A) :
  (∀ x, x ∈ l → P x ↔ Q x) → filter P l = filter Q l.
Proof.
  induction l as [|x l IH]; intros HPQ; [done|].
  rewrite !filter_cons.
  rewrite IH by (intros y Hy; apply HPQ; by apply list_elem_of_further).
  pose proof (HPQ x (list_elem_of_here _ _)).
  destruct (decide (P x)), (decide (Q x)); naive_solver.
Qed.

(** Dropping one element that passes the filter. *)
Lemma length_filter_remove {A} (P Q : A → Prop)
    `{∀ x, Decision (P x), ∀ x, Decision (Q x)} (a : A) (l : list A) :
  NoDup l → a ∈ l → P a → (∀ x, Q x ↔ P x ∧ x ≠ a) →
  S (length (filter Q l)) = length (filter P l).
Proof.
  intros Hnd Ha HPa HQ. induction Hnd as [|x l Hx Hnd IH]; [by apply elem_of_nil in Ha|].
  rewrite !filter_cons. apply elem_of_cons in Ha as [<-|Ha].
  - destruct (decide (Q a)) as [HQa|_]; [apply HQ in HQa; naive_solver|].
    rewrite decide_True by done.
    simpl. f_equal. f_equal. apply filter_ext_elem_of.
    intros y Hy. rewrite HQ. naive_solver.
  - specialize (IH Ha). assert (x ≠ a) by (intros ->; done).
    destruct (decide (P x)) as [HPx|HPx].
    + rewrite decide_True by (rewrite HQ; done). simpl. by rewrite IH.
    + rewrite decide_False by (rewrite HQ; naive_solver). done.
Qed.

(** ** The board invariant *)

(** A different cell in the same row, column or block. *)
Definition peer (r c r' c' : nat) : Prop := (r', c') ≠ (r, c) ∧ shares_unit r c r' c'.

(** The invariant the class maintains when digits are placed only where
    they are still listed: the grid is 9 x 9, the counter counts the cells
    that hold a digit, digits are 1..9, candidate lists are sets of digits,
    and a placed digit occurs neither in a peer nor in a peer's list. *)
Record consistent (b : Board) : Prop := {
  consistent_shape : shape9 b;
  consistent_count : num_nums_placed b + Z.of_nat (length (open_cells b)) = 81;
  consistent_digits : ∀ r c w, cell_at b r c = Some (Assigned w) → 1 ≤ w ≤ 9;
  consistent_lists : ∀ r c l, cell_at b r c = Some (Candidates l) → candidate_set l;
  consistent_placed : ∀ r c w r' c' w',
    peer r c r' c' → cell_at b r c = Some (Assigned w) →
    cell_at b r' c' = Some (Assigned w') → w ≠ w';
  consistent_listed : ∀ r c w r' c' l,
    peer r c r' c' → cell_at b r c = Some (Assigned w) →
    cell_at b r' c' = Some (Candidates l) → w ∉ l;
}.

Lemma same_box_sym r c r' c' : same_box r c r' c' → same_box r' c' r c.
Proof. unfold same_box. naive_solver. Qed.

Lemma shares_unit_sym r c r' c' : shares_unit r c r' c' → shares_unit r' c' r c.
Proof. unfold shares_unit. intros [->|[->|?%same_box_sym]]; auto. Qed.

Lemma peer_sym r c r' c' : peer r c r' c' → peer r' c' r c.
Proof. intros [Hne Hs]. split; [congruence|by apply shares_unit_sym]. Qed.

Lemma update_list_nonpeer row column v r' c' l :
  ¬ shares_unit row column r' c' → update_list row column v r' c' l = l.
Proof.
  unfold shares_unit, update_list. intros Hn.
  rewrite !decide_False by tauto. done.
Qed.

Lemma update_cell_nonpeer row column v r' c' x :
  (r', c') ≠ (row, column) → ¬ shares_unit row column r' c' →
  update_cell row column v r' c' x = x.
Proof.
  intros Hne Hn. destruct x as [w|l].
  - by apply update_cell_Assigned.
  - by rewrite update_cell_Candidates, update_list_nonpeer.
Qed.

Lemma update_cell_Assigned_inv row column v r' c' x w :
  (r', c') ≠ (row, column) → update_cell row column v r' c' x = Assigned w → x = Assigned w.
Proof.
  intros Hne. destruct x as [w0|l].
  - by rewrite update_cell_Assigned.
  - by rewrite update_cell_Candidates.
Qed.

Lemma update_cell_cases row column v r c x :
  ((r, c) = (row, column) ∧ update_cell row column v r c x = Assigned v)
  ∨ ((r, c) ≠ (row, column)
     ∧ ((∃ w, x = Assigned w ∧ update_cell row column v r c x = Assigned w)
        ∨ (∃ l, x = Candidates l
             ∧ update_cell row column v r c x =
                 Candidates (update_list row column v r c l)))).
Proof.
  destruct (decide ((r, c) = (row, column))) as [[= -> ->]|Hne].
  - left. by rewrite update_cell_target.
  - right. split; [done|]. destruct x as [w|l].
    + left. exists w. by rewrite update_cell_Assigned.
    + right. exists l. by rewrite update_cell_Candidates.
Qed.

(** Placing a digit that the target cell still lists keeps the invariant
    and closes exactly one cell. *)
Lemma update_consistent row column v b l :
  consistent b → cell_at b row column = Some (Candidates l) → v ∈ l →
  ∃ b', update row column v b = Ok b' ∧ consistent b'
    ∧ S (length (open_cells b')) = length (open_cells b)
    ∧ ∀ r c, cell_at b' r c = update_cell row column v r c <$> cell_at b r c.
Proof.
  intros [Hs Hn Hdig Hlists Hplaced Hlisted] Htarget Hv.
  assert ((row < 9)%nat ∧ (column < 9)%nat) as [Hr Hc].
  { apply (shape9_cell_at b row column Hs). by eexists. }
  destruct (update_spec row column v b Hs Hr Hc) as (b' & Hu & Hn' & Hs' & Hcell).
  assert (S (length (open_cells b')) = length (open_cells b)) as Hopen.
  { unfold open_cells. apply (length_filter_remove _ _ (row, column)).
    - apply NoDup_cells.
    - by apply elem_of_cells.
    - simpl. by rewrite Htarget.
    - intros [r c]. simpl. rewrite Hcell.
      destruct (cell_at b r c) as [x|] eqn:Hx; simpl; [|naive_solver].
      destruct (update_cell_cases row column v r c x)
        as [[Heq ->]|[Hne [(w & -> & ->)|(l0 & -> & ->)]]]; naive_solver. }
  exists b'. split; [done|]. split; [|done]. split.
  - done.
  - lia.
  - intros r c w. rewrite Hcell. destruct (cell_at b r c) as [x|] eqn:Hx; [|done].
    simpl. intros [= Hw].
    destruct (update_cell_cases row column v r c x)
      as [[Heq Hy]|[Hne [(w0 & -> & Hy)|(l0 & -> & Hy)]]]; rewrite Hy in Hw; simplify_eq.
    + destruct (Hlists _ _ _ Htarget) as [_ Hrange]. by apply Hrange.
    + by eapply Hdig.
  - intros r c l'. rewrite Hcell. destruct (cell_at b r c) as [x|] eqn:Hx; [|done].
    simpl. intros [= (_ & l0 & -> & ->)%update_cell_inv].
    eapply candidate_set_sublist; [by eapply Hlists|apply update_list_sublist].
  - intros r1 c1 w1 r2 c2 w2 Hpeer. rewrite !Hcell.
    destruct (cell_at b r1 c1) as [x1|] eqn:Hx1; [|done].
    destruct (cell_at b r2 c2) as [x2|] eqn:Hx2; [|done].
    simpl. intros [= H1] [= H2].
    destruct (update_cell_cases row column v r1 c1 x1)
      as [[Heq1 Hy1]|[Hne1 [(u1 & -> & Hy1)|(l1 & -> & Hy1)]]];
    destruct (update_cell_cases row column v r2 c2 x2)
      as [[Heq2 Hy2]|[Hne2 [(u2 & -> & Hy2)|(l2 & -> & Hy2)]]];
      rewrite Hy1 in H1; rewrite Hy2 in H2; simplify_eq.
    + by destruct Hpeer.
    + (* the new digit against an old one *)
      intros <-. eapply (Hlisted r2 c2 w1 row column l); [by apply peer_sym|done..].
    + intros ->. by eapply (Hlisted r1 c1 w2 row column l).
    + by eapply Hplaced.
  - intros r1 c1 w1 r2 c2 l2' Hpeer. rewrite !Hcell.
    destruct (cell_at b r1 c1) as [x1|] eqn:Hx1; [|done].
    destruct (cell_at b r2 c2) as [x2|] eqn:Hx2; [|done].
    simpl. intros [= H1] [= (Hne2 & l2 & -> & ->)%update_cell_inv].
    destruct (update_cell_cases row column v r1 c1 x1)
      as [[Heq1 Hy1]|[Hne1 [(u1 & -> & Hy1)|(l1 & -> & Hy1)]]];
      rewrite Hy1 in H1; simplify_eq.
    + apply update_list_peer; [by eapply Hlists|]. by destruct Hpeer.
    + intros Hin. eapply (Hlisted r1 c1 w1 r2 c2 l2); [done..|].
      by eapply elem_of_sublist; [|apply update_list_sublist].
Qed.

(** ** Solutions *)

(** A completed grid: a digit 1..9 in each of the 81 cells, no digit
    twice in a row, a column or a block. *)
Definition solution (g : nat → nat → Z) : Prop :=
  (∀ r c, (r < 9)%nat → (c < 9)%nat → 1 ≤ g r c ≤ 9)
  ∧ (∀ r c r' c', (r < 9)%nat → (c < 9)%nat → (r' < 9)%nat → (c' < 9)%nat →
       peer r c r' c' → g r c ≠ g r' c').

(** The grid [g] is still possible on the board [b]. *)
Definition compatible (g : nat → nat → Z) (b : Board) : Prop :=
  ∀ r c, (∀ w, cell_at b r c = Some (Assigned w) → w = g r c)
       ∧ (∀ l, cell_at b r c = Some (Candidates l) → g r c ∈ l).

(** The board [b'] continues [b]: placed digits stay, an open cell of [b]
    holds in [b'] one of its digits or a part of its list. *)
Definition refines (b' b : Board) : Prop :=
  ∀ r c, (∀ w, cell_at b r c = Some (Assigned w) → cell_at b' r c = Some (Assigned w))
       ∧ (∀ l, cell_at b r c = Some (Candidates l) →
            (∃ w, cell_at b' r c = Some (Assigned w) ∧ w ∈ l)
            ∨ (∃ l', cell_at b' r c = Some (Candidates l') ∧ l' ⊆ l)).

(** The board is full and is a solution. *)
Definition solved (b : Board) : Prop :=
  ∃ g, solution g ∧ ∀ r c, (r < 9)%nat → (c < 9)%nat → cell_at b r c = Some (Assigned (g r c)).

Lemma refines_refl b : refines b b.
Proof. intros r c. split; [done|]. intros l Hl. right. by exists l. Qed.

Lemma refines_trans b1 b2 b3 : refines b1 b2 → refines b2 b3 → refines b1 b3.
Proof.
  intros H12 H23 r c. destruct (H12 r c) as [Ha12 Hc12], (H23 r c) as [Ha23 Hc23].
  split; [auto|]. intros l [(w & Hw & Hin)|(l' & Hl' & Hsub)]%Hc23.
  - left. exists w. auto.
  - destruct (Hc12 _ Hl') as [(w & Hw & Hin)|(l'' & Hl'' & Hsub')].
    + left. exists w. split; [done|]. by apply Hsub.
    + right. exists l''. split; [done|]. by etrans.
Qed.

Lemma update_refines row column v b b' l :
  cell_at b row column = Some (Candidates l) → v ∈ l →
  (∀ r c, cell_at b' r c = update_cell row column v r c <$> cell_at b r c) →
  refines b' b.
Proof.
  intros Htarget Hv Hcell r c. rewrite Hcell. split.
  - intros w Hw. rewrite Hw. simpl. f_equal. apply update_cell_Assigned.
    intros [= -> ->]. congruence.
  - intros l0 Hl0. rewrite Hl0. simpl.
    destruct (update_cell_cases row column v r c (Candidates l0))
      as [[[= -> ->] ->]|[Hne [(w & ? & _)|(l1 & [= <-] & ->)]]]; [|done|].
    + left. exists v. split; [done|]. congruence.
    + right. eexists. split; [done|]. apply sublist_subseteq, update_list_sublist.
Qed.

Lemma update_compatible g row column b b' :
  solution g → shape9 b → compatible g b →
  (∀ r c, cell_at b' r c = update_cell row column (g row column) r c <$> cell_at b r c) →
  is_Some (cell_at b row column) →
  compatible g b'.
Proof.
  intros [_ Hdiff] Hs Hcomp Hcell Htarget r c. rewrite Hcell.
  destruct (cell_at b r c) as [x|] eqn:Hx; [|done]. simpl.
  assert ((r < 9)%nat ∧ (c < 9)%nat) as [??] by (apply (shape9_cell_at b r c Hs); by eexists).
  assert ((row < 9)%nat ∧ (column < 9)%nat) as [??] by (by apply (shape9_cell_at b)).
  destruct (Hcomp r c) as [Ha Hc].
  destruct (update_cell_cases row column (g row column) r c x)
    as [[[= -> ->] ->]|[Hne [(w & -> & ->)|(l0 & -> & ->)]]].
  - split; [congruence|done].
  - split; [|done]. intros ? [= <-]. by apply Ha.
  - split; [done|]. intros ? [= <-].
    destruct (decide (shares_unit row column r c)) as [Hsh|Hsh].
    + apply update_list_other; [|by apply Hc].
      intros Heq. by apply (Hdiff row column r c).
    + rewrite update_list_nonpeer by done. by apply Hc.
Qed.

Lemma consistent_well_formed b : consistent b → well_formed b.
Proof. intros [Hs _ _ Hl _ _]. by split. Qed.

Lemma consistent_goal_solved b : consistent b → goal_test b = true → solved b.
Proof.
  intros [Hs Hn Hdig Hlists Hplaced Hlisted] Hg.
  apply Z.eqb_eq in Hg. change (Z.of_nat (size * size)) with 81 in Hg.
  assert (open_cells b = []) as Hopen by (apply length_zero_iff_nil; lia).
  assert (∀ r c, (r < 9)%nat → (c < 9)%nat → ∃ w, cell_at b r c = Some (Assigned w)) as Hfull.
  { intros r c Hr Hc.
    destruct (proj2 (shape9_cell_at b r c Hs) (conj Hr Hc)) as [[w|l] Hx]; [by exists w|].
    assert ((r, c) ∈ open_cells b) as Hin by (apply elem_of_open_cells; eauto).
    rewrite Hopen in Hin. by apply elem_of_nil in Hin. }
  exists (λ r c, match cell_at b r c with Some (Assigned w) => w | _ => 0 end).
  split; [split|].
  - intros r c Hr Hc. destruct (Hfull r c Hr Hc) as [w Hw]. rewrite Hw. by eapply Hdig.
  - intros r c r' c' Hr Hc Hr' Hc' Hpeer.
    destruct (Hfull r c Hr Hc) as [w Hw], (Hfull r' c' Hr' Hc') as [w' Hw'].
    rewrite Hw, Hw'. by eapply Hplaced.
  - intros r c Hr Hc. destruct (Hfull r c Hr Hc) as [w Hw]. by rewrite Hw.
Qed.

Lemma consistent_not_goal_open b :
  consistent b → goal_test b = false → ∃ r c l, cell_at b r c = Some (Candidates l).
Proof.
  intros [Hs Hn _ _ _ _] Hg. apply Z.eqb_neq in Hg.
  change (Z.of_nat (size * size)) with 81 in Hg.
  destruct (open_cells b) as [|[r c] rest] eqn:Hopen; [simpl in Hn; lia|].
  assert ((r, c) ∈ open_cells b) as Hin by (rewrite Hopen; apply list_elem_of_here).
  apply elem_of_open_cells in Hin as [l Hl]; [|done]. by exists r, c, l.
Qed.

Lemma failure_test_cell b :
  failure_test b = true ↔ ∃ r c, cell_at b r c = Some (Candidates []).
Proof.
  unfold failure_test. rewrite existsb_exists. setoid_rewrite existsb_exists.
  unfold cell_at. setoid_rewrite <- list_elem_of_In. split.
  - intros (row & [r Hr]%list_elem_of_lookup_1 & x & [c Hc]%list_elem_of_lookup_1 & Hx).
    exists r, c. rewrite Hr. simpl. rewrite Hc.
    by destruct x as [|[|]].
  - intros (r & c & Hrc). destruct (rows b !! r) as [row|] eqn:Hr; [|done].
    simpl in Hrc. exists row. split; [by eapply list_elem_of_lookup_2|].
    exists (Candidates []). split; [by eapply list_elem_of_lookup_2|done].
Qed.

Lemma failure_test_incompatible g b : failure_test b = true → ¬ compatible g b.
Proof.
  intros (r & c & Hrc)%failure_test_cell Hcomp.
  destruct (Hcomp r c) as [_ Hc]. specialize (Hc _ Hrc). by apply elem_of_nil in Hc.
Qed.

(** ** Laws of the frontiers *)

(** What both frontiers have in common: they hold a collection of boards,
    [push] adds one, [pop] takes one out, [is_empty] tells whether any is
    left. *)
Class FrontierLaws (F : Type) `{Frontier F} := {
  contents : F → list Board;
  contents_new : contents new = [];
  contents_push x f : contents (push x f) ≡ₚ x :: contents f;
  is_empty_contents f : is_empty f = true ↔ contents f = [];
  pop_contents f :
    match pop f with
    | Some (x, f') => contents f ≡ₚ x :: contents f'
    | None => contents f = []
    end;
}.

#[global, refine] Instance Stack_laws : FrontierLaws Stack :=
  {| contents s := let 'mkStack l := s in l |}.
Proof.
  - done.
  - by intros x [l].
  - intros [[|x l]]; simpl; [done|by split].
  - intros [[|x l]]; simpl; done.
Defined.

#[global, refine] Instance Queue_laws : FrontierLaws Queue :=
  {| contents q := let 'mkQueue l := q in l |}.
Proof.
  - done.
  - intros x [l]. simpl. by rewrite Permutation_app_comm.
  - intros [[|x l]]; simpl; [done|by split].
  - intros [[|x l]]; simpl; done.
Defined.

(** ** Termination measure of the search *)

(** A board with [n] open cells has at most [9 ^ n] descendants; the
    weight [10 ^ n] pays for the board and its children. *)
Definition weight (b : Board) : nat := 10 ^ length (open_cells b).

Lemma weight_pos b : (0 < weight b)%nat.
Proof. unfold weight. apply Nat.neq_0_lt_0, Nat.pow_nonzero. lia. Qed.

Lemma children_weight (children : list Board) (n : nat) :
  Forall (λ child, length (open_cells child) = n) children →
  (length children ≤ 9)%nat →
  (sum_list_with weight children < 10 ^ S n)%nat.
Proof.
  intros Hall Hlen.
  assert (sum_list_with weight children = length children * 10 ^ n)%nat as ->.
  { induction Hall as [|child children Hc Hall IH]; [done|].
    cbn [sum_list_with length] in *. rewrite IH by lia. unfold weight. rewrite Hc. lia. }
  rewrite Nat.pow_succ_r'.
  assert (0 < 10 ^ n)%nat by (apply Nat.neq_0_lt_0, Nat.pow_nonzero; lia).
  pose proof (Nat.mul_le_mono_r _ _ (10 ^ n) Hlen). lia.
Qed.

(** What [update] makes of [candidate] for one digit [v] of the list at
    the cell [rc]. *)
Definition child_of (candidate : Board) (rc : nat * nat) (v : Z) (child : Board) : Prop :=
  update rc.1 rc.2 v candidate = Ok child
  ∧ consistent child
  ∧ S (length (open_cells child)) = length (open_cells candidate)
  ∧ ∀ r c, cell_at child r c = update_cell rc.1 rc.2 v r c <$> cell_at candidate r c.

Lemma Forall2_child_of candidate rc l k children :
  consistent candidate → cell_at candidate rc.1 rc.2 = Some (Candidates l) → k ⊆ l →
  Forall2 (λ v child, update rc.1 rc.2 v candidate = Ok child) k children →
  Forall2 (child_of candidate rc) k children.
Proof.
  intros Hcons Hl Hsub Hch.
  induction Hch as [|v child k children Hu Hch IH]; constructor.
  - destruct (update_consistent rc.1 rc.2 v candidate l Hcons Hl) as (b' & Hu' & ?).
    { apply Hsub, list_elem_of_here. }
    assert (b' = child) as -> by congruence. by split.
  - apply IH. intros v' Hv'. by apply Hsub, list_elem_of_further.
Qed.

Lemma branch_consistent {F} `{Frontier F} (candidate : Board) (frontier : F) :
  consistent candidate → goal_test candidate = false →
  ∃ rc l children,
    cell_at candidate rc.1 rc.2 = Some (Candidates l)
    ∧ Forall2 (child_of candidate rc) l children
    ∧ branch candidate frontier =
        Ok (foldl (λ frontier child, push child frontier) frontier children).
Proof.
  intros Hcons Hg.
  destruct (consistent_not_goal_open candidate Hcons Hg) as (r0 & c0 & l0 & Hl0).
  destruct (find_most_constrained_cell_spec candidate (consistent_well_formed _ Hcons))
    as (r & c & Hfind & Hsome & _).
  destruct Hsome as (l & Hl & _).
  { exists r0, c0, l0. by apply get_cell_Ok. }
  destruct (branch_pushes candidate frontier (r, c) l
              (consistent_shape _ Hcons) Hfind Hl) as (children & Hch & Hbr).
  apply get_cell_Ok in Hl. exists (r, c), l, children. split; [done|]. split; [|done].
  by apply (Forall2_child_of candidate (r, c) l l children).
Qed.

Lemma Forall2_elem_of_left {A B} (P : A → B → Prop) l k x :
  Forall2 P l k → x ∈ l → ∃ y, y ∈ k ∧ P x y.
Proof.
  intros HP [i Hi]%list_elem_of_lookup_1.
  destruct (Forall2_lookup_l _ _ _ _ _ HP Hi) as (y & Hy & Hxy).
  exists y. split; [by eapply list_elem_of_lookup_2|done].
Qed.

Lemma Forall2_elem_of_right {A B} (P : A → B → Prop) l k y :
  Forall2 P l k → y ∈ k → ∃ x, x ∈ l ∧ P x y.
Proof.
  intros HP [i Hi]%list_elem_of_lookup_1.
  destruct (Forall2_lookup_r _ _ _ _ _ HP Hi) as (x & Hx & Hxy).
  exists x. split; [by eapply list_elem_of_lookup_2|done].
Qed.

(** ** The search on boards that satisfy the invariant *)

Section search_consistent.
Context {F : Type} `{FrontierLaws F}.

Lemma contents_foldl_push (children : list Board) (frontier : F) :
  contents (foldl (λ frontier child, push child frontier) frontier children)
  ≡ₚ children ++ contents frontier.
Proof.
  revert frontier. induction children as [|child children IH]; intros frontier; [done|].
  simpl. rewrite IH, contents_push. by rewrite Permutation_middle.
Qed.

(** From a frontier of boards that satisfy the invariant the loop stops
    after finitely many iterations by returning.  A board it returns
    satisfies the invariant, passes [goal_test] and continues a board of the
    frontier; and it returns [None] only if no board of the frontier admits
    a solution. *)
Lemma search_loop_consistent (frontier : F) :
  Forall consistent (contents frontier) →
  ∃ fuel out, search_loop fuel frontier = Some (Returned out)
    ∧ match out with
      | Some r => consistent r ∧ goal_test r = true ∧ Exists (refines r) (contents frontier)
      | None => ∀ g, solution g → Forall (λ b, ¬ compatible g b) (contents frontier)
      end.
Proof.
  remember (sum_list_with weight (contents frontier)) as m eqn:Hm.
  revert frontier Hm. induction (lt_wf m) as [m _ IH]. intros frontier -> Hcons.
  destruct (is_empty frontier) eqn:He.
  { exists 1%nat, None. simpl. rewrite He. split; [done|]. intros g _.
    apply is_empty_contents in He. by rewrite He. }
  pose proof (pop_contents frontier) as Hpop.
  destruct (pop frontier) as [[candidate rest]|] eqn:Hpop'.
  2: { apply is_empty_contents in Hpop. congruence. }
  rewrite Hpop in Hcons. apply Forall_cons in Hcons as [Hcand Hrest].
  destruct (goal_test candidate) eqn:Hg.
  { exists 1%nat, (Some candidate). simpl. rewrite He, Hpop', Hg. split; [done|].
    split; [done|]. split; [done|]. rewrite Hpop. apply Exists_cons_hd, refines_refl. }
  destruct (failure_test candidate) eqn:Hf.
  - (* dropped *)
    destruct (IH (sum_list_with weight (contents rest))) with (frontier := rest)
      as (fuel & out & Hrun & Hout); [|done|done|].
    { rewrite Hpop. simpl. pose proof (weight_pos candidate). lia. }
    exists (S fuel), out. simpl. rewrite He, Hpop', Hg, Hf. simpl. split; [done|].
    destruct out as [r|].
    + destruct Hout as (? & ? & ?). rewrite Hpop. split; [done|]. split; [done|].
      by apply Exists_cons_tl.
    + intros g Hsol. rewrite Hpop. apply Forall_cons. split; [|by apply Hout].
      by apply failure_test_incompatible.
  - (* replaced by its children *)
    destruct (branch_consistent candidate rest Hcand Hg)
      as (rc & l & children & Hl & Hch & Hbr).
    set (frontier' := foldl (λ frontier child, push child frontier) rest children) in *.
    assert (contents frontier' ≡ₚ children ++ contents rest) as Hperm
      by apply contents_foldl_push.
    assert (Forall (λ child, consistent child ∧ refines child candidate
                     ∧ S (length (open_cells child)) = length (open_cells candidate))
              children) as Hchildren.
    { apply Forall_forall. intros child Hchild.
      destruct (Forall2_elem_of_right _ _ _ _ Hch Hchild) as (v & Hv & Hu & Hc & Ho & Hcell).
      split; [done|]. split; [|done]. by eapply update_refines. }
    assert (length children ≤ 9)%nat as Hlen.
    { rewrite <- (Forall2_length _ _ _ Hch).
      apply candidate_set_length. by eapply (consistent_lists candidate). }
    destruct (IH (sum_list_with weight (contents frontier'))) with (frontier := frontier')
      as (fuel & out & Hrun & Hout); [|done| |].
    { rewrite Hpop, Hperm, sum_list_with_app. simpl.
      destruct (length (open_cells candidate)) as [|n] eqn:Hn.
      - apply length_zero_iff_nil in Hn.
        assert (rc ∈ open_cells candidate) as Hin.
        { destruct rc as [r c]. apply elem_of_open_cells; [by destruct Hcand|by exists l]. }
        rewrite Hn in Hin. by apply elem_of_nil in Hin.
      - assert (sum_list_with weight children < 10 ^ S n)%nat.
        { apply children_weight; [|done]. eapply Forall_impl; [exact Hchildren|].
          simpl. intros child (_ & _ & Ho). lia. }
        assert (weight candidate = 10 ^ S n)%nat as -> by (unfold weight; by rewrite Hn).
        lia. }
    { rewrite Hperm. apply Forall_app. split; [|done].
      eapply Forall_impl; [exact Hchildren|]. by intros child (? & _). }
    exists (S fuel), out. simpl. rewrite He, Hpop', Hg, Hf. simpl. rewrite Hbr.
    split; [done|]. destruct out as [r|].
    + destruct Hout as (? & ? & Hex). split; [done|]. split; [done|].
      rewrite Hpop. rewrite Hperm in Hex. apply Exists_app in Hex as [Hex|Hex].
      * apply Exists_cons_hd. apply Exists_exists in Hex as (child & Hchild & Href).
        eapply Forall_forall in Hchildren as (_ & Href' & _); [|done].
        by eapply refines_trans.
      * by apply Exists_cons_tl.
    + intros g Hsol. specialize (Hout g Hsol). rewrite Hperm in Hout.
      apply Forall_app in Hout as [Hnone Hrest']. rewrite Hpop.
      apply Forall_cons. split; [|done]. intros Hcomp.
      (* the child for the digit of [g] would still admit [g] *)
      destruct (Hcomp rc.1 rc.2) as [_ Hin]. specialize (Hin _ Hl).
      destruct (Forall2_elem_of_left _ _ _ _ Hch Hin) as (child & Hchild & Hu & Hc & Ho & Hcell).
      eapply Forall_forall in Hnone; [|done]. apply Hnone.
      eapply (update_compatible g rc.1 rc.2 candidate child); try done.
      by destruct Hcand.
Qed.
End search_consistent.

(** More iterations do not change an outcome. *)
Lemma search_loop_mono {F} `{Frontier F} (fuel fuel' : nat) (frontier : F) out :
  search_loop fuel frontier = Some out → (fuel ≤ fuel')%nat →
  search_loop fuel' frontier = Some out.
Proof.
  revert fuel' frontier. induction fuel as [|fuel IH]; intros fuel' frontier; [done|].
  intros Hrun Hle. destruct fuel' as [|fuel']; [lia|]. simpl in *.
  destruct (is_empty frontier); [done|].
  destruct (pop frontier) as [[candidate rest]|]; [|done].
  destruct (goal_test candidate); [done|].
  destruct (failure_test candidate); simpl in *; [apply IH; [done|lia]|].
  destruct (branch candidate rest); [apply IH; [done|lia]|done].
Qed.

Lemma search_loop_agree {F} `{Frontier F} (fuel fuel' : nat) (frontier : F) out out' :
  search_loop fuel frontier = Some out → search_loop fuel' frontier = Some out' →
  out = out'.
Proof.
  intros Hrun Hrun'. destruct (Nat.le_ge_cases fuel fuel') as [Hle|Hle].
  - rewrite (search_loop_mono _ _ _ _ Hrun Hle) in Hrun'. congruence.
  - rewrite (search_loop_mono _ _ _ _ Hrun' Hle) in Hrun. congruence.
Qed.

(** The search from one board that satisfies the invariant. *)
Lemma search_consistent {F} `{FrontierLaws F} (state : Board) :
  consistent state →
  ∃ fuel out, search (F := F) fuel state = Some (Returned out)
    ∧ match out with
      | Some r => consistent r ∧ goal_test r = true ∧ refines r state
      | None => ∀ g, solution g → ¬ compatible g state
      end.
Proof.
  intros Hcons. unfold search.
  assert (contents (push state (new : F)) ≡ₚ [state]) as Hperm
    by (by rewrite contents_push, contents_new).
  destruct (search_loop_consistent (push state new)) as (fuel & out & Hrun & Hout).
  { rewrite Hperm. by apply Forall_singleton. }
  exists fuel, out. split; [done|]. destruct out as [r|].
  - destruct Hout as (? & ? & Hex). rewrite Hperm in Hex.
    by apply Exists_cons in Hex as [?|?%Exists_nil].
  - intros g Hsol. specialize (Hout g Hsol). rewrite Hperm in Hout.
    by apply Forall_cons in Hout as [? _].
Qed.

(** ** Seeding a puzzle *)

(** A puzzle gives at most one clue per cell of the grid. *)
Definition puzzle (clues : list (nat * nat * Z)) : Prop :=
  Forall on_grid clues ∧ NoDup (clues.*1).

(** The grid [g] has the digits of the clues. *)
Definition agrees (g : nat → nat → Z) (clues : list (nat * nat * Z)) : Prop :=
  Forall (λ m, g m.1.1 m.1.2 = m.2) clues.

(** The board holds the digits of the clues. *)
Definition holds (b : Board) (clues : list (nat * nat * Z)) : Prop :=
  Forall (λ m, cell_at b m.1.1 m.1.2 = Some (Assigned m.2)) clues.

Lemma Board_init_consistent : consistent Board_init.
Proof.
  split.
  - apply Board_init_shape9.
  - vm_compute. reflexivity.
  - by intros r c w ?%Board_init_cells.
  - apply Board_init_well_formed.
  - by intros r c w r' c' w' _ ?%Board_init_cells.
  - by intros r c w r' c' l _ ?%Board_init_cells.
Qed.

Lemma Board_init_compatible g : solution g → compatible g Board_init.
Proof.
  intros [Hdig _] r c. split; [by intros w ?%Board_init_cells|].
  intros l Hl. assert ((r < 9)%nat ∧ (c < 9)%nat) as [Hr Hc].
  { apply (shape9_cell_at Board_init r c Board_init_shape9). by eexists. }
  apply Board_init_cells in Hl as [= ->]. specialize (Hdig r c Hr Hc).
  unfold range_Z. simpl.
  assert (g r c = 1 ∨ g r c = 2 ∨ g r c = 3 ∨ g r c = 4 ∨ g r c = 5 ∨ g r c = 6
          ∨ g r c = 7 ∨ g r c = 8 ∨ g r c = 9) as Hcases by lia.
  rewrite !elem_of_cons. naive_solver.
Qed.

Lemma holds_refines b b' clues : holds b clues → refines b' b → holds b' clues.
Proof.
  intros Hh Href. eapply Forall_impl; [exact Hh|]. intros m Hm. by apply Href.
Qed.

Lemma play_clues g clues b :
  solution g → agrees g clues → puzzle clues →
  consistent b → compatible g b →
  (∀ m, m ∈ clues → ∃ l, cell_at b m.1.1 m.1.2 = Some (Candidates l)) →
  ∃ b', play clues b = Ok b' ∧ consistent b' ∧ compatible g b'
    ∧ refines b' b ∧ holds b' clues.
Proof.
  intros Hsol Hag [Hgrid Hnd]. revert b.
  induction clues as [|[[r c] v] clues IH]; intros b Hcons Hcomp Hopen.
  { exists b. split; [done|]. split; [done|]. split; [done|].
    split; [apply refines_refl|constructor]. }
  apply Forall_cons in Hag as [Hv Hag]. apply Forall_cons in Hgrid as [_ Hgrid].
  rewrite fmap_cons in Hnd. apply NoDup_cons in Hnd as [Hfresh Hnd]. simpl in *.
  destruct (Hopen (r, c, v)) as [l Hl]; [apply list_elem_of_here|]. simpl in Hl.
  assert (v ∈ l) as Hin by (rewrite <- Hv; by apply Hcomp).
  destruct (update_consistent r c v b l Hcons Hl Hin) as (b1 & Hu & Hcons1 & _ & Hcell).
  assert (refines b1 b) as Href1 by (by eapply update_refines).
  destruct (IH Hag Hgrid Hnd b1) as (b' & Hplay & Hcons' & Hcomp' & Href' & Hholds');
    [done| | |].
  { rewrite <- Hv in Hcell. eapply update_compatible; try done.
    by destruct Hcons. }
  { intros [[r' c'] v'] Hm. destruct (Hopen (r', c', v')) as [l' Hl'];
      [by apply list_elem_of_further|]. simpl in *.
    rewrite Hcell, Hl'. simpl. eexists. rewrite update_cell_Candidates; [done|].
    intros [= -> ->]. apply Hfresh. apply list_elem_of_fmap. by exists (r, c, v'). }
  exists b'. unfold play in *. simpl. rewrite Hu. simpl. split; [done|].
  split; [done|]. split; [done|]. split; [by eapply refines_trans|].
  constructor; [|done]. simpl. apply Href'. rewrite Hcell, Hl. simpl.
  by rewrite update_cell_target.
Qed.

(** A sequence of moves each of which places a digit that its cell still
    lists. *)
Inductive legal : list (nat * nat * Z) → Board → Prop :=
  | legal_nil b : legal [] b
  | legal_cons r c v moves b l b' :
      cell_at b r c = Some (Candidates l) → v ∈ l →
      update r c v b = Ok b' → legal moves b' →
      legal ((r, c, v) :: moves) b.

Lemma legal_consistent moves b b' :
  legal moves b → consistent b → play moves b = Ok b' → consistent b' ∧ refines b' b.
Proof.
  intros Hlegal. revert b'.
  induction Hlegal as [b|r c v moves b l b1 Hl Hv Hu Hlegal IH]; intros b' Hcons Hplay.
  - unfold play in Hplay. simpl in Hplay. injection Hplay as <-.
    split; [done|apply refines_refl].
  - unfold play in Hplay. simpl in Hplay. rewrite Hu in Hplay. simpl in Hplay.
    destruct (update_consistent r c v b l Hcons Hl Hv) as (b2 & Hu2 & Hcons2 & _ & Hcell).
    assert (b2 = b1) as -> by congruence.
    destruct (IH b' Hcons2 Hplay) as [Hcons' Href']. split; [done|].
    eapply refines_trans; [done|]. by eapply update_refines.
Qed.

Lemma first_moves_legal : legal first_moves Board_init.
Proof.
  unfold first_moves, mv.
  repeat (eapply legal_cons;
    [vm_compute; reflexivity
    |apply (bool_decide_unpack _); vm_compute; exact I
    |vm_compute; reflexivity|]).
  apply legal_nil.
Qed.

Lemma first_board_consistent : consistent first_board.
Proof.
  eapply legal_consistent;
    [apply first_moves_legal|apply Board_init_consistent|apply first_board_play].
Qed.

Lemma solved_refines_compatible r state :
  shape9 state → solved r → refines r state →
  ∃ g, solution g ∧ compatible g state.
Proof.
  intros Hs (g & Hsol & Hcells) Href. exists g. split; [done|]. intros row col.
  destruct (Href row col) as [Ha Hc]. split.
  - intros w Hw. assert ((row < 9)%nat ∧ (col < 9)%nat) as [??].
    { apply (shape9_cell_at state row col Hs). by eexists. }
    apply Ha in Hw. rewrite Hcells in Hw by done. congruence.
  - intros l Hl. assert ((row < 9)%nat ∧ (col < 9)%nat) as [??].
    { apply (shape9_cell_at state row col Hs). by eexists. }
    destruct (Hc l Hl) as [(w & Hw & Hin)|(l' & Hl' & _)];
      rewrite Hcells in * by done; congruence.
Qed.

(** X1: on a board that satisfies the invariant of the class (9 x 9 grid,
    counter equal to the number of placed digits, candidate lists sets of
    digits, no placed digit repeated or still listed among its peers) [DFS]
    and [BFS] stop after finitely many iterations and return, a board or
    [None]: no exception escapes. *)
Theorem search_returns_on_consistent (state : Board) :
  consistent state →
  ∃ fuel_d fuel_b out_d out_b,
    DFS fuel_d state = Some (Returned out_d) ∧ BFS fuel_b state = Some (Returned out_b).
Proof.
  intros Hcons.
  destruct (search_consistent (F := Stack) state Hcons) as (fd & od & Hd & _).
  destruct (search_consistent (F := Queue) state Hcons) as (fb & ob & Hb & _).
  by exists fd, fb, od, ob.
Qed.

Lemma search_returns_on_consistent_witness :
  ∃ fuel_d fuel_b out_d out_b,
    DFS fuel_d first_board = Some (Returned out_d)
    ∧ BFS fuel_b first_board = Some (Returned out_b).
Proof. apply (search_returns_on_consistent first_board), first_board_consistent. Defined.

(** X2: a board that [DFS] or [BFS] returns from a board satisfying the
    invariant is a completed Sudoku: all 81 cells hold a digit 1..9, no
    digit twice in a row, column or block; it keeps every digit the input
    had placed and fills each open cell with a digit of that cell's list. *)
Theorem search_result_solved (fuel : nat) (state r : Board) :
  consistent state →
  DFS fuel state = Some (Returned (Some r)) ∨ BFS fuel state = Some (Returned (Some r)) →
  solved r ∧ refines r state.
Proof.
  intros Hcons [Hrun|Hrun].
  - destruct (search_consistent (F := Stack) state Hcons) as (fuel' & out & Hrun' & Hout).
    pose proof (search_loop_agree _ _ _ _ _ Hrun Hrun') as [= <-].
    destruct Hout as (? & ? & ?). split; [by apply consistent_goal_solved|done].
  - destruct (search_consistent (F := Queue) state Hcons) as (fuel' & out & Hrun' & Hout).
    pose proof (search_loop_agree _ _ _ _ _ Hrun Hrun') as [= <-].
    destruct Hout as (? & ? & ?). split; [by apply consistent_goal_solved|done].
Qed.

Lemma search_result_solved_witness : solved first_solution ∧ refines first_solution first_board.
Proof.
  apply (search_result_solved 100 first_board first_solution first_board_consistent).
  left. vm_compute. reflexivity.
Defined.

(** X3: from a board satisfying the invariant, [DFS] (and [BFS] alike)
    returns [None] exactly when no completed Sudoku fits the board, that
    is, agrees with its placed digits and takes each open cell's digit from
    the cell's list. *)
Theorem search_None_iff_unsolvable (state : Board) :
  consistent state →
  ((∃ fuel, DFS fuel state = Some (Returned None))
     ↔ ∀ g, solution g → ¬ compatible g state)
  ∧ ((∃ fuel, BFS fuel state = Some (Returned None))
     ↔ ∀ g, solution g → ¬ compatible g state).
Proof.
  intros Hcons. split.
  - destruct (search_consistent (F := Stack) state Hcons) as (fuel' & out & Hrun' & Hout).
    split.
    + intros [fuel Hrun]. pose proof (search_loop_agree _ _ _ _ _ Hrun Hrun') as [= <-].
      exact Hout.
    + intros Hnone. destruct out as [r|]; [|by exists fuel'].
      destruct Hout as (Hr & Hg & Href).
      destruct (solved_refines_compatible r state) as (g & Hsol & Hcomp);
        [by destruct Hcons|by apply consistent_goal_solved|done|].
      by destruct (Hnone g Hsol).
  - destruct (search_consistent (F := Queue) state Hcons) as (fuel' & out & Hrun' & Hout).
    split.
    + intros [fuel Hrun]. pose proof (search_loop_agree _ _ _ _ _ Hrun Hrun') as [= <-].
      exact Hout.
    + intros Hnone. destruct out as [r|]; [|by exists fuel'].
      destruct Hout as (Hr & Hg & Href).
      destruct (solved_refines_compatible r state) as (g & Hsol & Hcomp);
        [by destruct Hcons|by apply consistent_goal_solved|done|].
      by destruct (Hnone g Hsol).
Qed.

Lemma search_None_iff_unsolvable_witness :
  ((∃ fuel, DFS fuel first_board = Some (Returned None))
     ↔ ∀ g, solution g → ¬ compatible g first_board)
  ∧ ((∃ fuel, BFS fuel first_board = Some (Returned None))
     ↔ ∀ g, solution g → ¬ compatible g first_board).
Proof. apply (search_None_iff_unsolvable first_board), first_board_consistent. Defined.

Lemma solved_holds_agrees b clues g :
  Forall on_grid clues → holds b clues →
  (∀ r c, (r < 9)%nat → (c < 9)%nat → cell_at b r c = Some (Assigned (g r c))) →
  agrees g clues.
Proof.
  intros Hgrid Hholds Hcells. unfold agrees. apply Forall_forall. intros [[r c] v] Hm.
  eapply Forall_forall in Hgrid as [Hr Hc]; [|done].
  eapply Forall_forall in Hholds; [|done]. simpl in *.
  rewrite Hcells in Hholds by done. congruence.
Qed.

Lemma solved_unique_eq b1 b2 clues :
  Forall on_grid clues →
  (∀ g g', solution g → agrees g clues → solution g' → agrees g' clues →
     ∀ r c, (r < 9)%nat → (c < 9)%nat → g r c = g' r c) →
  shape9 b1 → shape9 b2 → goal_test b1 = true → goal_test b2 = true →
  solved b1 → solved b2 → holds b1 clues → holds b2 clues →
  b1 = b2.
Proof.
  intros Hgrid Huniq Hs1 Hs2 Hg1%Z.eqb_eq Hg2%Z.eqb_eq
    (g1 & Hsol1 & Hc1) (g2 & Hsol2 & Hc2) Hh1 Hh2.
  apply Board_ext; [congruence|by rewrite Hs1, Hs2|]. intros r c.
  destruct (decide ((r < 9)%nat ∧ (c < 9)%nat)) as [[Hr Hc]|Hout].
  - rewrite Hc1, Hc2 by done. do 2 f_equal.
    apply (Huniq g1 g2); eauto using solved_holds_agrees.
  - destruct (cell_at b1 r c) eqn:H1.
    { destruct Hout. apply (shape9_cell_at b1 r c Hs1). by eexists. }
    destruct (cell_at b2 r c) eqn:H2; [|done].
    destruct Hout. apply (shape9_cell_at b2 r c Hs2). by eexists.
Qed.

(** X4: when the clues of a puzzle (at most one per cell, on the grid)
    are seeded into a new board with [update] and the puzzle has a
    solution, the seeding succeeds and [DFS] and [BFS] each return a board
    that passes [goal_test], is a completed Sudoku and holds the clues; if
    the puzzle has only one solution, the two boards are equal. *)
Theorem seeded_search_solves (clues : list (nat * nat * Z)) :
  puzzle clues → (∃ g, solution g ∧ agrees g clues) →
  ∃ seed fuel_d fuel_b r_d r_b,
    play clues Board_init = Ok seed
    ∧ DFS fuel_d seed = Some (Returned (Some r_d))
    ∧ BFS fuel_b seed = Some (Returned (Some r_b))
    ∧ (goal_test r_d = true ∧ solved r_d ∧ holds r_d clues)
    ∧ (goal_test r_b = true ∧ solved r_b ∧ holds r_b clues)
    ∧ ((∀ g g', solution g → agrees g clues → solution g' → agrees g' clues →
          ∀ r c, (r < 9)%nat → (c < 9)%nat → g r c = g' r c) →
       r_d = r_b).
Proof.
  intros Hpuzzle (g & Hsol & Hag).
  destruct (play_clues g clues Board_init Hsol Hag Hpuzzle
              Board_init_consistent (Board_init_compatible g Hsol))
    as (seed & Hplay & Hcons & Hcomp & _ & Hholds).
  { intros [[r c] v] Hm. destruct Hpuzzle as [Hgrid _].
    eapply Forall_forall in Hgrid as [Hr Hc]; [|done]. simpl in *.
    eexists. by apply Board_init_cell_at. }
  destruct (search_consistent (F := Stack) seed Hcons) as (fd & od & Hd & Hod).
  destruct (search_consistent (F := Queue) seed Hcons) as (fb & ob & Hb & Hob).
  destruct od as [rd|]; [|by destruct (Hod g Hsol)].
  destruct ob as [rb|]; [|by destruct (Hob g Hsol)].
  destruct Hod as (Hcd & Hgd & Hrd), Hob as (Hcb & Hgb & Hrb).
  exists seed, fd, fb, rd, rb. split; [done|]. split; [done|]. split; [done|].
  assert (holds rd clues) by exact (holds_refines seed rd clues Hholds Hrd).
  assert (holds rb clues) by exact (holds_refines seed rb clues Hholds Hrb).
  split; [by auto using consistent_goal_solved|].
  split; [by auto using consistent_goal_solved|].
  intros Huniq. destruct Hpuzzle as [Hgrid _].
  apply (solved_unique_eq rd rb clues); auto using consistent_goal_solved.
  - by destruct Hcd.
  - by destruct Hcb.
Qed.

Lemma first_moves_puzzle : puzzle first_moves.
Proof.
  split.
  - unfold first_moves, on_grid, mv. repeat (apply Forall_cons; split; [simpl; lia|]).
    apply Forall_nil_2.
  - apply (bool_decide_unpack _). vm_compute. exact I.
Qed.

Lemma first_moves_solvable : ∃ g, solution g ∧ agrees g first_moves.
Proof.
  assert (solved first_solution ∧ refines first_solution first_board) as [Hsolved Href].
  { destruct (search_consistent (F := Stack) first_board first_board_consistent)
      as (fuel & out & Hrun & Hout).
    assert (search (F := Stack) 100 first_board = Some (Returned (Some first_solution)))
      as Hrun' by (vm_compute; reflexivity).
    pose proof (search_loop_agree _ _ _ _ _ Hrun Hrun') as [= ->].
    destruct Hout as (? & ? & ?). split; [by apply consistent_goal_solved|done]. }
  destruct Hsolved as (g & Hsol & Hcells). exists g. split; [done|].
  apply (solved_holds_agrees first_solution); [apply first_moves_puzzle| |done].
  eapply holds_refines; [|exact Href].
  unfold holds, first_moves, mv. repeat (apply Forall_cons; split; [reflexivity|]).
  apply Forall_nil_2.
Qed.

Lemma seeded_search_solves_witness :
  ∃ seed fuel_d fuel_b r_d r_b,
    play first_moves Board_init = Ok seed
    ∧ DFS fuel_d seed = Some (Returned (Some r_d))
    ∧ BFS fuel_b seed = Some (Returned (Some r_b))
    ∧ (goal_test r_d = true ∧ solved r_d ∧ holds r_d first_moves)
    ∧ (goal_test r_b = true ∧ solved r_b ∧ holds r_b first_moves)
    ∧ ((∀ g g', solution g → agrees g first_moves → solution g' → agrees g' first_moves →
          ∀ r c, (r < 9)%nat → (c < 9)%nat → g r c = g' r c) →
       r_d = r_b).
Proof.
  apply (seeded_search_solves first_moves);
    [apply first_moves_puzzle|apply first_moves_solvable].
Defined.

(** ** The block of a cell *)

(** X5: [subgrid_coordinates row col] lists nine distinct coordinates,
    exactly those whose row and column have the same quotient by 3 as
    [row] and [col]; [(row, col)] is among them, and for a cell of the grid
    all nine are on the grid. *)
Theorem subgrid_coordinates_block (row col : nat) :
  length (subgrid_coordinates row col) = 9%nat
  ∧ NoDup (subgrid_coordinates row col)
  ∧ (∀ r c, (r, c) ∈ subgrid_coordinates row col
            ↔ (r / 3 = row / 3)%nat ∧ (c / 3 = col / 3)%nat)
  ∧ (row, col) ∈ subgrid_coordinates row col
  ∧ ((row < 9)%nat → (col < 9)%nat →
     ∀ r c, (r, c) ∈ subgrid_coordinates row col → (r < 9)%nat ∧ (c < 9)%nat).
Proof.
  split; [done|]. split; [apply NoDup_subgrid_coordinates|].
  split; [intros r c; apply elem_of_subgrid_coordinates|].
  split; [by apply elem_of_subgrid_coordinates|].
  intros Hr Hc r c [??]%elem_of_subgrid_coordinates. lia.
Qed.

(** ** More on [update] *)

(** X6: on a 9 x 9 board, [update] with a row or a column index of 9 or
    more raises [IndexError]. *)
Theorem update_off_grid_raises (row column : nat) (assignment : Z) (b : Board) :
  shape9 b → (9 ≤ row)%nat ∨ (9 ≤ column)%nat →
  update row column assignment b = Raise IndexError.
Proof.
  intros Hs Hoff. unfold update. rewrite set_cell_Raise; [done|].
  destruct (cell_at b row column) eqn:Hx; [|done].
  assert ((row < 9)%nat ∧ (column < 9)%nat) by (apply (shape9_cell_at b); [done|by eexists]).
  lia.
Qed.

Lemma update_off_grid_raises_witness : update 9 0 5 Board_init = Raise IndexError.
Proof. apply (update_off_grid_raises 9 0 5 Board_init Board_init_shape9). left. lia. Defined.

(** X7: what [update row column assignment] does to a 9 x 9 board and
    what it leaves alone.  The counter grows by one and the grid stays
    9 x 9; the target cell holds the digit; a cell outside the target's row,
    column and block is unchanged; and a candidate list anywhere else stays
    a candidate list, loses nothing but copies of the digit placed, and
    keeps its order. *)
Theorem update_frame (row column : nat) (assignment : Z) (b : Board) :
  shape9 b → (row < 9)%nat → (column < 9)%nat →
  ∃ b', update row column assignment b = Ok b'
    ∧ num_nums_placed b' = num_nums_placed b + 1
    ∧ shape9 b'
    ∧ get_cell b' row column = Ok (Assigned assignment)
    ∧ (∀ r c, ¬ shares_unit row column r c → get_cell b' r c = get_cell b r c)
    ∧ (∀ r c l, (r, c) ≠ (row, column) → get_cell b r c = Ok (Candidates l) →
         ∃ l', get_cell b' r c = Ok (Candidates l')
           ∧ l' `sublist_of` l
           ∧ ∀ x, x ≠ assignment → x ∈ l → x ∈ l').
Proof.
  intros Hs Hr Hc.
  destruct (update_spec row column assignment b Hs Hr Hc) as (b' & Hu & Hn & Hs' & Hcell).
  exists b'. do 3 (split; [done|]). split; [|split].
  - apply get_cell_Ok. rewrite Hcell.
    destruct (proj2 (shape9_cell_at b row column Hs) (conj Hr Hc)) as [x ->].
    simpl. by rewrite update_cell_target.
  - intros r c Hn'. rewrite !get_cell_cell_at, Hcell.
    destruct (cell_at b r c) as [x|]; [|done]. simpl.
    rewrite update_cell_nonpeer; [done| |done].
    intros [= -> ->]. apply Hn'. by left.
  - intros r c l Hne Hl%get_cell_Ok. exists (update_list row column assignment r c l).
    split; [|split].
    + apply get_cell_Ok. rewrite Hcell, Hl. simpl. by rewrite update_cell_Candidates.
    + apply update_list_sublist.
    + intros x. apply update_list_other.
Qed.

Lemma update_frame_witness :
  ∃ b', update 4 4 5 first_board = Ok b'
    ∧ num_nums_placed b' = num_nums_placed first_board + 1
    ∧ shape9 b'
    ∧ get_cell b' 4 4 = Ok (Assigned 5)
    ∧ (∀ r c, ¬ shares_unit 4 4 r c → get_cell b' r c = get_cell first_board r c)
    ∧ (∀ r c l, (r, c) ≠ (4%nat, 4%nat) → get_cell first_board r c = Ok (Candidates l) →
         ∃ l', get_cell b' r c = Ok (Candidates l')
           ∧ l' `sublist_of` l
           ∧ ∀ x, x ≠ 5 → x ∈ l → x ∈ l').
Proof.
  apply (update_frame 4 4 5 first_board); [apply first_board_well_formed|lia|lia].
Defined.

Lemma update_list_twice row column v r' c' l :
  NoDup l →
  update_list row column v r' c' (update_list row column v r' c' l)
  = update_list row column v r' c' l.
Proof.
  intros Hnd. destruct (decide (shares_unit row column r' c')) as [Hsh|Hsh].
  - pose proof (update_list_peer row column v r' c' l Hnd Hsh) as Hv.
    generalize dependent (update_list row column v r' c' l). intros k Hk.
    unfold update_list. repeat case_decide; by rewrite ?(list_remove_absent v k Hk).
  - by rewrite !update_list_nonpeer.
Qed.

(** X8: [update] does not check whether the cell already holds a digit.
    On a board of the data model, calling it a second time with the same
    cell and digit succeeds, leaves the grid as the first call left it and
    counts the cell a second time. *)
Theorem update_twice_counts_twice (row column : nat) (assignment : Z) (b : Board) :
  well_formed b → (row < 9)%nat → (column < 9)%nat →
  ∃ b1 b2, update row column assignment b = Ok b1
    ∧ update row column assignment b1 = Ok b2
    ∧ rows b2 = rows b1
    ∧ num_nums_placed b2 = num_nums_placed b + 2.
Proof.
  intros [Hs Hwf] Hr Hc.
  destruct (update_spec row column assignment b Hs Hr Hc) as (b1 & Hu1 & Hn1 & Hs1 & Hc1).
  destruct (update_spec row column assignment b1 Hs1 Hr Hc) as (b2 & Hu2 & Hn2 & Hs2 & Hc2).
  exists b1, b2. split; [done|]. split; [done|]. split; [|lia].
  apply rows_ext.
  - change (dims b2 = dims b1). by rewrite Hs1, Hs2.
  - intros r c. change (cell_at b2 r c = cell_at b1 r c). rewrite Hc2, Hc1.
    destruct (cell_at b r c) as [x|] eqn:Hx; [|done]. simpl. f_equal.
    destruct (update_cell_cases row column assignment r c x)
      as [[[= -> ->] ->]|[Hne [(w & -> & ->)|(l & -> & ->)]]].
    + apply update_cell_target.
    + by apply update_cell_Assigned.
    + rewrite update_cell_Candidates by done. f_equal.
      apply update_list_twice. by apply (Hwf r c).
Qed.

Lemma update_twice_counts_twice_witness :
  ∃ b1 b2, update 4 4 5 first_board = Ok b1
    ∧ update 4 4 5 b1 = Ok b2
    ∧ rows b2 = rows b1
    ∧ num_nums_placed b2 = num_nums_placed first_board + 2.
Proof.
  apply (update_twice_counts_twice 4 4 5 first_board);
    [apply first_board_well_formed|lia|lia].
Defined.

Lemma list_remove_comm (a b : Z) (l : list Z) :
  list_remove a (list_remove b l) = list_remove b (list_remove a l).
Proof.
  induction l as [|y l IH]; simpl; [done|].
  destruct (y =? b) eqn:Hb, (y =? a) eqn:Ha; simpl; rewrite ?Hb, ?Ha; try done.
  - apply Z.eqb_eq in Hb, Ha. by subst.
  - by rewrite IH.
Qed.

Lemma update_list_comm r1 c1 v1 r2 c2 v2 r c l :
  update_list r2 c2 v2 r c (update_list r1 c1 v1 r c l)
  = update_list r1 c1 v1 r c (update_list r2 c2 v2 r c l).
Proof.
  unfold update_list. repeat case_decide;
    repeat rewrite (list_remove_comm v1 v2); reflexivity.
Qed.

Lemma update_cell_comm r1 c1 v1 r2 c2 v2 r c x :
  (r1, c1) ≠ (r2, c2) →
  update_cell r2 c2 v2 r c (update_cell r1 c1 v1 r c x)
  = update_cell r1 c1 v1 r c (update_cell r2 c2 v2 r c x).
Proof.
  intros Hne.
  destruct (decide ((r, c) = (r1, c1))) as [[= -> ->]|Hn1].
  { rewrite !update_cell_target. by apply update_cell_Assigned. }
  destruct (decide ((r, c) = (r2, c2))) as [[= -> ->]|Hn2].
  { rewrite !update_cell_target. symmetry. by apply update_cell_Assigned. }
  destruct x as [w|l].
  - by rewrite !update_cell_Assigned.
  - rewrite !update_cell_Candidates by done. f_equal. apply update_list_comm.
Qed.

Lemma update_comm r1 c1 v1 r2 c2 v2 b :
  shape9 b → (r1 < 9)%nat → (c1 < 9)%nat → (r2 < 9)%nat → (c2 < 9)%nat →
  (r1, c1) ≠ (r2, c2) →
  (b1 ← update r1 c1 v1 b; update r2 c2 v2 b1)
  = (b2 ← update r2 c2 v2 b; update r1 c1 v1 b2).
Proof.
  intros Hs Hr1 Hc1 Hr2 Hc2 Hne.
  destruct (update_spec r1 c1 v1 b Hs Hr1 Hc1) as (b1 & -> & Hn1 & Hs1 & Hcell1).
  destruct (update_spec r2 c2 v2 b Hs Hr2 Hc2) as (b2 & -> & Hn2 & Hs2 & Hcell2).
  cbn [mbind result_bind].
  destruct (update_spec r2 c2 v2 b1 Hs1 Hr2 Hc2) as (b12 & -> & Hn12 & Hs12 & Hcell12).
  destruct (update_spec r1 c1 v1 b2 Hs2 Hr1 Hc1) as (b21 & -> & Hn21 & Hs21 & Hcell21).
  f_equal. apply Board_ext; [lia|by rewrite Hs12, Hs21|].
  intros r c. rewrite Hcell12, Hcell21, Hcell1, Hcell2.
  destruct (cell_at b r c) as [x|]; [|done]. simpl. f_equal. by apply update_cell_comm.
Qed.

Lemma play_shape9 moves b b' : shape9 b → play moves b = Ok b' → shape9 b'.
Proof.
  apply (play_invariant shape9). intros r c v b0 b1 Hs Hu.
  destruct (update_Ok_range _ _ _ _ _ Hs Hu) as [Hr Hc].
  destruct (update_spec r c v b0 Hs Hr Hc) as (b2 & Hu2 & _ & Hs2 & _). congruence.
Qed.

(** X9: the order in which clues are placed does not matter.  On a 9 x 9
    board, two sequences of [update] calls that are rearrangements of each
    other, with grid coordinates and no cell named twice, end in the same
    board. *)
Theorem play_order_irrelevant (moves moves' : list (nat * nat * Z)) (b : Board) :
  shape9 b → moves ≡ₚ moves' → Forall on_grid moves → NoDup (moves.*1) →
  play moves b = play moves' b.
Proof.
  intros Hs Hperm. revert b Hs.
  induction Hperm as [|m ms ms' Hperm IH|m1 m2 ms|ms1 ms2 ms3 H12 IH12 H23 IH23];
    intros b Hs Hgrid Hnd.
  - done.
  - apply Forall_cons in Hgrid as [[Hr Hc] Hgrid].
    rewrite fmap_cons in Hnd. apply NoDup_cons in Hnd as [_ Hnd].
    unfold play in *. simpl.
    destruct (update_spec m.1.1 m.1.2 m.2 b Hs Hr Hc) as (b1 & -> & _ & Hs1 & _).
    simpl. by apply IH.
  - apply Forall_cons in Hgrid as [[Hr2 Hc2] Hgrid].
    apply Forall_cons in Hgrid as [[Hr1 Hc1] Hgrid].
    rewrite !fmap_cons in Hnd. apply NoDup_cons in Hnd as [Hne _].
    apply not_elem_of_cons in Hne as [Hne _].
    pose proof (update_comm m1.1.1 m1.1.2 m1.2 m2.1.1 m2.1.2 m2.2 b Hs Hr1 Hc1 Hr2 Hc2)
      as Hcomm.
    unfold play. simpl.
    destruct (update m1.1.1 m1.1.2 m1.2 b) as [b1|] eqn:Hu1,
             (update m2.1.1 m2.1.2 m2.2 b) as [b2|] eqn:Hu2; simpl in *.
    + rewrite <- Hcomm.
      * by destruct (update m2.1.1 m2.1.2 m2.2 b1).
      * destruct m1 as [[??]?], m2 as [[??]?]. simpl in *. congruence.
    + destruct (update_spec m2.1.1 m2.1.2 m2.2 b Hs Hr2 Hc2) as (? & ? & _). congruence.
    + destruct (update_spec m1.1.1 m1.1.2 m1.2 b Hs Hr1 Hc1) as (? & ? & _). congruence.
    + destruct (update_spec m1.1.1 m1.1.2 m1.2 b Hs Hr1 Hc1) as (? & ? & _). congruence.
  - rewrite IH12 by done. apply IH23; [done|by rewrite <- H12|by rewrite <- H12].
Qed.

Lemma play_order_irrelevant_witness :
  play first_moves Board_init = play (reverse first_moves) Board_init.
Proof.
  apply (play_order_irrelevant first_moves (reverse first_moves) Board_init).
  - apply Board_init_shape9.
  - by rewrite reverse_Permutation.
  - apply first_moves_puzzle.
  - apply first_moves_puzzle.
Defined.

(** ** [remove_if_exists] *)

(** X10: [remove_if_exists] leaves an [int] alone, leaves a list alone
    when the element is not in it, and otherwise takes out the first
    occurrence only: everything before and after it stays, in order. *)
Theorem remove_if_exists_first_occurrence (elem : Z) :
  (∀ w, remove_if_exists (Assigned w) elem = Assigned w)
  ∧ (∀ l, elem ∉ l → remove_if_exists (Candidates l) elem = Candidates l)
  ∧ (∀ l1 l2, elem ∉ l1 →
       remove_if_exists (Candidates (l1 ++ elem :: l2)) elem = Candidates (l1 ++ l2)).
Proof.
  split; [done|]. split.
  - intros l Hl. by rewrite remove_if_exists_Candidates, list_remove_absent.
  - intros l1 l2 Hl1. rewrite remove_if_exists_Candidates. f_equal.
    induction l1 as [|y l1 IH]; simpl.
    + by rewrite Z.eqb_refl.
    + apply not_elem_of_cons in Hl1 as [Hne Hl1].
      destruct (Z.eqb_spec y elem); [congruence|]. by rewrite IH.
Qed.

(** ** A full board whose counter is not 81 *)

Lemma search_loop_raises {F} `{Frontier F} (fuel : nat) (frontier rest : F) candidate e :
  is_empty frontier = false → pop frontier = Some (candidate, rest) →
  goal_test candidate = false → failure_test candidate = false →
  branch candidate rest = Raise e →
  search_loop (S fuel) frontier = Some (Raised e).
Proof. intros He Hpop Hg Hf Hb. simpl. by rewrite He, Hpop, Hg, Hf, Hb. Qed.

Lemma branch_full_board {F} `{Frontier F} (b : Board) (frontier : F) :
  shape9 b →
  (∀ r c, (r < 9)%nat → (c < 9)%nat → ∃ w, cell_at b r c = Some (Assigned w)) →
  failure_test b = false ∧ branch b frontier = Raise TypeError.
Proof.
  intros Hs Hfull.
  assert (∀ r c l, cell_at b r c ≠ Some (Candidates l)) as Hnone.
  { intros r c l Hl. assert ((r < 9)%nat ∧ (c < 9)%nat) as [Hr Hc].
    { apply (shape9_cell_at b r c Hs). by eexists. }
    destruct (Hfull r c Hr Hc) as [w Hw]. congruence. }
  split.
  - destruct (failure_test b) eqn:Hf; [|done].
    apply failure_test_cell in Hf as (r & c & Hrc). by destruct (Hnone r c []).
  - destruct (find_most_constrained_cell_spec b) as (r & c & Hfind & _ & Hzero).
    { split; [done|]. intros r c l Hl. by destruct (Hnone r c l). }
    rewrite Hzero in Hfind.
    2: { intros r0 c0 l0 Hl%get_cell_Ok. by destruct (Hnone r0 c0 l0). }
    unfold branch. rewrite Hfind. cbn [mbind result_bind fst snd].
    destruct (Hfull 0%nat 0%nat) as [w Hw]; [lia..|].
    by rewrite (proj2 (get_cell_Ok _ _ _ _) Hw).
Qed.

(** X11: the drivers trust the counter.  On a 9 x 9 board on which every
    cell holds a digit but whose counter is not 81 (as after a cell was
    counted twice), [goal_test] fails, and iterating over the digit at
    [(0, 0)] makes [DFS] and [BFS] raise [TypeError]. *)
Theorem search_full_board_wrong_counter (fuel : nat) (b : Board) :
  shape9 b →
  (∀ r c, (r < 9)%nat → (c < 9)%nat → ∃ w, get_cell b r c = Ok (Assigned w)) →
  num_nums_placed b ≠ 81 →
  DFS (S fuel) b = Some (Raised TypeError) ∧ BFS (S fuel) b = Some (Raised TypeError).
Proof.
  intros Hs Hfull Hn.
  assert (∀ r c, (r < 9)%nat → (c < 9)%nat → ∃ w, cell_at b r c = Some (Assigned w)) as Hfull'.
  { intros r c Hr Hc. destruct (Hfull r c Hr Hc) as [w Hw%get_cell_Ok]. by exists w. }
  assert (goal_test b = false) as Hg by (by apply Z.eqb_neq).
  split.
  - destruct (branch_full_board b (new : Stack) Hs Hfull') as [Hf Hb].
    by apply (search_loop_raises fuel (push b (new : Stack)) new b).
  - destruct (branch_full_board b (new : Queue) Hs Hfull') as [Hf Hb].
    by apply (search_loop_raises fuel (push b (new : Queue)) new b).
Qed.

Lemma search_full_board_wrong_counter_witness :
  DFS 1 (mkBoard 82 (rows first_solution)) = Some (Raised TypeError)
  ∧ BFS 1 (mkBoard 82 (rows first_solution)) = Some (Raised TypeError).
Proof.
  apply (search_full_board_wrong_counter 0 (mkBoard 82 (rows first_solution))).
  - reflexivity.
  - intros r c Hr Hc.
    do 9 (destruct r as [|r]; [do 9 (destruct c as [|c]; [eexists; reflexivity|]); lia|]).
    lia.
  - discriminate.
Defined.

(** * Boards as objects in a store

    In Python a board is an object that refers to a list of row lists,
    whose items are ints or refer to candidate lists; [update] and
    [remove_if_exists] change these objects in place, and
    [copy.deepcopy] builds new ones.  This module models the store, so that
    sharing between a board and its copy can be stated. *)

Module Heap.

Abbreviation loc := nat.

(** A value is an int or a reference to an object. *)
Inductive val :=
  | VInt (z : Z)
  | VRef (l : loc).

(** An object is a list, or a [Board] instance with its attributes
    [num_nums_placed] and [rows] ([None] while the instance has none yet, as
    between its creation by [deepcopy] and the filling of its [__dict__]).
    The attribute [size] is left out as in the functional model. *)
Inductive obj :=
  | OList (items : list val)
  | OBoard (attrs : option (Z * val)).

#[global] Instance val_eq_dec : EqDecision val.
Proof. solve_decision. Defined.
#[global] Instance obj_eq_dec : EqDecision obj.
Proof. solve_decision. Defined.

(** Objects are never freed: the store is the list of all objects made so
    far and a location is an index into it. *)
Abbreviation heap := (list obj).

Inductive error :=
  | IndexError
  | TypeError
  | AttributeError
  | RecursionError
  | NoObject.        (* a reference to nothing: cannot arise in Python *)

Inductive res (A : Type) :=
  | Val (a : A)
  | Exc (e : error).
Arguments Val {A} a.
Arguments Exc {A} e.

(** Computations change the store and return or raise; the changes made
    before an exception stay. *)
Definition M (A : Type) : Type := heap → heap * res A.

Definition ret {A} (a : A) : M A := λ h, (h, Val a).
Definition raise {A} (e : error) : M A := λ h, (h, Exc e).
Definition bind {A B} (m : M A) (k : A → M B) : M B :=
  λ h, match m h with
       | (h', Val a) => k a h'
       | (h', Exc e) => (h', Exc e)
       end.

Notation "'do' x <- m ; k" := (bind m (λ x, k))
  (at level 10, x name, m at level 100, k at level 200).
Notation "m ;; k" := (bind m (λ _, k))
  (at level 100, k at level 200, right associativity).

Fixpoint for_each {A} (xs : list A) (body : A → M unit) : M unit :=
  match xs with
  | [] => ret tt
  | x :: t => body x ;; for_each t body
  end.

(** ** The store *)

Definition alloc (o : obj) : M loc := λ h, (h ++ [o], Val (length h)).
Definition load (l : loc) : M obj :=
  λ h, match h !! l with Some o => (h, Val o) | None => (h, Exc NoObject) end.
Definition store (l : loc) (o : obj) : M unit := λ h, (<[l:=o]> h, Val tt).

(** ** Python operations *)

(** The items of [v] when [v] is a list. *)
Definition list_items (v : val) : M (loc * list val) :=
  match v with
  | VInt _ => raise TypeError
  | VRef l => do o <- load l;
              match o with
              | OList items => ret (l, items)
              | OBoard _ => raise TypeError
              end
  end.

(** [v[i]] *)
Definition getitem (v : val) (i : nat) : M val :=
  do li <- list_items v;
  match li.2 !! i with Some x => ret x | None => raise IndexError end.

(** [v[i] = x] *)
Definition setitem (v : val) (i : nat) (x : val) : M unit :=
  do li <- list_items v;
  if decide (i < length li.2)%nat then store li.1 (OList (<[i:=x]> li.2))
  else raise IndexError.

(** The attributes of [self] when it is a board that has them. *)
Definition attributes (self : val) : M (loc * (Z * val)) :=
  match self with
  | VInt _ => raise AttributeError
  | VRef l => do o <- load l;
              match o with
              | OBoard (Some a) => ret (l, a)
              | _ => raise AttributeError
              end
  end.

(** [self.rows] *)
Definition get_rows (self : val) : M val :=
  do a <- attributes self; ret a.2.2.

(** [self.num_nums_placed += 1] *)
Definition incr_num_nums_placed (self : val) : M unit :=
  do a <- attributes self; store a.1 (OBoard (Some (a.2.1 + 1, a.2.2))).

(** [elem == item] for an int [elem]: an int equals no list. *)
Definition item_is (elem : Z) (item : val) : bool :=
  match item with VInt z => z =? elem | VRef _ => false end.

(** [lst.remove(elem)] on the items. *)
Fixpoint remove_item (elem : Z) (items : list val) : list val :=
  match items with
  | [] => []
  | y :: t => if item_is elem y then t else y :: remove_item elem t
  end.

Definition remove_if_exists (lst : val) (elem : Z) : M unit :=
  match lst with
  | VInt _ => ret tt
  | VRef l =>
      do o <- load l;
      match o with
      | OList items =>
          if existsb (item_is elem) items then store l (OList (remove_item elem items))
          else ret tt
      | OBoard _ => ret tt
      end
  end.

(** [remove_if_exists(self.rows[r][c], assignment)] *)
Definition eliminate (self : val) (assignment : Z) (r c : nat) : M unit :=
  do rows <- get_rows self;
  do row <- getitem rows r;
  do cell <- getitem row c;
  remove_if_exists cell assignment.

Definition update (self : val) (row column : nat) (assignment : Z) : M unit :=
  (do rows <- get_rows self;
   do r <- getitem rows row;
   setitem r column (VInt assignment)) ;;
  incr_num_nums_placed self ;;
  for_each (range size) (λ r, eliminate self assignment r column) ;;
  for_each (range size) (λ c, eliminate self assignment row c) ;;
  for_each (subgrid_coordinates row column) (λ rc, eliminate self assignment rc.1 rc.2).

(** ** [copy.deepcopy]

    [deepcopy(x, memo)] returns an int as it is and the copy already made
    for an object in [memo]; for a list it makes an empty list, records it
    in [memo] and appends the copies of the items; for an instance it makes
    a new instance, records it and gives it the copy of the attributes.
    [fuel] is the recursion depth that is left. *)

Definition append (l : loc) (x : val) : M unit :=
  do o <- load l;
  match o with
  | OList items => store l (OList (items ++ [x]))
  | OBoard _ => raise AttributeError
  end.

Fixpoint copy_items (copy : val → gmap loc loc → M (val * gmap loc loc))
    (target : loc) (items : list val) (memo : gmap loc loc) : M (gmap loc loc) :=
  match items with
  | [] => ret memo
  | a :: t =>
      do r <- copy a memo;
      append target r.1 ;;
      copy_items copy target t r.2
  end.

Fixpoint deepcopy (fuel : nat) (x : val) (memo : gmap loc loc) : M (val * gmap loc loc) :=
  match fuel with
  | O => raise RecursionError
  | S fuel =>
      match x with
      | VInt z => ret (VInt z, memo)
      | VRef l =>
          match memo !! l with
          | Some l' => ret (VRef l', memo)
          | None =>
              do o <- load l;
              match o with
              | OList items =>
                  do l' <- alloc (OList []);
                  do memo <- copy_items (deepcopy fuel) l' items (<[l:=l']> memo);
                  ret (VRef l', memo)
              | OBoard attrs =>
                  do l' <- alloc (OBoard None);
                  match attrs with
                  | None => ret (VRef l', <[l:=l']> memo)
                  | Some (n, rows) =>
                      do r <- deepcopy fuel rows (<[l:=l']> memo);
                      store l' (OBoard (Some (n, r.1))) ;;
                      ret (VRef l', r.2)
                  end
              end
          end
      end
  end.

(** ** [Board()] *)

(** [[f() for _ in range(n)]]: the list object of [n] values made in turn. *)
Fixpoint comprehension (n : nat) (make : M val) : M (list val) :=
  match n with
  | O => ret []
  | S n => do x <- make; do t <- comprehension n make; ret (x :: t)
  end.

Definition new_list (items : list val) : M val :=
  do l <- alloc (OList items); ret (VRef l).

Definition Board_new : M val :=
  do rows <- (do rs <- comprehension size
                (do cs <- comprehension size (new_list (VInt <$> range_Z 1 10));
                 new_list cs);
              new_list rs);
  do l <- alloc (OBoard (Some (0, rows)));
  ret (VRef l).

(** ** Reading a board out of the store *)

Definition read_ints (items : list val) : option (list Z) :=
  mapM (λ x, match x with VInt z => Some z | VRef _ => None end) items.

Definition read_cell (h : heap) (x : val) : option cell :=
  match x with
  | VInt z => Some (Assigned z)
  | VRef l => match h !! l with
              | Some (OList items) => Candidates <$> read_ints items
              | _ => None
              end
  end.

Definition read_row (h : heap) (x : val) : option (list cell) :=
  match x with
  | VRef l => match h !! l with
              | Some (OList items) => mapM (read_cell h) items
              | _ => None
              end
  | VInt _ => None
  end.

(** The board of the functional model that the object [self] stands for. *)
Definition read_board (h : heap) (self : val) : option Board :=
  match self with
  | VRef l =>
      match h !! l with
      | Some (OBoard (Some (n, VRef lr))) =>
          match h !! lr with
          | Some (OList rs) => mkBoard n <$> mapM (read_row h) rs
          | _ => None
          end
      | _ => None
      end
  | VInt _ => None
  end.

End Heap.

(** ** What a computation leaves of an earlier store *)

Section frame.
Variable h0 : Heap.heap.

(** A value that does not refer into [h0]. *)
Definition fresh_val (v : Heap.val) : Prop :=
  match v with Heap.VInt _ => True | Heap.VRef l => (length h0 ≤ l)%nat end.

(** An object that does not refer into [h0]. *)
Definition fresh_obj (o : Heap.obj) : Prop :=
  match o with
  | Heap.OList items => Forall fresh_val items
  | Heap.OBoard None => True
  | Heap.OBoard (Some a) => fresh_val a.2
  end.

(** The store [h] is [h0] followed by objects that do not refer into [h0]. *)
Definition extends_store (h : Heap.heap) : Prop :=
  ∃ k, h = h0 ++ k ∧ Forall fresh_obj k.

(** The computation [m] keeps [h0] and the separation of the objects made
    since, whether it returns (then with [post]) or raises. *)
Definition keeps {A} (m : Heap.M A) (post : A → Prop) : Prop :=
  ∀ h, extends_store h →
    extends_store (m h).1
    ∧ match (m h).2 with Heap.Val a => post a | Heap.Exc _ => True end.

Lemma keeps_ret {A} (a : A) (post : A → Prop) : post a → keeps (Heap.ret a) post.
Proof. intros Ha h Hh. by split. Qed.

Lemma keeps_raise {A} e (post : A → Prop) : keeps (Heap.raise e) post.
Proof. intros h Hh. by split. Qed.

Lemma keeps_bind {A B} (m : Heap.M A) (k : A → Heap.M B) (P : A → Prop) (Q : B → Prop) :
  keeps m P → (∀ a, P a → keeps (k a) Q) → keeps (Heap.bind m k) Q.
Proof.
  intros Hm Hk h Hh. unfold Heap.bind. destruct (Hm h Hh) as [Hh' Hpost].
  destruct (m h) as [h' [a|e]]; simpl in *; [by apply Hk|done].
Qed.

Lemma keeps_weaken {A} (m : Heap.M A) (P Q : A → Prop) :
  keeps m P → (∀ a, P a → Q a) → keeps m Q.
Proof.
  intros Hm HPQ h Hh. destruct (Hm h Hh) as [Hh' Hpost]. split; [done|].
  destruct (m h).2; auto.
Qed.

Lemma keeps_alloc o : fresh_obj o → keeps (Heap.alloc o) (λ l, (length h0 ≤ l)%nat).
Proof.
  intros Ho h (k & -> & Hk). unfold Heap.alloc. simpl. split.
  - exists (k ++ [o]). split; [by rewrite (assoc_L (++))|].
    apply Forall_app. split; [done|by apply Forall_singleton].
  - rewrite length_app. lia.
Qed.

Lemma keeps_load l : (length h0 ≤ l)%nat → keeps (Heap.load l) fresh_obj.
Proof.
  intros Hl h (k & -> & Hk). unfold Heap.load. cbv beta.
  assert (extends_store (h0 ++ k)) as Hext by (exists k; by split).
  destruct ((h0 ++ k) !! l) as [o|] eqn:Ho; simpl; (split; [exact Hext|]); [|done].
  rewrite lookup_app_r in Ho by done.
  eapply Forall_forall; [exact Hk|]. by eapply list_elem_of_lookup_2.
Qed.

Lemma keeps_load_any l : keeps (Heap.load l) (λ _, True).
Proof.
  intros h Hh. unfold Heap.load. cbv beta. by destruct (h !! l); simpl.
Qed.

Lemma keeps_store l o :
  (length h0 ≤ l)%nat → fresh_obj o → keeps (Heap.store l o) (λ _, True).
Proof.
  intros Hl Ho h (k & -> & Hk). unfold Heap.store. simpl. split; [|done].
  exists (<[(l - length h0)%nat:=o]> k). split.
  - by rewrite insert_app_r_alt.
  - by apply Forall_insert.
Qed.

Lemma keeps_for_each {A} (xs : list A) (body : A → Heap.M unit) :
  (∀ x, keeps (body x) (λ _, True)) → keeps (Heap.for_each xs body) (λ _, True).
Proof.
  intros Hbody. induction xs as [|x xs IH]; simpl.
  - by apply keeps_ret.
  - eapply keeps_bind; [apply Hbody|]. by intros _ _.
Qed.

(** *** The operations on objects made since *)

Lemma keeps_list_items v :
  fresh_val v →
  keeps (Heap.list_items v) (λ li, (length h0 ≤ li.1)%nat ∧ Forall fresh_val li.2).
Proof.
  intros Hv. destruct v as [z|l]; simpl; [apply keeps_raise|].
  eapply keeps_bind; [by apply keeps_load|]. intros [items|attrs] Ho.
  - by apply keeps_ret.
  - apply keeps_raise.
Qed.

Lemma keeps_getitem v i : fresh_val v → keeps (Heap.getitem v i) fresh_val.
Proof.
  intros Hv. eapply keeps_bind; [by apply keeps_list_items|].
  intros [l items] [Hl Hitems]. simpl in *.
  destruct (items !! i) as [x|] eqn:Hx; [|apply keeps_raise].
  apply keeps_ret. eapply Forall_forall; [exact Hitems|]. by eapply list_elem_of_lookup_2.
Qed.

Lemma keeps_setitem v i x :
  fresh_val v → fresh_val x → keeps (Heap.setitem v i x) (λ _, True).
Proof.
  intros Hv Hx. eapply keeps_bind; [by apply keeps_list_items|].
  intros [l items] [Hl Hitems]. simpl in *. case_decide; [|apply keeps_raise].
  apply keeps_store; [done|]. simpl. by apply Forall_insert.
Qed.

Lemma keeps_attributes self :
  fresh_val self →
  keeps (Heap.attributes self) (λ a, (length h0 ≤ a.1)%nat ∧ fresh_val a.2.2).
Proof.
  intros Hv. destruct self as [z|l]; simpl; [apply keeps_raise|].
  eapply keeps_bind; [by apply keeps_load|]. intros [items|[a|]] Ho.
  - apply keeps_raise.
  - by apply keeps_ret.
  - apply keeps_raise.
Qed.

Lemma keeps_get_rows self : fresh_val self → keeps (Heap.get_rows self) fresh_val.
Proof.
  intros Hv. eapply keeps_bind; [by apply keeps_attributes|].
  intros a [_ Ha]. by apply keeps_ret.
Qed.

Lemma keeps_incr_num_nums_placed self :
  fresh_val self → keeps (Heap.incr_num_nums_placed self) (λ _, True).
Proof.
  intros Hv. eapply keeps_bind; [by apply keeps_attributes|].
  intros a [Hl Ha]. by apply keeps_store.
Qed.

Lemma remove_item_fresh elem items :
  Forall fresh_val items → Forall fresh_val (Heap.remove_item elem items).
Proof.
  induction 1 as [|y items Hy Hitems IH]; simpl; [done|].
  destruct (Heap.item_is elem y); [done|by constructor].
Qed.

Lemma keeps_remove_if_exists lst elem :
  fresh_val lst → keeps (Heap.remove_if_exists lst elem) (λ _, True).
Proof.
  intros Hv. destruct lst as [z|l]; simpl; [by apply keeps_ret|].
  eapply keeps_bind; [by apply keeps_load|]. intros [items|attrs] Ho.
  - destruct (existsb _ items); [|by apply keeps_ret].
    apply keeps_store; [done|]. by apply remove_item_fresh.
  - by apply keeps_ret.
Qed.

Lemma keeps_eliminate self assignment r c :
  fresh_val self → keeps (Heap.eliminate self assignment r c) (λ _, True).
Proof.
  intros Hv. eapply keeps_bind; [by apply keeps_get_rows|]. intros rows Hrows.
  eapply keeps_bind; [by apply keeps_getitem|]. intros row Hrow.
  eapply keeps_bind; [by apply keeps_getitem|]. intros cell Hcell.
  by apply keeps_remove_if_exists.
Qed.

Lemma keeps_update self row column assignment :
  fresh_val self → keeps (Heap.update self row column assignment) (λ _, True).
Proof.
  intros Hv. unfold Heap.update.
  eapply keeps_bind.
  { eapply keeps_bind; [by apply keeps_get_rows|]. intros rows Hrows.
    eapply keeps_bind; [by apply keeps_getitem|]. intros r Hr.
    by apply keeps_setitem. }
  intros _ _. eapply keeps_bind; [by apply keeps_incr_num_nums_placed|].
  intros _ _. eapply keeps_bind; [apply keeps_for_each; intros; by apply keeps_eliminate|].
  intros _ _. eapply keeps_bind; [apply keeps_for_each; intros; by apply keeps_eliminate|].
  intros _ _. apply keeps_for_each. intros. by apply keeps_eliminate.
Qed.

(** *** [deepcopy] makes objects that do not refer into [h0] *)

Definition fresh_memo (memo : gmap Heap.loc Heap.loc) : Prop :=
  map_Forall (λ _ l', (length h0 ≤ l')%nat) memo.

Lemma keeps_append l x :
  (length h0 ≤ l)%nat → fresh_val x → keeps (Heap.append l x) (λ _, True).
Proof.
  intros Hl Hx. eapply keeps_bind; [by apply keeps_load|]. intros [items|attrs] Ho.
  - apply keeps_store; [done|]. simpl. apply Forall_app. split; [done|].
    by apply Forall_singleton.
  - apply keeps_raise.
Qed.

Lemma keeps_copy_items copy target items memo :
  (∀ x memo, fresh_memo memo → keeps (copy x memo) (λ r, fresh_val r.1 ∧ fresh_memo r.2)) →
  (length h0 ≤ target)%nat → fresh_memo memo →
  keeps (Heap.copy_items copy target items memo) fresh_memo.
Proof.
  intros Hcopy Ht. revert memo. induction items as [|a items IH]; intros memo Hmemo; simpl.
  - by apply keeps_ret.
  - eapply keeps_bind; [by apply Hcopy|]. intros r [Hr1 Hr2].
    eapply keeps_bind; [by apply keeps_append|]. intros _ _. by apply IH.
Qed.

Lemma keeps_deepcopy fuel x memo :
  fresh_memo memo →
  keeps (Heap.deepcopy fuel x memo) (λ r, fresh_val r.1 ∧ fresh_memo r.2).
Proof.
  revert x memo. induction fuel as [|fuel IH]; intros x memo Hmemo; simpl.
  { apply keeps_raise. }
  destruct x as [z|l]; [by apply keeps_ret|].
  destruct (memo !! l) as [l'|] eqn:Hl.
  { apply keeps_ret. split; [|done]. simpl. by eapply (Hmemo l l'). }
  eapply keeps_bind; [apply keeps_load_any|]. intros [items|attrs] _.
  - eapply keeps_bind; [apply keeps_alloc; by constructor|]. intros l' Hl'.
    eapply keeps_bind.
    { apply keeps_copy_items; [exact IH|done|]. by apply map_Forall_insert_2. }
    intros memo' Hmemo'. by apply keeps_ret.
  - eapply keeps_bind; [by apply keeps_alloc|]. intros l' Hl'.
    assert (fresh_memo (<[l:=l']> memo)) by (by apply map_Forall_insert_2).
    destruct attrs as [[n rows]|]; [|by apply keeps_ret].
    eapply keeps_bind; [by apply IH|]. intros r [Hr1 Hr2].
    eapply keeps_bind; [by apply keeps_store|]. intros _ _. by apply keeps_ret.
Qed.
End frame.

(** *** Reading a board only looks at the objects it reaches *)

Lemma read_cell_prefix (h h' : Heap.heap) x c :
  h `prefix_of` h' → Heap.read_cell h x = Some c → Heap.read_cell h' x = Some c.
Proof.
  intros Hpre. destruct x as [z|l]; simpl; [done|].
  destruct (h !! l) as [o|] eqn:Ho; [|done].
  by rewrite (prefix_lookup_Some _ _ _ _ Ho Hpre).
Qed.

Lemma read_row_prefix (h h' : Heap.heap) x row :
  h `prefix_of` h' → Heap.read_row h x = Some row → Heap.read_row h' x = Some row.
Proof.
  intros Hpre. destruct x as [z|l]; simpl; [done|].
  destruct (h !! l) as [o|] eqn:Ho; [|done].
  rewrite (prefix_lookup_Some _ _ _ _ Ho Hpre). destruct o as [items|]; [|done].
  rewrite !mapM_Some. intros Hall. eapply Forall2_impl; [exact Hall|].
  intros y c. by apply read_cell_prefix.
Qed.

Lemma read_board_prefix (h h' : Heap.heap) self b :
  h `prefix_of` h' → Heap.read_board h self = Some b → Heap.read_board h' self = Some b.
Proof.
  intros Hpre. destruct self as [z|l]; simpl; [done|].
  destruct (h !! l) as [o|] eqn:Ho; [|done].
  rewrite (prefix_lookup_Some _ _ _ _ Ho Hpre).
  destruct o as [|[[n [z|lr]]|]]; try done.
  destruct (h !! lr) as [o|] eqn:Hr; [|done].
  rewrite (prefix_lookup_Some _ _ _ _ Hr Hpre). destruct o as [rs|]; [|done].
  destruct (mapM (Heap.read_row h) rs) as [g|] eqn:Hg; [|done].
  intros [= <-]. apply mapM_Some in Hg.
  assert (mapM (Heap.read_row h') rs = Some g) as ->; [|done].
  apply mapM_Some. eapply Forall2_impl; [exact Hg|].
  intros y row. by apply read_row_prefix.
Qed.

Lemma extends_store_prefix (h0 h : Heap.heap) : extends_store h0 h → h0 `prefix_of` h.
Proof. intros (k & -> & _). by exists k. Qed.

Lemma extends_store_refl (h0 : Heap.heap) : extends_store h0 h0.
Proof. exists []. by rewrite app_nil_r. Qed.

(** X12: a deep copy shares nothing with the original.  Whatever the
    store and the object copied, after [copy.deepcopy] has returned, an
    [update] of the copy (at any cell and digit, whether it returns or
    raises part-way) leaves every object that existed before the copy as it
    was; so a board read from the original before the copy is read from it
    unchanged afterwards: same counter, same digits, same candidate
    lists. *)
Theorem deepcopy_isolates_update (h h1 : Heap.heap) (fuel : nat) (original copy : Heap.val)
    (memo : gmap Heap.loc Heap.loc) (row column : nat) (assignment : Z) :
  Heap.deepcopy fuel original ∅ h = (h1, Heap.Val (copy, memo)) →
  h `prefix_of` (Heap.update copy row column assignment h1).1
  ∧ ∀ b, Heap.read_board h original = Some b →
         Heap.read_board (Heap.update copy row column assignment h1).1 original = Some b.
Proof.
  intros Hcopy.
  destruct (keeps_deepcopy h fuel original ∅) with (h := h) as [Hext Hpost].
  { apply map_Forall_empty. }
  { apply extends_store_refl. }
  rewrite Hcopy in Hext, Hpost. simpl in Hext, Hpost. destruct Hpost as [Hfresh _].
  destruct (keeps_update h copy row column assignment Hfresh h1 Hext) as [Hext' _].
  apply extends_store_prefix in Hext'. split; [done|].
  intros b. by apply read_board_prefix.
Qed.

(** A new board in an empty store, its copy, and the stores in between. *)
Definition store_new : Heap.heap := Eval vm_compute in (Heap.Board_new []).1.
Definition store_copied : Heap.heap :=
  Eval vm_compute in (Heap.deepcopy 5 (Heap.VRef 91) ∅ store_new).1.

Lemma deepcopy_isolates_update_witness :
  Heap.read_board (Heap.update (Heap.VRef 92) 0 1 7 store_copied).1 (Heap.VRef 91)
    = Some Board_init
  ∧ Heap.read_board (Heap.update (Heap.VRef 92) 0 1 7 store_copied).1 (Heap.VRef 92)
    = Some (mkBoard 1 (rows (match update 0 1 7 Board_init with
                             | Ok b => b | Raise _ => Board_init end))).
Proof.
  split; [|vm_compute; reflexivity].
  eapply (deepcopy_isolates_update store_new store_copied 5 (Heap.VRef 91) (Heap.VRef 92)).
  - vm_compute. reflexivity.
  - vm_compute. reflexivity.
Defined.

(** ** The invariant of the class *)

(** X13: a new board satisfies the invariant (9 x 9 grid, counter equal
    to the number of cells that hold a digit, digits 1..9, candidate lists
    sets of digits, no placed digit repeated or still listed among its
    peers), and [update] keeps it whenever the target cell is open and
    lists the digit placed; the call then succeeds and exactly one cell
    fewer is open. *)
Theorem update_keeps_invariant :
  consistent Board_init
  ∧ ∀ row column assignment b l,
      consistent b → get_cell b row column = Ok (Candidates l) → assignment ∈ l →
      ∃ b', update row column assignment b = Ok b' ∧ consistent b'
        ∧ S (length (open_cells b')) = length (open_cells b).
Proof.
  split; [apply Board_init_consistent|].
  intros row column assignment b l Hcons Hl%get_cell_Ok Hin.
  destruct (update_consistent row column assignment b l Hcons Hl Hin)
    as (b' & Hu & Hcons' & Hopen & _).
  by exists b'.
Qed.

Lemma update_keeps_invariant_witness :
  ∃ b', update 0 0 5 Board_init = Ok b' ∧ consistent b'
    ∧ S (length (open_cells b')) = length (open_cells Board_init).
Proof.
  apply (proj2 update_keeps_invariant 0%nat 0%nat 5 Board_init (range_Z 1 10)).
  - apply Board_init_consistent.
  - reflexivity.
  - apply (bool_decide_unpack _). vm_compute. exact I.
Defined.

(** ** The scan on a grid that is too small *)

Lemma scan_raises b (ps : list (nat * nat)) st :
  Exists (λ p, cell_at b p.1 p.2 = None) ps →
  for_each ps (λ p, scan_cell b p.1 p.2) st = Raise IndexError.
Proof.
  intros Hex. revert st. induction ps as [|[r c] ps IH]; intros st.
  { by apply Exists_nil in Hex. }
  cbn [for_each fst snd]. destruct (cell_at b r c) as [x|] eqn:Hx.
  - rewrite (scan_cell_step b r c x st Hx). cbn [mbind result_bind]. apply IH.
    apply Exists_cons in Hex as [Hhere|Hex]; [simpl in Hhere; congruence|done].
  - unfold scan_cell. rewrite get_cell_cell_at, Hx. done.
Qed.

(** X14: [find_most_constrained_cell] indexes all 81 cells.  It raises
    [IndexError] exactly when some cell [(r, c)] with [r], [c] below 9 does
    not exist (a row is missing or too short), and returns a coordinate
    otherwise, whatever lies beyond the first nine rows and columns. *)
Theorem find_most_constrained_cell_raises_iff (b : Board) :
  (find_most_constrained_cell b = Raise IndexError
     ↔ ∃ r c, (r < 9)%nat ∧ (c < 9)%nat ∧ cell_at b r c = None)
  ∧ ((∃ rc, find_most_constrained_cell b = Ok rc)
     ↔ ∀ r c, (r < 9)%nat → (c < 9)%nat → is_Some (cell_at b r c)).
Proof.
  rewrite find_most_constrained_cell_cells.
  destruct (decide (Forall (λ p, is_Some (cell_at b p.1 p.2)) cells)) as [Hall|Hnot].
  - destruct (scan_spec b cells (10%nat, 0%nat, 0%nat) Hall) as (st & -> & _).
    cbn [mbind result_bind].
    assert (∀ r c, (r < 9)%nat → (c < 9)%nat → is_Some (cell_at b r c)) as Hgrid.
    { intros r c Hr Hc.
      apply (proj1 (Forall_forall _ _) Hall (r, c)). by apply elem_of_cells. }
    split; split; try done.
    + intros (r & c & Hr & Hc & Hnone). destruct (Hgrid r c Hr Hc). congruence.
    + intros _. by eexists.
  - apply not_Forall_Exists in Hnot; [|apply _].
    assert (Exists (λ p, cell_at b p.1 p.2 = None) cells) as Hex.
    { eapply Exists_impl; [exact Hnot|]. intros p Hp. simpl in Hp.
      destruct (cell_at b p.1 p.2); [destruct Hp; by eexists|done]. }
    rewrite (scan_raises b cells _ Hex). cbn [mbind result_bind].
    apply Exists_exists in Hex as ([r c] & [Hr Hc]%elem_of_cells & Hnone).
    split; split; try done.
    + intros _. by exists r, c.
    + by intros [? ?].
    + intros Hgrid. destruct (Hgrid r c Hr Hc). simpl in *. congruence.
Qed.

(** ** Boards in the store that share nothing *)

(** The value at row [r], column [c] of a list of lists. *)
Definition grid_at {A} (g : list (list A)) (r c : nat) : option A := g !! r ≫= (.!! c).

(** The object [self] in the store [h] stands for the board [b]: it is a
    [Board] instance at [lb] whose [rows] is the list at [lr] of the row
    lists at [rl] with the items [cs]; its list objects are all different,
    and no candidate list is an item of two cells. *)
Record unshared (h : Heap.heap) (self : Heap.val) (b : Board)
    (lb lr : nat) (rl : list nat) (cs : list (list Heap.val)) : Prop := {
  un_self : self = Heap.VRef lb;
  un_board : h !! lb = Some (Heap.OBoard (Some (num_nums_placed b, Heap.VRef lr)));
  un_rows : h !! lr = Some (Heap.OList (Heap.VRef <$> rl));
  un_row : Forall2 (λ l items, h !! l = Some (Heap.OList items)) rl cs;
  un_dims : length <$> cs = dims b;
  un_cells : ∀ r c, cell_at b r c = grid_at cs r c ≫= Heap.read_cell h;
  un_sep_lists : NoDup (lb :: lr :: rl);
  un_sep_cells : ∀ r c lc, grid_at cs r c = Some (Heap.VRef lc) → lc ∉ lb :: lr :: rl;
  un_sep_cell : ∀ r c r' c' lc,
    grid_at cs r c = Some (Heap.VRef lc) → grid_at cs r' c' = Some (Heap.VRef lc) →
    r = r' ∧ c = c';
}.

Definition represents (h : Heap.heap) (self : Heap.val) (b : Board) : Prop :=
  ∃ lb lr rl cs, unshared h self b lb lr rl cs.

Lemma grid_at_insert {A} (g : list (list A)) r c row x r' c' :
  g !! r = Some row → (c < length row)%nat →
  grid_at (<[r:=<[c:=x]> row]> g) r' c' =
    if decide (r' = r ∧ c' = c) then Some x else grid_at g r' c'.
Proof.
  intros Hrow Hc. unfold grid_at. apply lookup_lt_Some in Hrow as Hr.
  destruct (decide (r' = r)) as [->|Hne].
  - rewrite list_lookup_insert_eq by done. simpl.
    destruct (decide (c' = c)) as [->|Hnc].
    + rewrite decide_True by done. by apply list_lookup_insert_eq.
    + rewrite decide_False by naive_solver. by rewrite list_lookup_insert_ne, Hrow.
  - rewrite decide_False by naive_solver. by rewrite list_lookup_insert_ne.
Qed.

Lemma read_ints_Some items zs :
  Heap.read_ints items = Some zs → items = Heap.VInt <$> zs.
Proof.
  unfold Heap.read_ints. rewrite mapM_Some. induction 1 as [|x z items zs Hx _ IH]; [done|].
  destruct x; [|done]. injection Hx as ->. simpl. by rewrite IH.
Qed.

Lemma read_ints_VInt zs : Heap.read_ints (Heap.VInt <$> zs) = Some zs.
Proof.
  unfold Heap.read_ints. apply mapM_Some. induction zs; constructor; done.
Qed.

Lemma existsb_item_is v zs :
  existsb (Heap.item_is v) (Heap.VInt <$> zs) = contains v zs.
Proof.
  unfold contains. induction zs as [|z zs IH]; simpl; [done|].
  rewrite (Z.eqb_sym v z). f_equal. exact IH.
Qed.

Lemma remove_item_VInt v zs :
  Heap.remove_item v (Heap.VInt <$> zs) = Heap.VInt <$> list_remove v zs.
Proof.
  induction zs as [|z zs IH]; simpl; [done|]. destruct (z =? v); [done|].
  simpl. f_equal. exact IH.
Qed.

(** *** Evaluating the accesses *)

Lemma eval_load (h : Heap.heap) l o : h !! l = Some o → Heap.load l h = (h, Heap.Val o).
Proof. intros Hl. unfold Heap.load. by rewrite Hl. Qed.

Section unshared.
Context (h : Heap.heap) (self : Heap.val) (b : Board)
  (lb lr : nat) (rl : list nat) (cs : list (list Heap.val)).
Hypothesis Hun : unshared h self b lb lr rl cs.

Lemma eval_get_rows : Heap.get_rows self h = (h, Heap.Val (Heap.VRef lr)).
Proof.
  destruct Hun. subst self. unfold Heap.get_rows, Heap.attributes, Heap.bind.
  by rewrite (eval_load h lb _ un_board0).
Qed.

Lemma unshared_row r row :
  rows b !! r = Some row →
  ∃ l items, rl !! r = Some l ∧ cs !! r = Some items
    ∧ h !! l = Some (Heap.OList items) ∧ length items = length row.
Proof.
  intros Hrow. destruct Hun.
  assert (dims b !! r = Some (length row)) as Hd by (by rewrite dims_lookup, Hrow).
  rewrite <- un_dims0, list_lookup_fmap in Hd.
  destruct (cs !! r) as [items|] eqn:Hitems; [|done]. simpl in Hd.
  destruct (Forall2_lookup_r _ _ _ _ _ un_row0 Hitems) as (l & Hl & Hobj).
  exists l, items. repeat split; try done. congruence.
Qed.

Lemma eval_getitem_row r l :
  rl !! r = Some l → Heap.getitem (Heap.VRef lr) r h = (h, Heap.Val (Heap.VRef l)).
Proof.
  intros Hl. destruct Hun. unfold Heap.getitem, Heap.list_items, Heap.bind.
  rewrite (eval_load h lr _ un_rows0). simpl.
  by rewrite list_lookup_fmap, Hl.
Qed.

Lemma unshared_cell r c y :
  cell_at b r c = Some y →
  ∃ l items x, rl !! r = Some l ∧ cs !! r = Some items ∧ h !! l = Some (Heap.OList items)
    ∧ items !! c = Some x ∧ Heap.read_cell h x = Some y.
Proof.
  intros Hy. pose proof (un_cells _ _ _ _ _ _ _ Hun r c) as Hc. rewrite Hy in Hc.
  unfold grid_at in Hc. destruct (cs !! r) as [items|] eqn:Hitems; [|done]. simpl in Hc.
  destruct (items !! c) as [x|] eqn:Hx; [|done]. simpl in Hc.
  destruct (Forall2_lookup_r _ _ _ _ _ (un_row _ _ _ _ _ _ _ Hun) Hitems) as (l & Hl & Hobj).
  by exists l, items, x.
Qed.

Lemma eval_getitem_cell l items c x :
  h !! l = Some (Heap.OList items) → items !! c = Some x →
  Heap.getitem (Heap.VRef l) c h = (h, Heap.Val x).
Proof.
  intros Hl Hx. unfold Heap.getitem, Heap.list_items, Heap.bind.
  rewrite (eval_load h l _ Hl). simpl. by rewrite Hx.
Qed.
End unshared.

(** *** Changing one object *)

Lemma read_cell_insert_ne (h : Heap.heap) l0 o x :
  (∀ lc, x = Heap.VRef lc → lc ≠ l0) →
  Heap.read_cell (<[l0:=o]> h) x = Heap.read_cell h x.
Proof.
  intros Hne. destruct x as [z|lc]; simpl; [done|].
  rewrite list_lookup_insert_ne; [done|]. intros ->. by eapply Hne.
Qed.

Lemma Forall2_insert_row (h : Heap.heap) (rl : list nat) (cs : list (list Heap.val))
    l0 o :
  l0 ∉ rl →
  Forall2 (λ l items, h !! l = Some (Heap.OList items)) rl cs →
  Forall2 (λ l items, <[l0:=o]> h !! l = Some (Heap.OList items)) rl cs.
Proof.
  intros Hnot Hall. induction Hall as [|l items rl cs Hl Hall IH]; constructor.
  - rewrite list_lookup_insert_ne; [done|]. intros ->. apply Hnot, list_elem_of_here.
  - apply IH. intros ?. by apply Hnot, list_elem_of_further.
Qed.

(** A candidate list gets new contents. *)
Lemma unshared_store_cell h self b b' lb lr rl cs r c lc zs' :
  unshared h self b lb lr rl cs →
  grid_at cs r c = Some (Heap.VRef lc) → is_Some (h !! lc) →
  num_nums_placed b' = num_nums_placed b → dims b' = dims b →
  (∀ r' c', cell_at b' r' c' =
     if decide (r' = r ∧ c' = c) then Some (Candidates zs') else cell_at b r' c') →
  unshared (<[lc:=Heap.OList (Heap.VInt <$> zs')]> h) self b' lb lr rl cs.
Proof.
  intros [Hself Hboard Hrows Hrow Hdims Hcells Hsep1 Hsep2 Hsep3] Hx Hlc Hn Hd Hc.
  pose proof (Hsep2 r c lc Hx) as Hnot.
  rewrite !not_elem_of_cons in Hnot. destruct Hnot as (Hnb & Hnr & Hnrl).
  split; try done.
  - rewrite list_lookup_insert_ne by done. by rewrite Hn.
  - by rewrite list_lookup_insert_ne.
  - by apply Forall2_insert_row.
  - congruence.
  - intros r' c'. rewrite Hc, Hcells.
    destruct (grid_at cs r' c') as [x'|] eqn:Hx'; simpl.
    + case_decide as Heq.
      * destruct Heq as [-> ->]. rewrite Hx in Hx'. injection Hx' as <-. simpl.
        rewrite list_lookup_insert_eq by (by apply lookup_lt_is_Some).
        by rewrite read_ints_VInt.
      * rewrite read_cell_insert_ne; [done|]. intros lc' -> ->.
        apply Heq. by destruct (Hsep3 _ _ _ _ _ Hx' Hx) as [-> ->].
    + case_decide as Heq; [|done]. destruct Heq as [-> ->]. congruence.
Qed.

(** An item of a row becomes an int. *)
Lemma unshared_store_row h self b b' lb lr rl cs r c l items z :
  unshared h self b lb lr rl cs →
  rl !! r = Some l → cs !! r = Some items → (c < length items)%nat →
  num_nums_placed b' = num_nums_placed b → dims b' = dims b →
  (∀ r' c', cell_at b' r' c' =
     if decide (r' = r ∧ c' = c) then Some (Assigned z) else cell_at b r' c') →
  unshared (<[l:=Heap.OList (<[c:=Heap.VInt z]> items)]> h) self b' lb lr
    rl (<[r:=<[c:=Heap.VInt z]> items]> cs).
Proof.
  intros [Hself Hboard Hrows Hrow Hdims Hcells Hsep1 Hsep2 Hsep3] Hl Hitems Hc Hn Hd Hcell.
  apply NoDup_cons in Hsep1 as [Hb1 Hsep1]. apply NoDup_cons in Hsep1 as [Hr1 Hsep1].
  rewrite not_elem_of_cons in Hb1. destruct Hb1 as [Hblr Hbrl].
  assert (l ∈ rl) as Hlin by (by eapply list_elem_of_lookup_2).
  assert (∀ r' c' lc, grid_at (<[r:=<[c:=Heap.VInt z]> items]> cs) r' c' = Some (Heap.VRef lc) →
            grid_at cs r' c' = Some (Heap.VRef lc)) as Hold.
  { intros r' c' lc. rewrite (grid_at_insert cs r c items) by done.
    by case_decide. }
  split; try done.
  - rewrite list_lookup_insert_ne by (intros ->; done). by rewrite Hn.
  - rewrite list_lookup_insert_ne by (intros ->; done). done.
  - apply Forall2_same_length_lookup_2.
    { rewrite length_insert. by eapply Forall2_length. }
    intros i l' items' Hl'. destruct (decide (i = r)) as [->|Hne].
    + rewrite list_lookup_insert_eq by (by eapply lookup_lt_Some).
      intros [= <-]. assert (l' = l) as -> by congruence.
      apply list_lookup_insert_eq.
      destruct (Forall2_lookup_l _ _ _ _ _ Hrow Hl) as (? & ? & Hobj).
      by eapply lookup_lt_Some.
    + rewrite list_lookup_insert_ne by done. intros Hi.
      rewrite list_lookup_insert_ne.
      * by eapply (Forall2_lookup_lr _ _ _ _ _ _ Hrow).
      * intros ->. apply Hne. by eapply NoDup_lookup.
  - rewrite list_fmap_insert, length_insert, Hd, <- Hdims.
    apply list_insert_id. by rewrite list_lookup_fmap, Hitems.
  - intros r' c'. rewrite Hcell, (grid_at_insert cs r c items) by done.
    case_decide; [done|]. rewrite Hcells.
    destruct (grid_at cs r' c') as [x'|] eqn:Hx'; [|done]. simpl.
    apply symmetry, read_cell_insert_ne. intros lc -> ->.
    apply (Hsep2 _ _ _ Hx'). by do 2 apply list_elem_of_further.
  - constructor; [by rewrite not_elem_of_cons|by constructor].
  - intros r' c' lc Hlc%Hold. by eapply Hsep2.
  - intros r1 c1 r2 c2 lc H1%Hold H2%Hold. by eapply Hsep3.
Qed.

(** The counter changes. *)
Lemma unshared_store_board h self b lb lr rl cs n :
  unshared h self b lb lr rl cs →
  unshared (<[lb:=Heap.OBoard (Some (n, Heap.VRef lr))]> h) self (mkBoard n (rows b))
    lb lr rl cs.
Proof.
  intros [Hself Hboard Hrows Hrow Hdims Hcells Hsep1 Hsep2 Hsep3].
  pose proof Hsep1 as Hnd.
  apply NoDup_cons in Hnd as [Hb1 Hnd]. apply NoDup_cons in Hnd as [Hr1 Hnd].
  rewrite not_elem_of_cons in Hb1. destruct Hb1 as [Hblr Hbrl].
  split; try done.
  - simpl. apply list_lookup_insert_eq. by eapply lookup_lt_Some.
  - by rewrite list_lookup_insert_ne.
  - by apply Forall2_insert_row.
  - intros r c. change (cell_at (mkBoard n (rows b)) r c) with (cell_at b r c).
    rewrite Hcells. destruct (grid_at cs r c) as [x|] eqn:Hx; [|done]. simpl.
    apply symmetry, read_cell_insert_ne. intros lc -> ->.
    apply (Hsep2 _ _ _ Hx), list_elem_of_here.
Qed.

Lemma bind_val {A B} (m : Heap.M A) (k : A → Heap.M B) (h h' : Heap.heap) a :
  m h = (h', Heap.Val a) → Heap.bind m k h = k a h'.
Proof. intros Hm. unfold Heap.bind. by rewrite Hm. Qed.

Lemma eval_setitem (h : Heap.heap) l items i x :
  h !! l = Some (Heap.OList items) → (i < length items)%nat →
  Heap.setitem (Heap.VRef l) i x h = (<[l:=Heap.OList (<[i:=x]> items)]> h, Heap.Val tt).
Proof.
  intros Hl Hi. unfold Heap.setitem, Heap.list_items.
  rewrite (bind_val _ _ h h (l, items)).
  - cbn [fst snd]. by rewrite decide_True.
  - by rewrite (bind_val _ _ h h _ (eval_load h l _ Hl)).
Qed.

Lemma eval_incr_num_nums_placed (h : Heap.heap) lb n rows :
  h !! lb = Some (Heap.OBoard (Some (n, rows))) →
  Heap.incr_num_nums_placed (Heap.VRef lb) h
  = (<[lb:=Heap.OBoard (Some (n + 1, rows))]> h, Heap.Val tt).
Proof.
  intros Hl. unfold Heap.incr_num_nums_placed, Heap.attributes.
  rewrite (bind_val _ _ h h (lb, (n, rows))); [done|].
  by rewrite (bind_val _ _ h h _ (eval_load h lb _ Hl)).
Qed.

(** *** The operations in the store against the functional ones *)

Lemma heap_eliminate h self b lb lr rl cs v r c :
  unshared h self b lb lr rl cs → is_Some (cell_at b r c) →
  ∃ h' b', Heap.eliminate self v r c h = (h', Heap.Val tt)
    ∧ eliminate v r c b = Ok b'
    ∧ unshared h' self b' lb lr rl cs.
Proof.
  intros Hun [y Hy].
  destruct (unshared_cell _ _ _ _ _ _ _ Hun r c y Hy)
    as (l & items & x & Hl & Hitems & Hobj & Hx & Hread).
  destruct (eliminate_spec v r c b) as (b' & Hb' & Hn & Hd & Hc); [by eexists|].
  assert (∀ r' c', cell_at b' r' c' =
            if decide (r' = r ∧ c' = c) then Some (remove_if_exists y v)
            else cell_at b r' c') as Hc'.
  { intros r' c'. rewrite Hc. unfold strip_if. case_decide as Heq.
    - destruct Heq as [-> ->]. by rewrite Hy.
    - by destruct (cell_at b r' c'). }
  unfold Heap.eliminate, Heap.bind.
  rewrite (eval_get_rows _ _ _ _ _ _ _ Hun), (eval_getitem_row _ _ _ _ _ _ _ Hun r l Hl),
    (eval_getitem_cell h l items c x Hobj Hx).
  destruct x as [z|lc]; simpl in Hread.
  - (* an int *)
    injection Hread as <-. exists h, b'. split; [done|]. split; [done|].
    destruct Hun as [Hself Hboard Hrows Hrow Hdims Hcells Hsep1 Hsep2 Hsep3].
    split; try done; try congruence.
    intros r' c'. rewrite Hc', <- Hcells. case_decide as Heq; [|done].
    destruct Heq as [-> ->]. by rewrite Hy.
  - (* a list *)
    destruct (h !! lc) as [[its|]|] eqn:Hlc; try done.
    destruct (Heap.read_ints its) as [zs|] eqn:Hzs; [|done].
    injection Hread as <-. apply read_ints_Some in Hzs as ->.
    exists (<[lc:=Heap.OList (Heap.VInt <$> list_remove v zs)]> h), b'.
    split; [|split; [done|]].
    + unfold Heap.remove_if_exists, Heap.bind. rewrite (eval_load h lc _ Hlc).
      rewrite existsb_item_is, remove_item_VInt.
      destruct (contains v zs) eqn:Hin; [done|].
      unfold Heap.ret. f_equal. symmetry. apply list_insert_id.
      rewrite list_remove_absent; [done|]. rewrite <- contains_elem_of. congruence.
    + eapply unshared_store_cell; try done.
      * unfold grid_at. by rewrite Hitems.
      * intros r' c'. rewrite Hc'. by rewrite remove_if_exists_Candidates.
Qed.

Lemma heap_eliminate_pass {A} h self b lb lr rl cs v (xs : list A) (f g : A → nat) :
  unshared h self b lb lr rl cs → shape9 b →
  Forall (λ x, (f x < 9)%nat ∧ (g x < 9)%nat) xs →
  ∃ h' b', Heap.for_each xs (λ x, Heap.eliminate self v (f x) (g x)) h = (h', Heap.Val tt)
    ∧ for_each xs (λ x, eliminate v (f x) (g x)) b = Ok b'
    ∧ unshared h' self b' lb lr rl cs ∧ shape9 b'.
Proof.
  intros Hun Hs Hxs. revert h b Hun Hs.
  induction Hxs as [|x xs Hx Hxs IH]; intros h b Hun Hs.
  { by exists h, b. }
  destruct (heap_eliminate h self b lb lr rl cs v (f x) (g x) Hun)
    as (h1 & b1 & Hh1 & Hb1 & Hun1); [by apply shape9_cell_at|].
  assert (shape9 b1) as Hs1.
  { destruct (eliminate_spec v (f x) (g x) b) as (b1' & Hb1' & _ & Hd & _);
      [by apply shape9_cell_at|].
    assert (b1' = b1) as -> by congruence. by apply (shape9_dims b). }
  destruct (IH h1 b1 Hun1 Hs1) as (h' & b' & Hh' & Hb' & Hun' & Hs').
  exists h', b'. simpl. unfold Heap.bind. rewrite Hh1, Hb1. simpl. by rewrite Hh'.
Qed.

Lemma represents_read_board h self b :
  represents h self b → Heap.read_board h self = Some b.
Proof.
  intros (lb & lr & rl & cs & Hun). pose proof Hun as [-> Hboard Hrows Hrow Hdims Hcells _ _ _].
  unfold Heap.read_board. rewrite Hboard, Hrows.
  assert (mapM (Heap.read_row h) (Heap.VRef <$> rl) = Some (rows b)) as ->.
  2: { by destruct b. }
  apply mapM_Some_2, Forall2_fmap_l, Forall2_same_length_lookup_2.
  { rewrite (Forall2_length _ _ _ Hrow).
    rewrite <- (length_fmap length cs), Hdims. unfold dims. by rewrite length_fmap. }
  intros r l row Hl Hr. simpl.
  destruct (unshared_row _ _ _ _ _ _ _ Hun r row Hr) as (l' & items & Hl' & Hitems & Hobj & Hlen).
  assert (l' = l) as -> by congruence. rewrite Hobj.
  apply mapM_Some_2, Forall2_same_length_lookup_2; [done|].
  intros c x y Hx Hy. specialize (Hcells r c). unfold cell_at, grid_at in Hcells.
  rewrite Hr, Hitems in Hcells. simpl in Hcells. by rewrite Hx, Hy in Hcells.
Qed.

(** X15: on a board object that shares no list with anything else, the
    in-place [update] of the store model does what the functional [update]
    does.  For a 9 x 9 board and grid coordinates it returns normally, the
    object then stands for the board that the functional [update] returns,
    (read back from the store, it is that board), and it still shares
    nothing. *)
Theorem heap_update_refines (h : Heap.heap) (self : Heap.val) (b : Board)
    (row column : nat) (assignment : Z) :
  represents h self b → shape9 b → (row < 9)%nat → (column < 9)%nat →
  ∃ h' b', Heap.update self row column assignment h = (h', Heap.Val tt)
    ∧ update row column assignment b = Ok b'
    ∧ represents h' self b'
    ∧ Heap.read_board h' self = Some b'.
Proof.
  intros (lb & lr & rl & cs & Hun) Hs Hr Hc.
  destruct (proj2 (shape9_cell_at b row column Hs) (conj Hr Hc)) as [y Hy].
  destruct (unshared_cell _ _ _ _ _ _ _ Hun row column y Hy)
    as (l & items & x & Hl & Hitems & Hobj & Hx & Hread).
  destruct (set_cell_spec b row column (Assigned assignment))
    as (b0 & Hb0 & Hn0 & Hd0 & Hc0); [by eexists|].
  pose proof (unshared_store_row h self b b0 lb lr rl cs row column l items assignment
                Hun Hl Hitems (lookup_lt_Some _ _ _ Hx) Hn0 Hd0 Hc0) as Hun0.
  set (h0 := <[l:=Heap.OList (<[column:=Heap.VInt assignment]> items)]> h) in *.
  set (cs0 := <[row:=<[column:=Heap.VInt assignment]> items]> cs) in *.
  pose proof (unshared_store_board h0 self b0 lb lr rl cs0 (num_nums_placed b0 + 1) Hun0)
    as Hun1.
  set (h1 := <[lb:=Heap.OBoard (Some (num_nums_placed b0 + 1, Heap.VRef lr))]> h0) in *.
  set (b1 := mkBoard (num_nums_placed b0 + 1) (rows b0)) in *.
  assert (shape9 b1) as Hs1 by (by apply (shape9_dims b)).
  destruct (heap_eliminate_pass h1 self b1 lb lr rl cs0 assignment (range size)
              (λ r, r) (λ _, column) Hun1 Hs1) as (h2 & b2 & Hh2 & Hb2 & Hun2 & Hs2).
  { apply Forall_forall. by intros r ?%elem_of_range. }
  destruct (heap_eliminate_pass h2 self b2 lb lr rl cs0 assignment (range size)
              (λ _, row) (λ c, c) Hun2 Hs2) as (h3 & b3 & Hh3 & Hb3 & Hun3 & Hs3).
  { apply Forall_forall. by intros c ?%elem_of_range. }
  destruct (heap_eliminate_pass h3 self b3 lb lr rl cs0 assignment
              (subgrid_coordinates row column) fst snd Hun3 Hs3)
    as (h4 & b4 & Hh4 & Hb4 & Hun4 & Hs4).
  { apply Forall_forall. intros [r c] [??]%elem_of_subgrid_coordinates. simpl. lia. }
  assert (represents h4 self b4) as Hrep by (by exists lb, lr, rl, cs0).
  exists h4, b4. split; [|split; [|split; [done|by apply represents_read_board]]].
  - assert (self = Heap.VRef lb) as Hself by (by destruct Hun).
    unfold Heap.update.
    rewrite (bind_val _ _ h h0 tt).
    2: { rewrite (bind_val _ _ h h _ (eval_get_rows _ _ _ _ _ _ _ Hun)).
         rewrite (bind_val _ _ h h _ (eval_getitem_row _ _ _ _ _ _ _ Hun row l Hl)).
         apply eval_setitem; [done|by eapply lookup_lt_Some]. }
    rewrite (bind_val _ _ h0 h1 tt).
    2: { rewrite Hself. apply eval_incr_num_nums_placed. by destruct Hun0. }
    rewrite (bind_val _ _ h1 h2 tt Hh2), (bind_val _ _ h2 h3 tt Hh3).
    exact Hh4.
  - unfold update. rewrite Hb0. cbn [mbind result_bind]. fold b1.
    rewrite Hb2. cbn [mbind result_bind]. rewrite Hb3. cbn [mbind result_bind].
    exact Hb4.
Qed.

(** The new board of [store_new]: the row [r] is the object [10 r + 9],
    its cell [c] the object [10 r + c]; the list of rows is the object 90
    and the board the object 91. *)
Lemma store_new_represents : represents store_new (Heap.VRef 91) Board_init.
Proof.
  exists 91%nat, 90%nat, ((λ r, 10 * r + 9)%nat <$> seq 0 9),
    ((λ r, (λ c, Heap.VRef (10 * r + c)%nat) <$> seq 0 9) <$> seq 0 9).
  assert (∀ r c lc,
    grid_at ((λ r, (λ c, Heap.VRef (10 * r + c)%nat) <$> seq 0 9) <$> seq 0 9) r c
      = Some (Heap.VRef lc) →
    (r < 9)%nat ∧ (c < 9)%nat ∧ lc = (10 * r + c)%nat) as Hloc.
  { intros r c lc.
    do 9 (destruct r as [|r];
      [do 9 (destruct c as [|c]; [intros [= <-]; lia|]); done|]).
    done. }
  split.
  - done.
  - reflexivity.
  - reflexivity.
  - repeat (constructor; [reflexivity|]). constructor.
  - reflexivity.
  - intros r c.
    do 9 (destruct r as [|r];
      [do 9 (destruct c as [|c]; [reflexivity|]); reflexivity|]).
    reflexivity.
  - apply (bool_decide_unpack _). vm_compute. exact I.
  - intros r c lc (Hr & Hc & ->)%Hloc. rewrite !elem_of_cons, list_elem_of_fmap.
    intros [?|[?|(r' & ? & _)]]; lia.
  - intros r c r' c' lc (Hr & Hc & ->)%Hloc (Hr' & Hc' & ?)%Hloc. lia.
Qed.

Lemma heap_update_refines_witness :
  ∃ h' b', Heap.update (Heap.VRef 91) 0 1 7 store_new = (h', Heap.Val tt)
    ∧ update 0 1 7 Board_init = Ok b'
    ∧ represents h' (Heap.VRef 91) b'
    ∧ Heap.read_board h' (Heap.VRef 91) = Some b'.
Proof.
  apply (heap_update_refines store_new (Heap.VRef 91) Board_init 0 1 7).
  - apply store_new_represents.
  - apply Board_init_shape9.
  - lia.
  - lia.
Defined.

(** * Printing *)

(** The character [\n]. *)
Definition newline : string := String "010"%char "".

(** [" | " if j % 3 == 0 else " "] *)
Definition sep (j : nat) : string := if (j mod 3 =? 0)%nat then " | " else " ".

(** ["*" if isinstance(cell, list) else str(cell)] *)
Definition shown (x : cell) : string :=
  match x with Candidates _ => "*" | Assigned v => pretty v end.

Definition rule : string := " -------------------------".

(** The line of one row: ["".join(parts) + " |"]. *)
Definition row_line (row : list cell) : string :=
  String.concat "" (imap (λ j x, sep j +:+ shown x) row) +:+ " |".

(** [out_lines] when the loop over the rows is done and the last rule
    appended. *)
Definition out_lines (self : Board) : list string :=
  mjoin (imap (λ i row, (if (i mod 3 =? 0)%nat then [rule] else []) ++ [row_line row])
           (rows self)) ++ [rule].

(** The text that [print_pretty] hands to [print]. *)
Definition print_pretty (self : Board) : string :=
  "num_nums_placed: " +:+ pretty (num_nums_placed self) +:+ newline
    +:+ "board (rows): " +:+ newline +:+ String.concat newline (out_lines self).

(** ** The snapshot of [__str__] *)

(** [str(l)] of a list of ints. *)
Definition str_list (l : list Z) : string :=
  "[" +:+ String.concat ", " (pretty <$> l) +:+ "]".

(** [repr(cell)] of an element of a row. *)
Definition repr_cell (x : cell) : string :=
  match x with Assigned v => pretty v | Candidates l => str_list l end.

(** [str(r)] of a row. *)
Definition str_row (r : list cell) : string :=
  "[" +:+ String.concat ", " (repr_cell <$> r) +:+ "]".

(** [Board.__str__] *)
Definition Board_str (self : Board) : string :=
  String.concat newline
    (("num_nums_placed: " +:+ pretty (num_nums_placed self))
       :: "board (rows):" :: (str_row <$> rows self)).

(** ** Texts *)

Fixpoint all_chars (P : ascii → Prop) (s : string) : Prop :=
  match s with
  | EmptyString => True
  | String a s => P a ∧ all_chars P s
  end.

(** The text is empty or starts outside [P]. *)
Definition stops (P : ascii → Prop) (t : string) : Prop :=
  match t with
  | EmptyString => True
  | String a _ => ¬ P a
  end.

Lemma text_app_cons a (s t : string) : String a s +:+ t = String a (s +:+ t).
Proof. reflexivity. Qed.

Lemma text_app_empty_l (s : string) : "" +:+ s = s.
Proof. reflexivity. Qed.

Lemma text_app_assoc (s t u : string) : (s +:+ t) +:+ u = s +:+ (t +:+ u).
Proof. induction s as [|a s IH]; [done|]. by rewrite !text_app_cons, IH. Qed.

Lemma text_app_empty_r (s : string) : s +:+ "" = s.
Proof. induction s as [|a s IH]; [done|]. by rewrite text_app_cons, IH. Qed.

Lemma all_chars_app P s t : all_chars P s → all_chars P t → all_chars P (s +:+ t).
Proof. induction s as [|a s IH]; [done|]. rewrite text_app_cons. simpl. naive_solver. Qed.

Lemma all_chars_impl (P Q : ascii → Prop) s :
  (∀ a, P a → Q a) → all_chars P s → all_chars Q s.
Proof. intros HPQ. induction s; simpl; naive_solver. Qed.

Create HintDb text.
#[local] Hint Rewrite text_app_assoc text_app_cons text_app_empty_l : text.

(** A text of [P] characters followed by a text that stops is read in one
    way only. *)
Lemma span P s1 s2 t1 t2 :
  all_chars P s1 → all_chars P s2 → stops P t1 → stops P t2 →
  s1 +:+ t1 = s2 +:+ t2 → s1 = s2 ∧ t1 = t2.
Proof.
  revert s2. induction s1 as [|a s1 IH]; intros [|b s2]; rewrite ?text_app_cons; simpl;
    intros H1 H2 Ht1 Ht2 Heq.
  - done.
  - change (t1 = String b (s2 +:+ t2)) in Heq. subst t1. simpl in Ht1. tauto.
  - change (String a (s1 +:+ t1) = t2) in Heq. subst t2. simpl in Ht2. tauto.
  - injection Heq as -> Heq. destruct (IH s2) as [-> ->]; tauto.
Qed.

(** The rest of a joined list after its first element. *)
Definition tail_of (sep : string) (l : list string) : string :=
  match l with [] => "" | _ :: _ => sep +:+ String.concat sep l end.

Lemma concat_cons sep x l : String.concat sep (x :: l) = x +:+ tail_of sep l.
Proof. destruct l; simpl; [by rewrite text_app_empty_r|done]. Qed.

(** The character [c] does not occur in the text. *)
Definition free_of (c : ascii) : string → Prop := all_chars (λ a, a ≠ c).

Lemma free_of_stops c t : stops (λ a, a ≠ c) (String c t).
Proof. intros H. by apply H. Qed.

Lemma split_at c s1 s2 t1 t2 :
  free_of c s1 → free_of c s2 →
  s1 +:+ String c t1 = s2 +:+ String c t2 → s1 = s2 ∧ t1 = t2.
Proof.
  intros H1 H2 Heq.
  apply (span (λ a, a ≠ c)) in Heq as [-> [= ->]]; auto using free_of_stops.
Qed.

Lemma all_chars_concat P sep l :
  all_chars P sep → Forall (all_chars P) l → all_chars P (String.concat sep l).
Proof.
  intros Hsep Hl. induction Hl as [|x l Hx Hl IH]; [done|].
  rewrite concat_cons. apply all_chars_app; [done|].
  destruct l; [done|]. by apply all_chars_app.
Qed.

Lemma tail_of_stops c l : stops (λ a, a ≠ c) (tail_of (String c "") l).
Proof. destruct l; [done|]. apply free_of_stops. Qed.

(** Lines without a line break, joined by line breaks, are read in one
    way. *)
Lemma lines_inj c (x1 x2 : string) (l1 l2 : list string) :
  free_of c x1 → free_of c x2 → Forall (free_of c) l1 → Forall (free_of c) l2 →
  String.concat (String c "") (x1 :: l1) = String.concat (String c "") (x2 :: l2) →
  x1 = x2 ∧ l1 = l2.
Proof.
  intros H1 H2 Hl1. revert x1 x2 l2 H1 H2.
  induction Hl1 as [|y1 l1 Hy1 Hl1 IH]; intros x1 x2 l2 H1 H2 Hl2 Heq;
    rewrite !concat_cons in Heq;
    (apply (span (λ a, a ≠ c)) in Heq as [-> Heq]; [|done|done|apply tail_of_stops..]);
    (split; [done|]).
  - destruct l2; [done|discriminate Heq].
  - destruct Hl2 as [|y2 l2 Hy2 Hl2]; [discriminate Heq|].
    injection Heq as Heq. by destruct (IH y1 y2 l2 Hy1 Hy2 Hl2 Heq) as [-> ->].
Qed.

(** ** Decimal texts *)

Definition numeric (a : ascii) : Prop :=
  a ∈ String.list_ascii_of_string "-0123456789".

Lemma pretty_N_go_chars (P : ascii → Prop) x s :
  (∀ d, P (pretty_N_char d)) → all_chars P s → all_chars P (pretty_N_go x s).
Proof.
  intros Hc. revert s. induction (N.lt_wf_0 x) as [x _ IH]; intros s Hs.
  destruct (decide (x = 0)%N) as [->|Hx]; [by rewrite pretty_N_go_0|].
  rewrite pretty_N_go_step by lia. apply IH.
  - apply N.div_lt; lia.
  - by split.
Qed.

Lemma pretty_N_go_length x s : (String.length s ≤ String.length (pretty_N_go x s))%nat.
Proof.
  revert s. induction (N.lt_wf_0 x) as [x _ IH]; intros s.
  destruct (decide (x = 0)%N) as [->|Hx]; [by rewrite pretty_N_go_0|].
  rewrite pretty_N_go_step by lia. etrans; [|apply IH, N.div_lt; lia]. simpl. lia.
Qed.

Lemma pretty_N_char_numeric d : numeric (pretty_N_char d).
Proof.
  unfold pretty_N_char, numeric. simpl. repeat case_match; set_solver.
Qed.

Lemma pretty_Z_numeric (z : Z) : all_chars numeric (pretty z).
Proof.
  assert (∀ p, all_chars numeric (pretty (N.pos p))) as Hp.
  { intros p. unfold pretty, pretty_N. case_decide; [done|].
    apply pretty_N_go_chars; [apply pretty_N_char_numeric|done]. }
  destruct z as [|p|p].
  - split; [|done]. unfold numeric. simpl. set_solver.
  - apply Hp.
  - split; [|apply Hp]. unfold numeric. simpl. set_solver.
Qed.

Lemma pretty_Z_first (z : Z) : ∃ a s, pretty z = String a s ∧ numeric a.
Proof.
  pose proof (pretty_Z_numeric z) as Hn.
  destruct (pretty z) as [|a s] eqn:Hz; [|exists a, s; by destruct Hn].
  exfalso. destruct z as [|p|p]; [done| |done].
  unfold pretty, pretty_Z, pretty, pretty_positive, pretty, pretty_N in Hz.
  case_decide; [done|]. rewrite pretty_N_go_step in Hz by lia.
  pose proof (pretty_N_go_length (N.pos p `div` 10)
                (String (pretty_N_char (N.pos p `mod` 10)) "")) as Hlen.
  rewrite Hz in Hlen. simpl in Hlen. lia.
Qed.

(** The decimal text of an integer has no line break. *)
Lemma pretty_Z_free_newline (z : Z) : free_of "010" (pretty z).
Proof.
  eapply all_chars_impl; [|apply pretty_Z_numeric].
  intros a Ha ->. unfold numeric in Ha. simpl in Ha. set_solver.
Qed.

(** ** What the grid shows *)

Definition single (a : ascii) : string := String a "".

(** The first character of the text of a cell. *)
Definition glyph (x : cell) : ascii :=
  match shown x with String a _ => a | EmptyString => " "%char end.

(** The placed values take one column each. *)
Definition one_digit (b : Board) : Prop :=
  ∀ r c v, cell_at b r c = Some (Assigned v) → 0 ≤ v ≤ 9.

(** [out_lines] from the texts of the cells. *)
Definition lines_of (texts : list (list string)) : list string :=
  mjoin (imap (λ i row, (if (i mod 3 =? 0)%nat then [rule] else [])
                 ++ [String.concat "" (imap (λ j s, sep j +:+ s) row) +:+ " |"]) texts)
    ++ [rule].

Lemma out_lines_shown self : out_lines self = lines_of (fmap (M:=list) shown <$> rows self).
Proof.
  unfold out_lines, lines_of. rewrite imap_fmap. f_equal. f_equal. apply imap_ext.
  intros i row _. simpl. unfold row_line. by rewrite imap_fmap.
Qed.

Lemma shown_digit v : 0 ≤ v ≤ 9 → shown (Assigned v) = single (glyph (Assigned v)).
Proof.
  intros Hv.
  assert (v = 0 ∨ v = 1 ∨ v = 2 ∨ v = 3 ∨ v = 4 ∨ v = 5 ∨ v = 6 ∨ v = 7 ∨ v = 8 ∨ v = 9)
    as Hcases by lia.
  destruct_or!; subst v; reflexivity.
Qed.

Lemma glyph_digit_inj v w :
  0 ≤ v ≤ 9 → 0 ≤ w ≤ 9 → glyph (Assigned v) = glyph (Assigned w) → v = w.
Proof.
  intros Hv Hw Heq. apply (inj (pretty (A := Z))).
  change (shown (Assigned v) = shown (Assigned w)).
  by rewrite !shown_digit, Heq.
Qed.

Lemma glyph_digit_star v l : 0 ≤ v ≤ 9 → glyph (Assigned v) ≠ glyph (Candidates l).
Proof.
  intros Hv.
  assert (v = 0 ∨ v = 1 ∨ v = 2 ∨ v = 3 ∨ v = 4 ∨ v = 5 ∨ v = 6 ∨ v = 7 ∨ v = 8 ∨ v = 9)
    as Hcases by lia.
  destruct_or!; subst v; discriminate.
Qed.

Lemma matrix_ext {A} (g1 g2 : list (list A)) :
  length <$> g1 = length <$> g2 →
  (∀ r c, g1 !! r ≫= (.!! c) = g2 !! r ≫= (.!! c)) →
  g1 = g2.
Proof.
  intros Hd Hc. apply list_eq. intros r.
  assert (length <$> g1 !! r = length <$> g2 !! r) as Hlen.
  { by rewrite <- !list_lookup_fmap, Hd. }
  specialize (Hc r).
  destruct (g1 !! r) as [row1|], (g2 !! r) as [row2|]; simplify_eq/=; [|done].
  f_equal. apply list_eq. intros c. apply Hc.
Qed.

Lemma matrix_fmap_dims {A} (f : cell → A) b : length <$> (fmap (M:=list) f <$> rows b) = dims b.
Proof.
  unfold dims. rewrite <- list_fmap_compose. apply list_fmap_ext.
  intros _ row _. simpl. by rewrite length_fmap.
Qed.

Lemma matrix_fmap_lookup {A} (f : cell → A) b r c :
  (fmap (M:=list) f <$> rows b) !! r ≫= (.!! c) = f <$> cell_at b r c.
Proof.
  unfold cell_at. rewrite list_lookup_fmap. destruct (rows b !! r) as [row|]; simpl; [|done].
  by rewrite list_lookup_fmap.
Qed.

Lemma shown_glyphs b :
  one_digit b → fmap (M:=list) shown <$> rows b = fmap (M:=list) single <$> (fmap (M:=list) glyph <$> rows b).
Proof.
  intros Hd. apply matrix_ext.
  - rewrite matrix_fmap_dims. unfold dims. rewrite <- !list_fmap_compose.
    apply list_fmap_ext. intros _ row _. simpl. by rewrite !length_fmap.
  - intros r c. rewrite matrix_fmap_lookup.
    rewrite list_lookup_fmap.
    pose proof (matrix_fmap_lookup glyph b r c) as Hg.
    destruct ((fmap (M:=list) glyph <$> rows b) !! r) as [row|]; simpl in *.
    + rewrite list_lookup_fmap, Hg. destruct (cell_at b r c) as [[v|l]|] eqn:Hx; simpl; [|done..].
      f_equal. apply shown_digit. by eapply Hd.
    + by destruct (cell_at b r c).
Qed.

Ltac explode_row r H :=
  do 9 (destruct r as [|? r]; [discriminate H|]); destruct r; [clear H|discriminate H].

Ltac explode_grid M H :=
  do 9 (let r := fresh "r" in let Hr := fresh "Hr" in
        destruct M as [|r M]; [discriminate H|];
        injection H as Hr H; explode_row r Hr);
  destruct M; [clear H|discriminate H].

(** A 9 x 9 grid of one-column texts can be read back from the lines. *)
Lemma lines_of_single_inj (M1 M2 : list (list ascii)) :
  length <$> M1 = replicate size size → length <$> M2 = replicate size size →
  String.concat newline (lines_of (fmap (M:=list) single <$> M1))
    = String.concat newline (lines_of (fmap (M:=list) single <$> M2)) →
  M1 = M2.
Proof.
  intros H1 H2. explode_grid M1 H1. explode_grid M2 H2.
  vm_compute. intros H. simplify_eq. reflexivity.
Qed.

Lemma glyphs_shape b : shape9 b → length <$> (fmap (M:=list) glyph <$> rows b) = replicate size size.
Proof. intros Hs. by rewrite matrix_fmap_dims. Qed.

Lemma glyph_assigned b1 b2 r c v :
  one_digit b1 → one_digit b2 →
  glyph <$> cell_at b1 r c = glyph <$> cell_at b2 r c →
  cell_at b1 r c = Some (Assigned v) → cell_at b2 r c = Some (Assigned v).
Proof.
  intros Hd1 Hd2 Hg H1. rewrite H1 in Hg.
  destruct (cell_at b2 r c) as [[w|l]|] eqn:H2; simplify_eq/=.
  - do 2 f_equal. symmetry. eapply glyph_digit_inj; [by eapply Hd1|by eapply Hd2|done].
  - exfalso. eapply glyph_digit_star; [by eapply Hd1|done].
Qed.

(** X16: on 9 x 9 boards whose placed values are single digits, the text
    that [print_pretty] prints shows the counter and the placed digits, and
    nothing else: two boards print the same text exactly when their
    counters are equal and they hold the same digits in the same cells
    (the candidate lists do not show). *)
Theorem print_pretty_shows_placed (b1 b2 : Board) :
  shape9 b1 → shape9 b2 → one_digit b1 → one_digit b2 →
  print_pretty b1 = print_pretty b2
  ↔ num_nums_placed b1 = num_nums_placed b2
    ∧ ∀ r c v, cell_at b1 r c = Some (Assigned v) ↔ cell_at b2 r c = Some (Assigned v).
Proof.
  intros Hs1 Hs2 Hd1 Hd2. split.
  - intros Heq. unfold print_pretty, newline in Heq. cbn [String.append] in Heq.
    injection Heq as Heq.
    apply split_at in Heq as [Hn Hg]; [|apply pretty_Z_free_newline..].
    apply (inj pretty) in Hn. split; [done|].
    injection Hg as Hg. rewrite !out_lines_shown, !shown_glyphs in Hg by done.
    apply lines_of_single_inj in Hg; [|by apply glyphs_shape..].
    assert (∀ r c, glyph <$> cell_at b1 r c = glyph <$> cell_at b2 r c) as Hcells.
    { intros r c. by rewrite <- !matrix_fmap_lookup, Hg. }
    intros r c v. split; apply glyph_assigned; done.
  - intros [Hn Hc]. unfold print_pretty. rewrite Hn, !out_lines_shown.
    assert (fmap (M:=list) shown <$> rows b1 = fmap (M:=list) shown <$> rows b2) as ->; [|done].
    apply matrix_ext; [by rewrite !matrix_fmap_dims, Hs1, Hs2|].
    intros r c. rewrite !matrix_fmap_lookup.
    pose proof (shape9_cell_at b1 r c Hs1) as Hin1.
    pose proof (shape9_cell_at b2 r c Hs2) as Hin2.
    destruct (cell_at b1 r c) as [x1|] eqn:H1, (cell_at b2 r c) as [x2|] eqn:H2.
    + destruct x1 as [v1|l1]; [apply Hc in H1; by simplify_eq|].
      destruct x2 as [v2|l2]; [apply Hc in H2; by simplify_eq|done].
    + assert (is_Some (None : option cell)) as [? ?]; [|done]. apply Hin2, Hin1. by eexists.
    + assert (is_Some (None : option cell)) as [? ?]; [|done]. apply Hin1, Hin2. by eexists.
    + done.
Qed.

Lemma consistent_one_digit b : consistent b → one_digit b.
Proof. intros Hcons r c v Hv. destruct (consistent_digits b Hcons r c v Hv). lia. Qed.

Lemma print_pretty_shows_placed_witness :
  print_pretty Board_init = print_pretty first_board
  ↔ num_nums_placed Board_init = num_nums_placed first_board
    ∧ ∀ r c v, cell_at Board_init r c = Some (Assigned v)
               ↔ cell_at first_board r c = Some (Assigned v).
Proof.
  apply (print_pretty_shows_placed Board_init first_board).
  - apply Board_init_shape9.
  - vm_compute. reflexivity.
  - apply consistent_one_digit, Board_init_consistent.
  - apply consistent_one_digit, first_board_consistent.
Defined.

(** X17: the layout of the grid that [print_pretty] prints for a 9 x 9
    board whose placed values are single digits: 13 lines of 26 columns
    each, and the cell [(r, c)] shows in line [r + r / 3 + 1] at column
    [3 + 2 c + 2 (c / 3)], as the one character of its text (its digit, or
    a star when it is open). *)
Theorem print_pretty_layout (b : Board) :
  shape9 b → one_digit b →
  length (out_lines b) = 13%nat
  ∧ Forall (λ line, String.length line = 26%nat) (out_lines b)
  ∧ ∀ r c x, cell_at b r c = Some x →
      ∃ line a, out_lines b !! (r + r / 3 + 1)%nat = Some line
        ∧ shown x = String a ""
        ∧ String.get (3 + 2 * c + 2 * (c / 3))%nat line = Some a.
Proof.
  intros Hs Hd.
  assert (∀ r c x, cell_at b r c = Some x →
            (r < 9)%nat ∧ (c < 9)%nat ∧ shown x = single (glyph x)
            ∧ (fmap (M:=list) glyph <$> rows b) !! r ≫= (.!! c) = Some (glyph x)) as Hcells.
  { intros r c x Hx.
    assert ((r < 9)%nat ∧ (c < 9)%nat) as [Hr Hc]
      by (apply (shape9_cell_at b r c Hs); by eexists).
    split; [done|]. split; [done|]. split; [|by rewrite matrix_fmap_lookup, Hx].
    destruct x as [v|l]; [|done]. apply shown_digit. by eapply Hd. }
  rewrite out_lines_shown, shown_glyphs by done.
  pose proof (glyphs_shape b Hs) as HM.
  revert Hcells. generalize dependent (fmap (M:=list) glyph <$> rows b).
  intros M HM Hcells. explode_grid M HM.
  split; [reflexivity|]. split.
  - repeat (constructor; [reflexivity|]). constructor.
  - intros r c x (Hr & Hc & Hshown & Hx)%Hcells. clear Hcells.
    rewrite Hshown. revert Hx. generalize (glyph x). intros g Hx.
    do 9 (destruct r as [|r];
      [do 9 (destruct c as [|c];
         [injection Hx as <-; eexists _, _; repeat split; reflexivity|]); lia|]).
    lia.
Qed.

Lemma print_pretty_layout_witness :
  length (out_lines first_board) = 13%nat
  ∧ Forall (λ line, String.length line = 26%nat) (out_lines first_board)
  ∧ ∀ r c x, cell_at first_board r c = Some x →
      ∃ line a, out_lines first_board !! (r + r / 3 + 1)%nat = Some line
        ∧ shown x = String a ""
        ∧ String.get (3 + 2 * c + 2 * (c / 3))%nat line = Some a.
Proof.
  apply (print_pretty_layout first_board).
  - vm_compute. reflexivity.
  - apply consistent_one_digit, first_board_consistent.
Defined.

(** ** What the snapshot keeps *)

(** The text goes on with a separator or with the closing bracket. *)
Definition goes_on (u : string) : Prop :=
  match u with
  | String a _ => a = ","%char ∨ a = "]"%char
  | EmptyString => False
  end.

(** A list whose elements are read in one way, joined by [", "] and
    closed by a bracket, is read in one way. *)
Lemma join_inj {A} (f : A → string) (l1 l2 : list A) (t1 t2 : string) :
  (∀ x1 x2 u1 u2, goes_on u1 → goes_on u2 →
     f x1 +:+ u1 = f x2 +:+ u2 → x1 = x2 ∧ u1 = u2) →
  (∀ x, ∃ a s, f x = String a s ∧ a ≠ "]"%char) →
  String.concat ", " (f <$> l1) +:+ String "]" t1
    = String.concat ", " (f <$> l2) +:+ String "]" t2 →
  l1 = l2 ∧ t1 = t2.
Proof.
  intros Hcode Hfirst. revert l2.
  assert (∀ l : list A, goes_on (tail_of ", " (f <$> l) +:+ String "]" t1)
                        ∧ goes_on (tail_of ", " (f <$> l) +:+ String "]" t2)) as Hgo.
  { intros [|y l]; split; simpl; auto. }
  induction l1 as [|x1 l1 IH]; intros [|x2 l2] Heq.
  - by injection Heq as ->.
  - exfalso. rewrite fmap_cons, concat_cons, text_app_assoc in Heq.
    destruct (Hfirst x2) as (a & s & Hx & Ha). rewrite Hx in Heq. by injection Heq as <-.
  - exfalso. rewrite fmap_cons, concat_cons, text_app_assoc in Heq.
    destruct (Hfirst x1) as (a & s & Hx & Ha). rewrite Hx in Heq. by injection Heq as ->.
  - rewrite !fmap_cons, !concat_cons, !text_app_assoc in Heq.
    apply Hcode in Heq as [-> Heq]; [|apply Hgo..].
    destruct l1 as [|y1 l1], l2 as [|y2 l2].
    + by injection Heq as ->.
    + discriminate Heq.
    + discriminate Heq.
    + injection Heq as Heq. by destruct (IH (y2 :: l2) Heq) as [-> ->].
Qed.

Lemma goes_on_stops u : goes_on u → stops numeric u.
Proof.
  destruct u as [|a u]; [done|]. unfold numeric. simpl. intros [-> | ->] Hin.
  - set_solver.
  - set_solver.
Qed.

Lemma pretty_code (v1 v2 : Z) u1 u2 :
  goes_on u1 → goes_on u2 → pretty v1 +:+ u1 = pretty v2 +:+ u2 → v1 = v2 ∧ u1 = u2.
Proof.
  intros H1%goes_on_stops H2%goes_on_stops Heq.
  apply (span numeric) in Heq as [Hv ->]; [|apply pretty_Z_numeric..|done|done].
  split; [|done]. by apply (inj pretty).
Qed.

Lemma pretty_first_not_bracket (v : Z) : ∃ a s, pretty v = String a s ∧ a ≠ "]"%char.
Proof.
  destruct (pretty_Z_first v) as (a & s & Hv & Ha). exists a, s. split; [done|].
  intros ->. unfold numeric in Ha. simpl in Ha. set_solver.
Qed.

Lemma repr_cell_code x1 x2 u1 u2 :
  goes_on u1 → goes_on u2 →
  repr_cell x1 +:+ u1 = repr_cell x2 +:+ u2 → x1 = x2 ∧ u1 = u2.
Proof.
  intros H1 H2 Heq. destruct x1 as [v1|l1], x2 as [v2|l2]; simpl in Heq.
  - apply pretty_code in Heq as [-> ->]; done.
  - exfalso. destruct (pretty_Z_first v1) as (a & s & Hv & Ha). rewrite Hv in Heq.
    unfold str_list in Heq. injection Heq as -> _.
    unfold numeric in Ha. simpl in Ha. set_solver.
  - exfalso. destruct (pretty_Z_first v2) as (a & s & Hv & Ha). rewrite Hv in Heq.
    unfold str_list in Heq. injection Heq as <- _.
    unfold numeric in Ha. simpl in Ha. set_solver.
  - unfold str_list in Heq. autorewrite with text in Heq. injection Heq as Heq.
    apply (join_inj pretty) in Heq as [-> ->];
      [done|apply pretty_code|apply pretty_first_not_bracket].
Qed.

Lemma repr_cell_first x : ∃ a s, repr_cell x = String a s ∧ a ≠ "]"%char.
Proof.
  destruct x as [v|l]; [apply pretty_first_not_bracket|].
  eexists _, _. split; [reflexivity|done].
Qed.

Lemma str_row_inj r1 r2 : str_row r1 = str_row r2 → r1 = r2.
Proof.
  unfold str_row. autorewrite with text. intros [= Heq].
  by apply (join_inj repr_cell) in Heq as [-> _];
    [|apply repr_cell_code|apply repr_cell_first].
Qed.

#[global] Instance str_row_Inj : Inj (=) (=) str_row.
Proof. intros r1 r2. apply str_row_inj. Qed.

Lemma pretty_list_free (l : list Z) :
  free_of "010" (String.concat ", " (pretty <$> l)).
Proof.
  apply all_chars_concat; [by repeat split|].
  apply Forall_fmap, Forall_true. intros v. apply pretty_Z_free_newline.
Qed.

Lemma repr_cell_free x : free_of "010" (repr_cell x).
Proof.
  destruct x as [v|l]; [apply pretty_Z_free_newline|].
  unfold repr_cell, str_list. rewrite text_app_cons, text_app_empty_l.
  split; [done|]. apply all_chars_app; [apply pretty_list_free|by repeat split].
Qed.

Lemma str_row_free r : free_of "010" (str_row r).
Proof.
  unfold str_row. rewrite text_app_cons, text_app_empty_l.
  split; [done|]. apply all_chars_app; [|by repeat split].
  apply all_chars_concat; [by repeat split|].
  apply Forall_fmap, Forall_true. intros x. apply repr_cell_free.
Qed.

(** X19: the snapshot of [__str__] keeps the whole state of a board: two
    boards with the same snapshot have the same counter and the same rows,
    cell by cell and candidate by candidate. *)
Theorem Board_str_inj (b1 b2 : Board) : Board_str b1 = Board_str b2 ↔ b1 = b2.
Proof.
  split; [|by intros ->]. unfold Board_str, newline. intros Heq.
  apply lines_inj in Heq as [Hn Hrows].
  - apply (inj (String.app _)), (inj pretty) in Hn.
    injection Hrows as Hrows. apply (inj (fmap str_row)) in Hrows.
    destruct b1, b2; simpl in *; congruence.
  - apply all_chars_app; [by repeat split|apply pretty_Z_free_newline].
  - apply all_chars_app; [by repeat split|apply pretty_Z_free_newline].
  - constructor; [by repeat split|]. apply Forall_fmap, Forall_true, str_row_free.
  - constructor; [by repeat split|]. apply Forall_fmap, Forall_true, str_row_free.
Qed.

(** * The test harness *)

(** How a call of [test_dfs_or_bfs] can fail: an exception of [update] or
    of the search escapes, or [print_pretty] is looked up on [None]. *)
Inductive fault :=
  | Escaped (e : exn)
  | AttributeError.

(** A run of the harness: the texts it printed, one for each call of
    [print], and the fault that ended it, if any. *)
Record run := mkRun {
  printed : list string;
  ended : option fault
}.

(** [test_dfs_or_bfs(use_dfs, moves)]; the search runs with [fuel], and
    [None] means the bound was reached. *)
Definition test_dfs_or_bfs (fuel : nat) (use_dfs : bool) (moves : list (nat * nat * Z)) :
    option run :=
  match play moves Board_init with
  | Raise e => Some (mkRun [] (Some (Escaped e)))
  | Ok b =>
      let out := ["<<<<< Initial Board >>>>>"; print_pretty b] in
      match (if use_dfs then DFS else BFS) fuel b with
      | None => None
      | Some (Raised e) => Some (mkRun out (Some (Escaped e)))
      | Some (Returned solution) =>
          let out := out ++ ["<<<<< Solved Board >>>>>"] in
          match solution with
          | Some s => Some (mkRun (out ++ [print_pretty s]) None)
          | None => Some (mkRun out (Some AttributeError))
          end
      end
  end.

(** Legal moves can be played, and the board they give keeps them. *)
Lemma legal_play moves b :
  legal moves b → consistent b →
  ∃ b', play moves b = Ok b' ∧ consistent b' ∧ refines b' b ∧ holds b' moves
    ∧ ∀ g, solution g → agrees g moves → compatible g b → compatible g b'.
Proof.
  intros Hlegal.
  induction Hlegal as [b|r c v moves b l b1 Hl Hv Hu Hlegal IH]; intros Hcons.
  - exists b. split; [done|]. split; [done|]. split; [apply refines_refl|].
    split; [constructor|done].
  - destruct (update_consistent r c v b l Hcons Hl Hv) as (b2 & Hu2 & Hcons2 & _ & Hcell).
    assert (b2 = b1) as -> by congruence.
    destruct (IH Hcons2) as (b' & Hplay & Hcons' & Href' & Hholds' & Hcomp').
    exists b'. split; [|split; [done|split; [|split]]].
    + unfold play in *. simpl. rewrite Hu. exact Hplay.
    + eapply refines_trans; [done|]. by eapply update_refines.
    + constructor; [|done]. simpl. apply Href'. rewrite Hcell, Hl. simpl.
      by rewrite update_cell_target.
    + intros g Hsol [Hg Hag]%Forall_cons Hcomp. simpl in Hg. apply Hcomp'; [done..|].
      apply (update_compatible g r c b b1 Hsol); [by destruct Hcons|done| |by eexists].
      by rewrite Hg.
Qed.

Lemma harness_run {F} `{FrontierLaws F} (clues : list (nat * nat * Z)) :
  legal clues Board_init →
  ∃ fuel seed, play clues Board_init = Ok seed
    ∧ ((∃ r, search (F := F) fuel seed = Some (Returned (Some r))
             ∧ solved r ∧ holds r clues)
       ∨ (search (F := F) fuel seed = Some (Returned None)
          ∧ ∀ g, solution g → ¬ agrees g clues)).
Proof.
  intros Hlegal.
  destruct (legal_play clues Board_init Hlegal Board_init_consistent)
    as (seed & Hplay & Hcons & _ & Hholds & Hcomp).
  destruct (search_consistent (F := F) seed Hcons) as (fuel & out & Hrun & Hout).
  exists fuel, seed. split; [done|]. destruct out as [r|].
  - left. exists r. destruct Hout as (Hr & Hg & Href). split; [done|].
    split; [by apply consistent_goal_solved|by eapply holds_refines].
  - right. split; [done|]. intros g Hsol Hag. apply (Hout g Hsol).
    apply Hcomp; [done..|]. by apply Board_init_compatible.
Qed.

(** X18: what [test_dfs_or_bfs] does with clues each of which places a
    digit that its cell still lists: it prints the seeded board, the search
    stops, and then either the puzzle has a solution, and the harness
    prints a completed Sudoku that holds the clues and ends without fault,
    or the puzzle has no solution, the search returns [None] and the
    harness ends with [AttributeError] after the heading of the solved
    board. *)
Theorem test_dfs_or_bfs_outcome (use_dfs : bool) (clues : list (nat * nat * Z)) :
  legal clues Board_init →
  ∃ fuel seed, play clues Board_init = Ok seed
    ∧ ((∃ r, test_dfs_or_bfs fuel use_dfs clues
               = Some (mkRun ["<<<<< Initial Board >>>>>"; print_pretty seed;
                              "<<<<< Solved Board >>>>>"; print_pretty r] None)
             ∧ solved r ∧ holds r clues)
       ∨ (test_dfs_or_bfs fuel use_dfs clues
            = Some (mkRun ["<<<<< Initial Board >>>>>"; print_pretty seed;
                           "<<<<< Solved Board >>>>>"] (Some AttributeError))
          ∧ ∀ g, solution g → ¬ agrees g clues)).
Proof.
  intros Hlegal. unfold test_dfs_or_bfs, DFS, BFS. destruct use_dfs.
  - destruct (harness_run (F := Stack) clues Hlegal)
      as (fuel & seed & Hplay & [(r & Hrun & Hr)|[Hrun Hnone]]);
      exists fuel, seed; (split; [done|]); rewrite Hplay, Hrun.
    + left. by exists r.
    + by right.
  - destruct (harness_run (F := Queue) clues Hlegal)
      as (fuel & seed & Hplay & [(r & Hrun & Hr)|[Hrun Hnone]]);
      exists fuel, seed; (split; [done|]); rewrite Hplay, Hrun.
    + left. by exists r.
    + by right.
Qed.

Lemma test_dfs_or_bfs_outcome_witness :
  ∃ fuel seed, play first_moves Board_init = Ok seed
    ∧ ((∃ r, test_dfs_or_bfs fuel true first_moves
               = Some (mkRun ["<<<<< Initial Board >>>>>"; print_pretty seed;
                              "<<<<< Solved Board >>>>>"; print_pretty r] None)
             ∧ solved r ∧ holds r first_moves)
       ∨ (test_dfs_or_bfs fuel true first_moves
            = Some (mkRun ["<<<<< Initial Board >>>>>"; print_pretty seed;
                           "<<<<< Solved Board >>>>>"] (Some AttributeError))
          ∧ ∀ g, solution g → ¬ agrees g first_moves)).
Proof. apply (test_dfs_or_bfs_outcome true first_moves), first_moves_legal. Defined.
